(** * ONNXim: the co-simulation engine, embedded and verified

    A shallow embedding of [src/Dram.cc], [src/Model.cc] and
    [src/Simulator.cc], followed by the properties of the engine.

    Integers of the C++ code are [Z]; a [uint64_t] result is reduced with
    [wrap64].  A [std::vector] or [std::queue] is a [list] (front first), a
    [std::map] a key-sorted association list, a JSON object a [gmap] over
    strings.  A C++ exception, a failed [assert] and undefined behaviour are
    the result [None]. *)

From Stdlib Require Import ZArith Lia List Bool.
From Stdlib Require Import Floats.SpecFloat.
From stdpp Require Import base tactics option list sorting gmap strings.

Local Open Scope Z_scope.

(* ================================================================== *)
(** * Part I. The embedding                                            *)
(* ================================================================== *)

(** ** Common declarations *)
Module Common.

(** [uint64_t] arithmetic is arithmetic modulo [2^64]. *)
Definition wrap64 (z : Z) : Z := z mod 2 ^ 64.

(** [uint32_t] and [int] conversions of an integer. *)
Definition wrap32 (z : Z) : Z := z mod 2 ^ 32.

Definition to_int32 (z : Z) : Z := (z + 2 ^ 31) mod 2 ^ 32 - 2 ^ 31.

(** Modelled from the spec: the macro [MIN3] is declared in a header that is
    not under src/; section 4.1 reads it as the minimum of the three
    accumulated times, [T = min(t_core, t_icnt, t_dram)]. *)
Definition MIN3 (x y z : Z) : Z := Z.min (Z.min x y) z.

(** Modelled from the spec: the macro [MAX] is declared in a header that is
    not under src/; it is the larger of its two arguments. *)
Definition MAX (x y : Z) : Z := if x >? y then x else y.

(** Modelled from the spec: the struct [MemoryAccess] is declared in a header
    that is not under src/; section 3 lists its attributes.  These are the
    ones the sources under src/ read or write. *)
Record MemoryAccess := mkMemoryAccess {
  id : Z;
  request : bool;
  write : bool;
  dram_address : Z;
  access_size : Z;
  core_id : Z
}.

(** [access->request = false]: the direction flag flips to "response". *)
Definition set_response (a : MemoryAccess) : MemoryAccess :=
  mkMemoryAccess (id a) false (write a) (dram_address a) (access_size a)
                 (core_id a).

End Common.

(** ** [src/Dram.cc]: the simple DRAM model *)
Module SimpleDram.
Import Common.

(** The fields of [SimpleDram] that [Dram.cc] uses.  A waiting entry is the
    [std::pair] of its scheduled completion cycle and the access. *)
Record t := mk {
  _latency : Z;
  _cycles : Z;
  _n_ch : nat;
  _last_finish_cycle : Z;
  _dram_req_size : Z;
  _waiting_queue : list (list (Z * MemoryAccess));
  _response_queue : list (list MemoryAccess)
}.

(** The constructor.  It leaves [_last_finish_cycle] uninitialised: the value
    the member starts with is the argument [indeterminate]. *)
Definition SimpleDram (dram_latency : Z) (dram_channels : nat)
    (dram_req_size : Z) (indeterminate : Z) : t :=
  mk dram_latency 0 dram_channels indeterminate dram_req_size
     (replicate dram_channels []) (replicate dram_channels []).

Definition running (d : t) : bool := false.

Definition is_full (d : t) (cid : nat) (request : MemoryAccess) : bool := false.

(** One iteration of the [for] loop of [cycle]: channel [ch] hands over the
    front of its waiting queue when that entry's cycle has come. *)
Definition cycle_channel (d : t) (ch : nat) : t :=
  match _waiting_queue d !! ch with
  | Some ((finish, access) :: rest) =>
      if finish <=? _cycles d then
        mk (_latency d) (_cycles d) (_n_ch d) (_last_finish_cycle d)
           (_dram_req_size d)
           (<[ch := rest]> (_waiting_queue d))
           (alter (λ q, q ++ [access]) ch (_response_queue d))
      else d
  | _ => d
  end.

Definition cycle (d : t) : t :=
  let d' := fold_left cycle_channel (seq 0 (_n_ch d)) d in
  mk (_latency d') (wrap64 (_cycles d' + 1)) (_n_ch d') (_last_finish_cycle d')
     (_dram_req_size d') (_waiting_queue d') (_response_queue d').

(** [push]: indexing [_waiting_queue] out of range is undefined. *)
Definition push (cid : nat) (request : MemoryAccess) (d : t) : option t :=
  match _waiting_queue d !! cid with
  | None => None
  | Some q =>
      let entity_first :=
        MAX (wrap64 (_cycles d + _latency d)) (_last_finish_cycle d) in
      let entity := (entity_first, set_response request) in
      Some (mk (_latency d) (_cycles d) (_n_ch d) entity_first
               (_dram_req_size d)
               (<[cid := q ++ [entity]]> (_waiting_queue d))
               (_response_queue d))
  end.

Definition is_empty (cid : nat) (d : t) : option bool :=
  match _response_queue d !! cid with
  | None => None
  | Some q => Some (match q with [] => true | _ => false end)
  end.

(** [top] and [pop] assert that the response queue is not empty. *)
Definition top (cid : nat) (d : t) : option MemoryAccess :=
  match _response_queue d !! cid with
  | Some (a :: _) => Some a
  | _ => None
  end.

Definition pop (cid : nat) (d : t) : option t :=
  match _response_queue d !! cid with
  | Some (_ :: rest) =>
      Some (mk (_latency d) (_cycles d) (_n_ch d) (_last_finish_cycle d)
               (_dram_req_size d) (_waiting_queue d)
               (<[cid := rest]> (_response_queue d)))
  | _ => None
  end.

(** [get_channel_id]: unsigned division; a zero divisor is undefined.
    [_config.dram_channels] is the number [_n_ch] was set from. *)
Definition get_channel_id (access : MemoryAccess) (d : t) : option Z :=
  if (_dram_req_size d =? 0) || (Z.of_nat (_n_ch d) =? 0) then None
  else Some (wrap32 ((dram_address access / _dram_req_size d)
                     mod Z.of_nat (_n_ch d))).

(** What the driver does to the memory: it pushes a request into a channel,
    ticks the memory, or takes the response at the front of a channel
    ([top] followed by [pop]). *)
Inductive op :=
| Push (cid : nat) (request : MemoryAccess)
| Cycle
| Pop (cid : nat).

(** The memory after the operations [ops], with the responses the driver
    took, oldest first, each with its channel. *)
Fixpoint run (ops : list op) (d : t) (taken : list (nat * MemoryAccess))
    : option (t * list (nat * MemoryAccess)) :=
  match ops with
  | [] => Some (d, taken)
  | Push cid request :: ops' =>
      match push cid request d with
      | Some d' => run ops' d' taken
      | None => None
      end
  | Cycle :: ops' => run ops' (cycle d) taken
  | Pop cid :: ops' =>
      match top cid d, pop cid d with
      | Some a, Some d' => run ops' d' (taken ++ [(cid, a)])
      | _, _ => None
      end
  end.

(** The requests [ops] pushes into channel [ch], the responses taken from
    [ch], and the number of ticks, in order. *)
Definition pushed (ch : nat) (ops : list op) : list MemoryAccess :=
  omap (λ o, match o with
             | Push cid a => if decide (cid = ch) then Some a else None
             | _ => None
             end) ops.

Definition taken_from (ch : nat) (taken : list (nat * MemoryAccess))
    : list MemoryAccess :=
  omap (λ p, if decide (p.1 = ch) then Some p.2 else None) taken.

Fixpoint ticks (ops : list op) : Z :=
  match ops with
  | [] => 0
  | Cycle :: ops' => 1 + ticks ops'
  | _ :: ops' => ticks ops'
  end.

Definition waiting (ch : nat) (d : t) : list (Z * MemoryAccess) :=
  default [] (_waiting_queue d !! ch).

Definition responses (ch : nat) (d : t) : list MemoryAccess :=
  default [] (_response_queue d !! ch).

(** Everything channel [ch] has been handed and has not forgotten: the
    responses already taken, those in the response queue, and the accesses
    still waiting, oldest first. *)
Definition stream (ch : nat) (d : t) (taken : list (nat * MemoryAccess))
    : list MemoryAccess :=
  taken_from ch taken ++ responses ch d ++ (waiting ch d).*2.

(** The two queues of one channel. *)
Definition chan (ch : nat) (d : t)
    : option (list (Z * MemoryAccess)) * option (list MemoryAccess) :=
  (_waiting_queue d !! ch, _response_queue d !! ch).

(** What one tick does to a channel whose queues are [w] and [r], at cycle
    [c]. *)
Definition chan_step (c : Z)
    (wr : option (list (Z * MemoryAccess)) * option (list MemoryAccess))
    : option (list (Z * MemoryAccess)) * option (list MemoryAccess) :=
  match wr.1 with
  | Some ((finish, access) :: rest) =>
      if finish <=? c then (Some rest, (λ q, q ++ [access]) <$> wr.2) else wr
  | _ => wr
  end.

(** The queues have one entry per channel on both sides. *)
Definition wf (d : t) : Prop :=
  length (_waiting_queue d) = length (_response_queue d).

(** The waiting queues are ordered by completion cycle, and no entry is
    scheduled later than [_last_finish_cycle]. *)
Definition waiting_ordered (d : t) : Prop :=
  ∀ ch, StronglySorted Z.le (waiting ch d).*1 ∧
        Forall (λ f, f ≤ _last_finish_cycle d) (waiting ch d).*1.

(** A small memory for examples: two channels, a latency of two cycles. *)
Definition example_access (i : Z) : MemoryAccess :=
  mkMemoryAccess i true false (64 * i) 64 0.

Definition example_dram : t := SimpleDram 2 2 64 0.

Definition example_ops : list op := [Cycle; Push 0 (example_access 8); Cycle].

End SimpleDram.

(** ** IEEE 754 binary64 and [nlohmann::json] values *)
Module Json.
Import Common.

(** [double] is binary64: [SpecFloat] at precision 53 and [emax] 1024. *)
Definition double : Type := spec_float.

Definition double_mul (x y : double) : double := SFmul 53 1024 x y.

(** The [double] nearest to an integer. *)
Definition double_of_Z (z : Z) : double := binary_normalize 53 1024 z 0 false.

(** Conversion of a [double] to an integer type truncates toward zero; the
    result is undefined for a NaN and an infinity. *)
Definition double_trunc (x : double) : option Z :=
  match x with
  | S754_zero _ => Some 0
  | S754_finite s m e =>
      let v := if 0 <=? e then Z.pos m * 2 ^ e else Z.pos m / 2 ^ (- e) in
      Some (if s then - v else v)
  | _ => None
  end.

(** [uint64_t(x)]: undefined unless the truncated value fits. *)
Definition double_to_uint64 (x : double) : option Z :=
  match double_trunc x with
  | Some v => if (0 <=? v) && (v <? 2 ^ 64) then Some v else None
  | None => None
  end.

Definition double_to_int (x : double) : option Z :=
  match double_trunc x with
  | Some v => if (- 2 ^ 31 <=? v) && (v <? 2 ^ 31) then Some v else None
  | None => None
  end.

Definition double_to_uint32 (x : double) : option Z :=
  match double_trunc x with
  | Some v => if (0 <=? v) && (v <? 2 ^ 32) then Some v else None
  | None => None
  end.

(** A JSON value, as far as the model configuration is read. *)
Inductive value :=
| null
| boolean (b : bool)
| number_integer (z : Z)
| number_float (x : double)
| string_value (s : string)
| structured.

(** [cfg[key]]: a key that is absent reads as [null]. *)
Definition at_key (cfg : gmap string value) (key : string) : value :=
  default null (cfg !! key).

Definition contains (cfg : gmap string value) (key : string) : bool :=
  bool_decide (is_Some (cfg !! key)).

(** [double(j)]: a number converts, anything else throws. *)
Definition to_double (j : value) : option double :=
  match j with
  | number_integer z => Some (double_of_Z z)
  | number_float x => Some x
  | _ => None
  end.

(** [int(j)] and [uint32_t(j)]: a number or a boolean converts, anything
    else throws. *)
Definition to_int (j : value) : option Z :=
  match j with
  | number_integer z => Some (to_int32 z)
  | number_float x => double_to_int x
  | boolean b => Some (if b then 1 else 0)
  | _ => None
  end.

Definition to_uint32 (j : value) : option Z :=
  match j with
  | number_integer z => Some (wrap32 z)
  | number_float x => double_to_uint32 x
  | boolean b => Some (if b then 1 else 0)
  | _ => None
  end.

(** [j != n] for an [int] [n]: values of different kinds differ. *)
Definition ne_int (j : value) (n : Z) : bool :=
  match j with
  | number_integer z => negb (z =? n)
  | number_float x => negb (SFeqb x (double_of_Z n))
  | _ => true
  end.

End Json.

(** ** [std::map<uint32_t, V>]: an association list in ascending key order *)
Module StdMap.
Section StdMap.
Context {V : Type}.

(** [m.find(k)] *)
Fixpoint find (k : Z) (m : list (Z * V)) : option V :=
  match m with
  | [] => None
  | (k', v) :: rest => if k =? k' then Some v else find k rest
  end.

(** [m[k] = v]: assigns to the entry of [k], inserted in key order when the
    key is new. *)
Fixpoint assign (k : Z) (v : V) (m : list (Z * V)) : list (Z * V) :=
  match m with
  | [] => [(k, v)]
  | (k', v') :: rest =>
      if k <? k' then (k, v) :: m
      else if k =? k' then (k, v) :: rest
      else (k', v') :: assign k v rest
  end.

(** The keys of a map are in strictly ascending order. *)
Definition ascending (m : list (Z * V)) : Prop := StronglySorted Z.lt m.*1.

End StdMap.
End StdMap.

(** ** [src/Model.cc] *)
Module Model.
Import Common.

(** One dimension of an input's shape in the ONNX file: a value and the
    name of a dynamic axis. *)
Record Dimension := mkDimension {
  dim_value : Z;
  dim_param : string
}.

(** An entry of [graph.input]: its name and its shape. *)
Record ValueInfoProto := mkValueInfoProto {
  name : string;
  shape : list Dimension
}.

(** What [Model.cc] calls and does not define: tensors, operations and the
    operation factory.  [Tensors] is [_tensor_map] with the tensors it owns
    (and the counter tensor ids are drawn from); an [Operation] method reads
    and writes the tensors it is wired to. *)
Class Collaborators := {
  Tensors : Type;
  Operation : Type;
  TensorProto : Type;
  NodeProto : Type;
  MappingTable : Type;
  (** [node_proto.op_type()] *)
  op_type : NodeProto → string;
  (** [make_unique<Tensor>(root, name, dims, precision, true)], then
      [set_produced()] and [_tensor_map[id] = ...] *)
  add_input_tensor : Z → string → list Z → Z → Tensors → Tensors;
  (** [make_unique<Tensor>(root, initializer, precision, true)], then
      [set_produced()] and [_tensor_map[id] = ...] *)
  add_initializer_tensor : Z → TensorProto → Z → Tensors → Tensors;
  (** [OperationFactory::create_operation(this, node_proto)]; [None] is the
      null pointer returned for an unknown operator type *)
  create_operation : NodeProto → Tensors → option Operation * Tensors;
  get_id : Operation → Z;
  get_child_nodes : Operation → Tensors → list Z;
  check_executable : Operation → Tensors → bool;
  check_finish : Operation → bool;
  set_finish : Operation → Tensors → Operation * Tensors;
  initialize_tiles : MappingTable → Operation → Tensors → Operation * Tensors;
  (** [_outputs.clear()] *)
  clear_outputs : Operation → Operation
}.

(** The parsed ONNX file, as far as [initialize_model] reads it. *)
Record ModelProto `{Collaborators} := mkModelProto {
  graph_input : list ValueInfoProto;
  graph_initializer : list TensorProto;
  graph_node : list NodeProto
}.

Section Model.
Context `{Collaborators}.

(** The members of [Model].  An [Operation*] of [_executable_layer] points
    at the operation owned by an entry of [_operation_map]: it is modelled
    by the key of that entry. *)
Record t := mk {
  _name : string;
  _root_node_id : Z;
  _precision : Z;
  _model_config : gmap string Json.value;
  _request_time : Z;
  _partition_id : option Z;
  _mapping_table : MappingTable;
  _tensor_map : Tensors;
  _operation_map : list (Z * Operation);
  _executable_layer : list Z;
  nr_skip : Z;
  _started : bool;
  _start_time : Z
}.

Definition with_tensor_map (m : t) (ts : Tensors) : t :=
  mk (_name m) (_root_node_id m) (_precision m) (_model_config m)
     (_request_time m) (_partition_id m) (_mapping_table m) ts
     (_operation_map m) (_executable_layer m) (nr_skip m) (_started m)
     (_start_time m).

Definition with_operation_map (m : t) (ops : list (Z * Operation)) : t :=
  mk (_name m) (_root_node_id m) (_precision m) (_model_config m)
     (_request_time m) (_partition_id m) (_mapping_table m) (_tensor_map m)
     ops (_executable_layer m) (nr_skip m) (_started m) (_start_time m).

Definition with_executable_layer (m : t) (l : list Z) : t :=
  mk (_name m) (_root_node_id m) (_precision m) (_model_config m)
     (_request_time m) (_partition_id m) (_mapping_table m) (_tensor_map m)
     (_operation_map m) l (nr_skip m) (_started m) (_start_time m).

Definition with_nr_skip (m : t) (n : Z) : t :=
  mk (_name m) (_root_node_id m) (_precision m) (_model_config m)
     (_request_time m) (_partition_id m) (_mapping_table m) (_tensor_map m)
     (_operation_map m) (_executable_layer m) n (_started m) (_start_time m).

(** [uint64_t(double(cfg["request_time"]) * 1000 * 1000 * 1000)] *)
Definition request_time_of (j : Json.value) : option Z :=
  match Json.to_double j with
  | Some x =>
      Json.double_to_uint64
        (Json.double_mul
           (Json.double_mul (Json.double_mul x (Json.double_of_Z 1000))
                            (Json.double_of_Z 1000))
           (Json.double_of_Z 1000))
  | None => None
  end.

(** The request time the constructor stores. *)
Definition stored_request_time (model_config : gmap string Json.value)
    : option Z :=
  if Json.contains model_config "request_time"
  then request_time_of (Json.at_key model_config "request_time")
  else Some 0.

(** The partition the constructor stores; the member stays uninitialised
    ([None]) when the key is absent. *)
Definition stored_partition_id (model_config : gmap string Json.value)
    : option (option Z) :=
  if Json.contains model_config "partition_id"
  then option_map Some
         (Json.to_uint32 (Json.at_key model_config "partition_id"))
  else Some None.

(** The constructor.  [root_node_id] is the identifier [generate_id()]
    returns, [empty] the empty tensor map and [nr_skip0] the value the
    member [nr_skip] starts with. *)
Definition Model (model_config : gmap string Json.value) (precision : Z)
    (name : string) (mapping_table : MappingTable) (root_node_id : Z)
    (empty : Tensors) (nr_skip0 : Z) : option t :=
  match stored_request_time model_config with
  | None => None
  | Some request_time =>
      match stored_partition_id model_config with
      | None => None
      | Some partition_id =>
          Some (mk name root_node_id precision model_config request_time
                   partition_id mapping_table empty [] [] nr_skip0 false 0)
      end
  end.

(** *** [initialize_model]: the input tensors *)

(** One dimension of [input_dim]: a zero value with an axis name is a
    dynamic axis, read from the model configuration. *)
Definition parse_dimension (cfg : gmap string Json.value) (d : Dimension)
    : option Z :=
  let value := to_int32 (dim_value d) in
  if (value =? 0) && negb (String.eqb (dim_param d) "")
  then Json.to_uint32 (Json.at_key cfg (dim_param d))
  else Some (wrap32 value).

Definition parse_shape (cfg : gmap string Json.value) (sh : list Dimension)
    : option (list Z) :=
  mapM (parse_dimension cfg) sh.

(** "NCHW to NHWC convert": [n_inputs] is [input.size()]. *)
Definition nchw_to_nhwc (n_inputs : nat) (input_dim : list Z) : list Z :=
  if (n_inputs =? 1)%nat && (length input_dim =? 4)%nat
     && bool_decide (input_dim !! 2%nat = input_dim !! 3%nat)
  then
    match input_dim !! 1%nat with
    | Some channel => delete 1%nat input_dim ++ [channel]
    | None => input_dim
    end
  else input_dim.

(** The vector the tensor of one input is constructed with. *)
Definition input_dim_of (cfg : gmap string Json.value) (n_inputs : nat)
    (input : ValueInfoProto) : option (list Z) :=
  option_map (nchw_to_nhwc n_inputs) (parse_shape cfg (shape input)).

Fixpoint initialize_inputs (n_inputs : nat) (inputs : list ValueInfoProto)
    (m : t) : option t :=
  match inputs with
  | [] => Some m
  | iter :: rest =>
      match input_dim_of (_model_config m) n_inputs iter with
      | None => None
      | Some input_dim =>
          initialize_inputs n_inputs rest
            (with_tensor_map m
               (add_input_tensor (_root_node_id m) (name iter) input_dim
                  (_precision m * 16) (_tensor_map m)))
      end
  end.

(** *** [initialize_model]: the weights *)
Definition initialize_weights (initializers : list TensorProto) (m : t) : t :=
  fold_left
    (λ m initializer,
       with_tensor_map m
         (add_initializer_tensor (_root_node_id m) initializer (_precision m)
            (_tensor_map m)))
    initializers m.

(** *** [initialize_model]: the operations *)

(** What the test on a created [SkipLayerNormalization] node decides:
    [_model_config["nr_atten"] != -1 &&
     ++nr_skip >= int(_model_config["nr_atten"]) * 2].
    The result is the new [nr_skip] and whether the loop breaks; [None] when
    the conversion throws or the [int] arithmetic overflows. *)
Definition skip_test (m : t) : option (Z * bool) :=
  let j := Json.at_key (_model_config m) "nr_atten" in
  if Json.ne_int j (-1) then
    let n := nr_skip m + 1 in
    if n <? 2 ^ 31 then
      match Json.to_int j with
      | Some a =>
          if (- 2 ^ 31 <=? a * 2) && (a * 2 <? 2 ^ 31)
          then Some (n, n >=? a * 2)
          else None
      | None => None
      end
    else None
  else Some (nr_skip m, false).

Fixpoint initialize_operations (nodes : list NodeProto) (m : t) : option t :=
  match nodes with
  | [] => Some m
  | node_proto :: rest =>
      let (node, ts) := create_operation node_proto (_tensor_map m) in
      let m := with_tensor_map m ts in
      match node with
      | None => initialize_operations rest m
      | Some node =>
          let node_id := get_id node in
          let m :=
            with_operation_map m
              (StdMap.assign (get_id node) node (_operation_map m)) in
          if String.eqb (op_type node_proto) "SkipLayerNormalization" then
            match skip_test m with
            | None => None
            | Some (n, true) =>
                match StdMap.find node_id (_operation_map m) with
                | Some op =>
                    Some (with_operation_map (with_nr_skip m n)
                            (StdMap.assign node_id (clear_outputs op)
                               (_operation_map m)))
                | None => None
                end
            | Some (n, false) => initialize_operations rest (with_nr_skip m n)
            end
          else initialize_operations rest m
      end
  end.

(** *** [initialize_model]: the ready-queue and the tiles *)
Definition seed_executable_layer (m : t) : t :=
  fold_left
    (λ m entry,
       if check_executable entry.2 (_tensor_map m)
       then with_executable_layer m (_executable_layer m ++ [entry.1])
       else m)
    (_operation_map m) m.

(** The loop over [_operation_map] that calls [initialize_tiles]: [todo] are
    the entries still to visit. *)
Fixpoint initialize_all_tiles (todo : list (Z * Operation)) (m : t) : t :=
  match todo with
  | [] => m
  | (key, _) :: rest =>
      match StdMap.find key (_operation_map m) with
      | Some val =>
          let (val', ts) :=
            initialize_tiles (_mapping_table m) val (_tensor_map m) in
          initialize_all_tiles rest
            (with_tensor_map
               (with_operation_map m
                  (StdMap.assign key val' (_operation_map m))) ts)
      | None => initialize_all_tiles rest m
      end
  end.

(** [initialize_model], on the parsed file. *)
Definition initialize_model (model_proto : ModelProto) (m : t) : option t :=
  match initialize_inputs (length (graph_input model_proto))
          (graph_input model_proto) m with
  | None => None
  | Some m =>
      let m := initialize_weights (graph_initializer model_proto) m in
      match initialize_operations (graph_node model_proto) m with
      | None => None
      | Some m =>
          let m := seed_executable_layer m in
          Some (initialize_all_tiles (_operation_map m) m)
      end
  end.

(** *** The ready-queue *)

(** [check_exist_in_exeutable]: the scan reads the id of every operation the
    queue points at. *)
Fixpoint check_exist_in_exeutable_from (ops : list (Z * Operation))
    (queue : list Z) (op_id : Z) : option bool :=
  match queue with
  | [] => Some false
  | iter :: rest =>
      match StdMap.find iter ops with
      | Some op =>
          if op_id =? get_id op then Some true
          else check_exist_in_exeutable_from ops rest op_id
      | None => None
      end
  end.

Definition check_exist_in_exeutable (op_id : Z) (m : t) : option bool :=
  check_exist_in_exeutable_from (_operation_map m) (_executable_layer m) op_id.

(** The loop of [set_layer_finish] over the child nodes. *)
Fixpoint append_children (children : list Z) (m : t) : option t :=
  match children with
  | [] => Some m
  | op_id :: rest =>
      match StdMap.find op_id (_operation_map m) with
      | None => None
      | Some op =>
          if check_executable op (_tensor_map m) then
            match check_exist_in_exeutable (get_id op) m with
            | None => None
            | Some true => append_children rest m
            | Some false =>
                append_children rest
                  (with_executable_layer m (_executable_layer m ++ [op_id]))
            end
          else append_children rest m
      end
  end.

(** [set_layer_finish]: an id that is not in the map is a null pointer
    dereferenced. *)
Definition set_layer_finish (id : Z) (m : t) : option t :=
  match StdMap.find id (_operation_map m) with
  | None => None
  | Some op =>
      let (op', ts) := set_finish op (_tensor_map m) in
      let m :=
        with_tensor_map
          (with_operation_map m (StdMap.assign id op' (_operation_map m))) ts in
      append_children (get_child_nodes op' (_tensor_map m)) m
  end.

Definition executable_layer_size (m : t) : Z :=
  wrap32 (Z.of_nat (length (_executable_layer m))).

(** [get_executable_tile]: the front of the queue, or the null pointer. *)
Definition get_executable_tile (m : t) : option Z * t :=
  match _executable_layer m with
  | [] => (None, m)
  | op :: rest => (Some op, with_executable_layer m rest)
  end.

Definition update_start_time (start_time : Z) (m : t) : t :=
  if _started m then m
  else mk (_name m) (_root_node_id m) (_precision m) (_model_config m)
          (_request_time m) (_partition_id m) (_mapping_table m)
          (_tensor_map m) (_operation_map m) (_executable_layer m) (nr_skip m)
          true start_time.

Definition check_finish_model (m : t) : bool :=
  fold_left (λ finish entry, finish && check_finish entry.2)
    (_operation_map m) true.

(** The ids of the operations in the ready-queue. *)
Definition executable_ids (m : t) : list (option Z) :=
  (λ p, get_id <$> StdMap.find p (_operation_map m)) <$> _executable_layer m.

(** What the scheduler does to a model once it is initialised. *)
Inductive call :=
| SetLayerFinish (id : Z)
| GetExecutableTile.

Fixpoint calls (cs : list call) (m : t) : option t :=
  match cs with
  | [] => Some m
  | SetLayerFinish id :: rest =>
      match set_layer_finish id m with
      | Some m' => calls rest m'
      | None => None
      end
  | GetExecutableTile :: rest => calls rest (get_executable_tile m).2
  end.

(** *** What the specification says, in its words *)

(** Section 6: [request_time] is "float seconds, converted to
    picoseconds", a factor of [10^12]. *)
Definition request_time_as_specified (j : Json.value) : option Z :=
  match Json.to_double j with
  | Some x =>
      Json.double_to_uint64 (Json.double_mul x (Json.double_of_Z (10 ^ 12)))
  | None => None
  end.

(** Section 4.7: "a 4-D model input whose middle two dimensions are equal
    is converted from channel-first to channel-last order". *)
Definition nchw_to_nhwc_as_specified (input_dim : list Z) : list Z :=
  match input_dim with
  | [batch; channel; height; width] =>
      if channel =? height then [batch; height; width; channel]
      else input_dim
  | _ => input_dim
  end.

(** The operations of the graph, every one created and none truncated. *)
Fixpoint create_all (nodes : list NodeProto) (m : t) : t :=
  match nodes with
  | [] => m
  | node_proto :: rest =>
      let (node, ts) := create_operation node_proto (_tensor_map m) in
      let m := with_tensor_map m ts in
      match node with
      | None => create_all rest m
      | Some node =>
          create_all rest
            (with_operation_map m
               (StdMap.assign (get_id node) node (_operation_map m)))
      end
  end.

(** The number of [SkipLayerNormalization] operations among them. *)
Fixpoint created_skips (nodes : list NodeProto) (m : t) : Z :=
  match nodes with
  | [] => 0
  | node_proto :: rest =>
      let (node, ts) := create_operation node_proto (_tensor_map m) in
      let m := with_tensor_map m ts in
      match node with
      | None => created_skips rest m
      | Some node =>
          (if String.eqb (op_type node_proto) "SkipLayerNormalization"
           then 1 else 0) +
          created_skips rest
            (with_operation_map m
               (StdMap.assign (get_id node) node (_operation_map m)))
      end
  end.

(** "The graph is truncated after [count] SkipLayerNormalization nodes have
    been created: the outputs of the last such node are cleared and no
    further nodes are created": [m'] is [m] with the operations of a prefix
    of the graph that ends in the [count]-th such node. *)
Definition truncated_after (count : Z) (nodes : list NodeProto) (m m' : t)
    : Prop :=
  ∃ pre node_proto post op,
    nodes = pre ++ node_proto :: post ∧
    op_type node_proto = "SkipLayerNormalization" ∧
    (create_operation node_proto (_tensor_map (create_all pre m))).1
      = Some op ∧
    created_skips (pre ++ [node_proto]) m = count ∧
    m' =
      (let created := create_all (pre ++ [node_proto]) m in
       with_operation_map (with_nr_skip created (nr_skip m + count))
         (StdMap.assign (get_id op) (clear_outputs op)
            (_operation_map created))).

(** Every operation is filed under its own id. *)
Definition filed (ops : list (Z * Operation)) : Prop :=
  Forall (λ e, get_id e.2 = e.1) ops.

(** The state of the operation map and the ready-queue that all methods of
    the model keep: the map is in key order with every operation under its
    id, and the queue points at operations of the map, each at most once. *)
Definition consistent (m : t) : Prop :=
  StdMap.ascending (_operation_map m) ∧ filed (_operation_map m) ∧
  Forall (λ p, is_Some (StdMap.find p (_operation_map m)))
    (_executable_layer m) ∧
  NoDup (_executable_layer m).

End Model.

(** The identifier of an operation never changes. *)
Class OperationLaws `{Collaborators} : Prop := {
  set_finish_id op ts : get_id (set_finish op ts).1 = get_id op;
  initialize_tiles_id mt op ts :
    get_id (initialize_tiles mt op ts).1 = get_id op;
  clear_outputs_id op : get_id (clear_outputs op) = get_id op
}.

(** The request time stored for [n] is exactly [n * 10^9]. *)
Definition whole_request_time_exact (n : Z) : bool :=
  bool_decide
    (request_time_of (Json.number_float (Json.double_of_Z n))
     = Some (n * 10 ^ 9)).

(** *** Collaborators for examples *)

(** A node of an example graph and the operation made of it: the tensors
    are their names, an operation is executable when it is not finished and
    its inputs are produced, and its children are reached through its
    outputs. *)
Record example_node := mk_example_node {
  node_id : Z;
  node_type : string;
  node_inputs : list string;
  node_outputs : list string;
  node_children : list Z;
  node_finished : bool
}.

Definition example_collaborators : Collaborators := {|
  Tensors := list string;
  Operation := example_node;
  TensorProto := string;
  NodeProto := example_node;
  MappingTable := unit;
  op_type := node_type;
  add_input_tensor := λ root name dims precision ts, ts ++ [name];
  add_initializer_tensor := λ root name precision ts, ts ++ [name];
  create_operation := λ node ts,
    (if String.eqb (node_type node) "Unknown" then None else Some node, ts);
  get_id := node_id;
  get_child_nodes := λ op ts,
    match node_outputs op with [] => [] | _ => node_children op end;
  check_executable := λ op ts,
    negb (node_finished op) &&
    forallb (λ i, bool_decide (i ∈ ts)) (node_inputs op);
  check_finish := node_finished;
  set_finish := λ op ts,
    (mk_example_node (node_id op) (node_type op) (node_inputs op)
       (node_outputs op) (node_children op) true,
     ts ++ node_outputs op);
  initialize_tiles := λ mt op ts, (op, ts);
  clear_outputs := λ op,
    mk_example_node (node_id op) (node_type op) (node_inputs op) []
      (node_children op) (node_finished op)
|}.

(** A graph [1 -> 2 -> 3] whose first two nodes are
    [SkipLayerNormalization] nodes, read from one 4-D input. *)
Definition example_proto : @ModelProto example_collaborators :=
  @mkModelProto example_collaborators
    [mkValueInfoProto "x"
       [mkDimension 1 ""; mkDimension 3 ""; mkDimension 0 "size";
        mkDimension 8 ""]]
    ["w"]
    [mk_example_node 1 "SkipLayerNormalization" ["x"; "w"] ["a"] [2] false;
     mk_example_node 2 "SkipLayerNormalization" ["a"] ["b"] [3] false;
     mk_example_node 3 "MatMul" ["b"] ["c"] [] false].

Definition example_config (nr_atten : Z) : gmap string Json.value :=
  {[ "request_time" := Json.number_float (Json.double_of_Z 1);
     "size" := Json.number_integer 8;
     "nr_atten" := Json.number_integer nr_atten ]}.

Definition example_model (nr_atten : Z) : option (@t example_collaborators) :=
  @Model example_collaborators (example_config nr_atten) 1 "example" tt 0 []
    0.

(** The example model with [nr_atten = -1], as constructed and as
    initialised. *)
Definition example_fresh_model : @t example_collaborators :=
  @mk example_collaborators "example" 0 1 (example_config (-1)) (10 ^ 9) None
    tt [] [] [] 0 false 0.

Definition example_initialized_model : @t example_collaborators :=
  Eval vm_compute in
    default example_fresh_model
      (initialize_model example_proto example_fresh_model).

End Model.

(** ** [src/Model.cc]: the accessors of [_tensor_map] *)
Module TensorMap.

(** What the accessors read of a [Tensor], a class declared outside src/:
    its member [_name] and its [get_id()]. *)
Class TensorView := {
  Tensor : Type;
  _name : Tensor → string;
  get_id : Tensor → Z
}.

Section TensorMap.
Context `{TensorView}.

(** [_tensor_map]: the [std::unique_ptr<Tensor>] of an entry owns a tensor
    or is null ([None]). *)
Definition t : Type := list (Z * option Tensor).

(** [get_tensor]: [_tensor_map[id].get()].  Indexing a [std::map] with a key
    it does not hold inserts an entry with a null pointer. *)
Definition get_tensor (id : Z) (m : t) : option Tensor * t :=
  match StdMap.find id m with
  | Some val => (val, m)
  | None => (None, StdMap.assign id None m)
  end.

(** [find_tensor]: the entries are visited in key order; the result is
    [Some None] for [nullptr], and [None] when the loop dereferences a null
    pointer. *)
Fixpoint find_tensor (name : string) (m : t) : option (option Tensor) :=
  match m with
  | [] => Some None
  | (key, None) :: _ => None
  | (key, Some val) :: rest =>
      if String.eqb (_name val) name then Some (Some val)
      else find_tensor name rest
  end.

(** [add_tensor]: a null [edge] is dereferenced for its id. *)
Definition add_tensor (edge : option Tensor) (m : t) : option t :=
  match edge with
  | None => None
  | Some tensor => Some (StdMap.assign (get_id tensor) edge m)
  end.

(** No entry up to the first tensor called [name] is null. *)
Definition named_first (name : string) (pre : t) : Prop :=
  Forall (λ entry, ∃ val, entry.2 = Some val ∧ _name val ≠ name) pre.

End TensorMap.

(** Tensors for examples: a tensor is its id and its name. *)
Definition example_view : TensorView :=
  {| Tensor := Z * string; _name := λ x, x.2; get_id := λ x, x.1 |}.

End TensorMap.

(** ** [src/Simulator.cc] *)
Module Simulator.
Import Common.

(** Modelled from the spec: the enumeration [Tile::Status] is declared in a
    header that is not under src/; section 3 lists its values. *)
Inductive Status := INITIALIZED | RUNNING | FINISH.

(** What the scheduler reads through the pointers [&_core_cycles] and
    [&_core_time] it was constructed with. *)
Definition clock : Type := Z * Z.

(** The collaborators of the driver: cores, scheduler, interconnect and
    memory are abstract classes declared outside src/.  They share the
    memory accesses they hand to each other through raw pointers, so their
    state is one store, [World]; every method is a function of that store.
    A method of the scheduler is also given the [clock] it reads through
    its pointers.  [Access] is [MemoryAccess*]. *)
Class Components := {
  World : Type;
  Model : Type;
  Tile : Type;
  Access : Type;
  (** [Model] *)
  get_request_time : Model → Z;
  set_request_time : Z → Model → Model;
  (** [None]: an exception leaves [initialize_model] *)
  initialize_model : Model → option Model;
  (** [Tile] *)
  status : Tile → Status;
  layer_id : Tile → Z;
  (** [MemoryAccess], through a pointer *)
  access_request : Access → World → bool;
  access_core_id : Access → World → Z;
  set_access_core_id : Access → Z → World → World;
  (** [Core], by index in [_cores] *)
  pop_finished_tile : nat → World → Tile * World;
  can_issue : nat → bool → World → bool;
  issue : nat → Tile → World → World;
  core_cycle : nat → World → World;
  core_running : nat → World → bool;
  has_memory_request : nat → World → bool;
  top_memory_request : nat → World → Access;
  pop_memory_request : nat → World → World;
  push_memory_response : nat → Access → World → World;
  (** [Scheduler] *)
  schedule_model : clock → Model → Z → World → World;
  finish_tile : clock → nat → Z → World → World;
  scheduler_empty : clock → World → bool;
  is_accum_tile : clock → nat → Z → World → bool;
  get_tile : clock → nat → World → Tile * World;
  (** [Interconnect] *)
  icnt_is_full : Z → Access → World → bool;
  icnt_push : Z → Z → Access → World → World;
  icnt_is_empty : Z → World → bool;
  icnt_top : Z → World → Access;
  icnt_pop : Z → World → World;
  icnt_cycle : World → World;
  icnt_running : World → bool;
  (** [Dram] *)
  dram_is_full : nat → Access → World → bool;
  dram_push : nat → Access → World → World;
  dram_is_empty : nat → World → bool;
  dram_top : nat → World → Access;
  dram_pop : nat → World → World;
  dram_cycle : World → World;
  dram_running : World → bool;
  get_channel_id : Access → World → Z
}.

(** The bits of [_cycle_mask]: the macros are defined in a header that is
    not under src/. *)
Class Masks := {
  CORE_MASK : Z;
  DRAM_MASK : Z;
  ICNT_MASK : Z
}.

(** Each mask is a bit of its own. *)
Class MasksDistinct `{Masks} : Prop := {
  core_mask_set : CORE_MASK ≠ 0;
  dram_mask_set : DRAM_MASK ≠ 0;
  icnt_mask_set : ICNT_MASK ≠ 0;
  core_dram_apart : Z.land CORE_MASK DRAM_MASK = 0;
  core_icnt_apart : Z.land CORE_MASK ICNT_MASK = 0;
  dram_icnt_apart : Z.land DRAM_MASK ICNT_MASK = 0
}.

(** [std::push_heap] and [std::pop_heap] over [_models] with the comparator
    [CompareModel]. *)
Class StdHeap `{Components} := {
  push_heap : list Model → list Model;
  pop_heap : list Model → list Model
}.

Section Simulator.
Context `{Components} `{!Masks} `{!StdHeap}.

(** Modelled from the spec: [CompareModel] is declared in a header that is
    not under src/; section 4.5 makes the arrival heap "a min-heap keyed by
    request_time", which for the max-heap algorithms of the standard library
    is the comparator "has the later request time". *)
Definition CompareModel (a b : Model) : bool :=
  get_request_time a >? get_request_time b.

(** [std::is_heap(first, last, CompareModel())]: no element compares before
    its parent, the parent of position [i] being position [(i - 1) / 2]. *)
Definition is_heap (l : list Model) : Prop :=
  ∀ (i : nat) parent child,
    (0 < i)%nat → l !! ((i - 1) / 2)%nat = Some parent → l !! i = Some child →
    CompareModel parent child = false.

(** What the C++ standard promises of the heap algorithms:
    [push_heap] makes a heap of a heap followed by one more element, and
    [pop_heap] moves the front to the back and makes a heap of the rest.
    [handle_model] moves the front model out before it calls [pop_heap], so
    nothing is asked of the element [pop_heap] leaves at the back. *)
Class StdHeapLaws : Prop := {
  push_heap_is_heap l x : is_heap l → is_heap (push_heap (l ++ [x]));
  push_heap_perm l x : is_heap l → push_heap (l ++ [x]) ≡ₚ l ++ [x];
  pop_heap_spec x l :
    is_heap (x :: l) →
    ∃ l' back, pop_heap (x :: l) = l' ++ [back] ∧ is_heap l' ∧ l' ≡ₚ l
}.

(** The members of [Simulator] that [Simulator.cc] uses. *)
Record t := mk {
  _core_period : Z;
  _icnt_period : Z;
  _dram_period : Z;
  _core_time : Z;
  _dram_time : Z;
  _icnt_time : Z;
  _core_cycles : Z;
  _cycle_mask : Z;
  _n_cores : nat;
  _n_memories : nat;
  _models : list Model;
  world : World
}.

Definition with_world (s : t) (w : World) : t :=
  mk (_core_period s) (_icnt_period s) (_dram_period s) (_core_time s)
     (_dram_time s) (_icnt_time s) (_core_cycles s) (_cycle_mask s)
     (_n_cores s) (_n_memories s) (_models s) w.

Definition with_models (s : t) (models : list Model) : t :=
  mk (_core_period s) (_icnt_period s) (_dram_period s) (_core_time s)
     (_dram_time s) (_icnt_time s) (_core_cycles s) (_cycle_mask s)
     (_n_cores s) (_n_memories s) models (world s).

Definition with_cycle_mask (s : t) (mask : Z) : t :=
  mk (_core_period s) (_icnt_period s) (_dram_period s) (_core_time s)
     (_dram_time s) (_icnt_time s) (_core_cycles s) mask
     (_n_cores s) (_n_memories s) (_models s) (world s).

Definition with_core_time (s : t) (time : Z) : t :=
  mk (_core_period s) (_icnt_period s) (_dram_period s) time
     (_dram_time s) (_icnt_time s) (_core_cycles s) (_cycle_mask s)
     (_n_cores s) (_n_memories s) (_models s) (world s).

Definition with_dram_time (s : t) (time : Z) : t :=
  mk (_core_period s) (_icnt_period s) (_dram_period s) (_core_time s)
     time (_icnt_time s) (_core_cycles s) (_cycle_mask s)
     (_n_cores s) (_n_memories s) (_models s) (world s).

Definition with_icnt_time (s : t) (time : Z) : t :=
  mk (_core_period s) (_icnt_period s) (_dram_period s) (_core_time s)
     (_dram_time s) time (_core_cycles s) (_cycle_mask s)
     (_n_cores s) (_n_memories s) (_models s) (world s).

Definition with_core_cycles (s : t) (cycles : Z) : t :=
  mk (_core_period s) (_icnt_period s) (_dram_period s) (_core_time s)
     (_dram_time s) (_icnt_time s) cycles (_cycle_mask s)
     (_n_cores s) (_n_memories s) (_models s) (world s).

(** The constructor, on a store [w] that holds the components it creates.
    The frequencies are in MHz, the periods in picoseconds; a zero frequency
    is a division by zero. *)
Definition Simulator (core_freq icnt_freq dram_freq : Z)
    (num_cores dram_channels : nat) (w : World) : option t :=
  if (core_freq =? 0) || (icnt_freq =? 0) || (dram_freq =? 0) then None
  else Some (mk (1000000 / core_freq) (1000000 / icnt_freq)
                (1000000 / dram_freq) 0 0 0 0 0 num_cores dram_channels [] w).

Definition the_clock (s : t) : clock := (_core_cycles s, _core_time s).

(** [register_model] *)
Definition register_model (model : Model) (s : t) : t :=
  with_models s (push_heap (_models s ++ [model])).

(** The loop of [handle_model].  [fuel] bounds the iterations: every one
    pops a model, so the length of [_models] is enough. *)
Fixpoint handle_model_loop (fuel : nat) (s : t) : option t :=
  match _models s with
  | [] => Some s
  | front :: _ =>
      if get_request_time front <=? _core_time s then
        match fuel with
        | O => None
        | S fuel' =>
            let models := removelast (pop_heap (_models s)) in
            match initialize_model front with
            | None => None
            | Some launch_model =>
                let launch_model :=
                  set_request_time (_core_time s) launch_model in
                handle_model_loop fuel'
                  (with_world (with_models s models)
                     (schedule_model (the_clock s) launch_model 1 (world s)))
            end
        end
      else Some s
  end.

Definition handle_model (s : t) : option t :=
  handle_model_loop (length (_models s)) s.

(** [running] *)
Definition running (s : t) : bool :=
  let running := false in
  let running := running || negb (bool_decide (_models s = [])) in
  let running :=
    fold_left (λ running core, running || core_running core (world s))
      (seq 0 (_n_cores s)) running in
  let running := running || icnt_running (world s) in
  let running := running || dram_running (world s) in
  running || negb (scheduler_empty (the_clock s) (world s)).

(** Everything the loop of [cycle] waits for is done. *)
Definition all_idle (s : t) : Prop :=
  _models s = [] ∧
  (∀ core, (core < _n_cores s)%nat → core_running core (world s) = false) ∧
  icnt_running (world s) = false ∧
  dram_running (world s) = false ∧
  scheduler_empty (the_clock s) (world s) = true.

(** What [handle_model] hands to the scheduler for the models [inits], in
    this order. *)
Definition schedule_all (s : t) (inits : list Model) : World :=
  fold_left
    (λ w launch_model,
       schedule_model (the_clock s)
         (set_request_time (_core_time s) launch_model) 1 w)
    inits (world s).

(** [set_cycle_mask] *)
Definition set_cycle_mask (s : t) : t :=
  let s := with_cycle_mask s 0 in
  let minimum_time := MIN3 (_core_time s) (_dram_time s) (_icnt_time s) in
  let s :=
    if _core_time s <=? minimum_time then
      with_core_time (with_cycle_mask s (Z.lor (_cycle_mask s) CORE_MASK))
        (wrap64 (_core_time s + _core_period s))
    else s in
  let s :=
    if _dram_time s <=? minimum_time then
      with_dram_time (with_cycle_mask s (Z.lor (_cycle_mask s) DRAM_MASK))
        (wrap64 (_dram_time s + _dram_period s))
    else s in
  if _icnt_time s <=? minimum_time then
    with_icnt_time (with_cycle_mask s (Z.lor (_cycle_mask s) ICNT_MASK))
      (wrap64 (_icnt_time s + _icnt_period s))
  else s.

(** [_cycle_mask & MASK], as a condition. *)
Definition ticks (mask : Z) (s : t) : bool :=
  negb (Z.land (_cycle_mask s) mask =? 0).

(** [get_dest_node] *)
Definition get_dest_node (num_cores : nat) (access : Access) (w : World) : Z :=
  if access_request access w
  then wrap32 (Z.of_nat num_cores + get_channel_id access w)
  else wrap32 (access_core_id access w).

(** The body of the loop over the cores in the core cycle. *)
Definition core_step (clk : clock) (w : World) (core_id : nat) : World :=
  let (finished_tile, w) := pop_finished_tile core_id w in
  let w :=
    match status finished_tile with
    | FINISH => finish_tile clk core_id (layer_id finished_tile) w
    | _ => w
    end in
  let w :=
    if negb (scheduler_empty clk w) then
      let is_accum := is_accum_tile clk core_id 0 w in
      if can_issue core_id is_accum w then
        let (tile, w) := get_tile clk core_id w in
        match status tile with
        | INITIALIZED => issue core_id tile w
        | _ => w
        end
      else w
    else w in
  core_cycle core_id w.

(** The core cycle. *)
Definition core_phase (s : t) : option t :=
  match handle_model s with
  | None => None
  | Some s =>
      let w := fold_left (core_step (the_clock s)) (seq 0 (_n_cores s))
                 (world s) in
      Some (with_core_cycles (with_world s w) (wrap64 (_core_cycles s + 1)))
  end.

(** The body of the first loop of the interconnect cycle. *)
Definition icnt_core_step (num_cores : nat) (w : World) (core_id : nat)
    : World :=
  let w :=
    if has_memory_request core_id w then
      let front := top_memory_request core_id w in
      let w := set_access_core_id front (Z.of_nat core_id) w in
      if negb (icnt_is_full (Z.of_nat core_id) front w) then
        let w :=
          icnt_push (Z.of_nat core_id) (get_dest_node num_cores front w)
            front w in
        pop_memory_request core_id w
      else w
    else w in
  if negb (icnt_is_empty (Z.of_nat core_id) w) then
    let w :=
      push_memory_response core_id (icnt_top (Z.of_nat core_id) w) w in
    icnt_pop (Z.of_nat core_id) w
  else w.

(** The body of the second loop of the interconnect cycle. *)
Definition icnt_mem_step (num_cores : nat) (w : World) (mem_id : nat)
    : World :=
  let node := Z.of_nat num_cores + Z.of_nat mem_id in
  let w :=
    if negb (icnt_is_empty node w)
       && negb (dram_is_full mem_id (icnt_top node w) w) then
      let w := dram_push mem_id (icnt_top node w) w in
      icnt_pop node w
    else w in
  if negb (dram_is_empty mem_id w)
     && negb (icnt_is_full node (dram_top mem_id w) w) then
    let w :=
      icnt_push node (get_dest_node num_cores (dram_top mem_id w) w)
        (dram_top mem_id w) w in
    dram_pop mem_id w
  else w.

(** The interconnect cycle. *)
Definition icnt_phase (s : t) : t :=
  let w := fold_left (icnt_core_step (_n_cores s)) (seq 0 (_n_cores s))
             (world s) in
  let w := fold_left (icnt_mem_step (_n_cores s)) (seq 0 (_n_memories s)) w in
  with_world s (icnt_cycle w).

(** The DRAM cycle. *)
Definition dram_phase (s : t) : t := with_world s (dram_cycle (world s)).

(** The body of the [while] loop of [cycle]: one step of the simulator. *)
Definition cycle_step (s : t) : option t :=
  let s := set_cycle_mask s in
  match (if ticks CORE_MASK s then core_phase s else Some s) with
  | None => None
  | Some s =>
      let s := if ticks DRAM_MASK s then dram_phase s else s in
      Some (if ticks ICNT_MASK s then icnt_phase s else s)
  end.

(** [cycle]: the loop runs while [running()] holds.  [None] when [steps]
    iterations were not enough, or an exception left the loop. *)
Fixpoint cycle (steps : nat) (s : t) : option t :=
  if running s then
    match steps with
    | O => None
    | S steps' =>
        match cycle_step s with
        | Some s' => cycle steps' s'
        | None => None
        end
    end
  else Some s.

End Simulator.
End Simulator.

(** ** The loop of [Simulator::cycle], iteration by iteration *)
Module Loop.
Import Common Simulator.

Section Loop.
Context `{Components} `{!Masks} `{!StdHeap}.

(** The simulator after [n] iterations of the [while] loop of [cycle];
    [None] when the loop has ended before, or an exception has left it. *)
Fixpoint iterations (n : nat) (s : t) : option t :=
  match n with
  | O => Some s
  | S n' =>
      if running s then
        match cycle_step s with
        | Some s' => iterations n' s'
        | None => None
        end
      else None
  end.

(** The simulator [main] runs: constructed, then the models registered in
    the order of the list. *)
Definition registered (models : list Model) (s : t) : t :=
  fold_left (λ s model, register_model model s) models s.

(** [minimum_time] of [set_cycle_mask]: the simulated time, the least of
    the three accumulated times. *)
Definition minimum_time (s : t) : Z :=
  MIN3 (_core_time s) (_dram_time s) (_icnt_time s).

End Loop.
End Loop.

(** ** Observing the driver: components that record their calls *)
Module Trace.
Import Common Simulator.

(** A call that changes a component. *)
Inductive event :=
| ev_schedule_model (model : Z * bool) (priority : Z)
| ev_pop_finished_tile (core : nat)
| ev_finish_tile (core : nat) (layer : Z)
| ev_get_tile (core : nat)
| ev_issue (core : nat)
| ev_core_cycle (core : nat)
| ev_dram_cycle
| ev_set_access_core_id (access : Z) (core : Z)
| ev_icnt_push (src dest : Z) (access : Z)
| ev_pop_memory_request (core : nat)
| ev_push_memory_response (core : nat) (access : Z)
| ev_icnt_pop (node : Z)
| ev_dram_push (mem : nat) (access : Z)
| ev_dram_pop (mem : nat)
| ev_icnt_cycle.

(** A call that asks a component something. *)
Inductive query :=
| q_access_request (access : Z)
| q_access_core_id (access : Z)
| q_finished_status (core : nat)
| q_finished_layer (core : nat)
| q_can_issue (core : nat) (is_accum : bool)
| q_core_running (core : nat)
| q_has_memory_request (core : nat)
| q_top_memory_request (core : nat)
| q_scheduler_empty (clk : clock)
| q_is_accum_tile (clk : clock) (core : nat) (ahead : Z)
| q_tile_status (clk : clock) (core : nat)
| q_tile_layer (clk : clock) (core : nat)
| q_icnt_is_full (node : Z) (access : Z)
| q_icnt_is_empty (node : Z)
| q_icnt_top (node : Z)
| q_icnt_running
| q_dram_is_full (mem : nat) (access : Z)
| q_dram_is_empty (mem : nat)
| q_dram_top (mem : nat)
| q_dram_running
| q_channel_id (access : Z).

(** The components' behaviour: what a query answers after the calls made so
    far.  Any deterministic cores, scheduler, interconnect and memory behave
    as some [oracle]. *)
Definition oracle : Type := list event → query → Z.

Definition truth (z : Z) : bool := negb (z =? 0).

Definition status_of (z : Z) : Status :=
  if z =? 0 then INITIALIZED else if z =? 1 then RUNNING else FINISH.

(** Components whose store is the list of the calls made so far, oldest
    first.  A model is its request time and whether it is initialised; a
    tile is its status and layer. *)
Definition recording (o : oracle) : Components := {|
  World := list event;
  Model := Z * bool;
  Tile := Status * Z;
  Access := Z;
  get_request_time := λ m, m.1;
  set_request_time := λ time m, (time, m.2);
  initialize_model := λ m, Some (m.1, true);
  status := λ tile, tile.1;
  layer_id := λ tile, tile.2;
  access_request := λ a w, truth (o w (q_access_request a));
  access_core_id := λ a w, o w (q_access_core_id a);
  set_access_core_id := λ a core w, w ++ [ev_set_access_core_id a core];
  pop_finished_tile := λ core w,
    ((status_of (o w (q_finished_status core)), o w (q_finished_layer core)),
     w ++ [ev_pop_finished_tile core]);
  can_issue := λ core is_accum w, truth (o w (q_can_issue core is_accum));
  issue := λ core tile w, w ++ [ev_issue core];
  core_cycle := λ core w, w ++ [ev_core_cycle core];
  core_running := λ core w, truth (o w (q_core_running core));
  has_memory_request := λ core w, truth (o w (q_has_memory_request core));
  top_memory_request := λ core w, o w (q_top_memory_request core);
  pop_memory_request := λ core w, w ++ [ev_pop_memory_request core];
  push_memory_response := λ core a w, w ++ [ev_push_memory_response core a];
  schedule_model := λ clk m priority w, w ++ [ev_schedule_model m priority];
  finish_tile := λ clk core layer w, w ++ [ev_finish_tile core layer];
  scheduler_empty := λ clk w, truth (o w (q_scheduler_empty clk));
  is_accum_tile := λ clk core ahead w,
    truth (o w (q_is_accum_tile clk core ahead));
  get_tile := λ clk core w,
    ((status_of (o w (q_tile_status clk core)), o w (q_tile_layer clk core)),
     w ++ [ev_get_tile core]);
  icnt_is_full := λ node a w, truth (o w (q_icnt_is_full node a));
  icnt_push := λ src dest a w, w ++ [ev_icnt_push src dest a];
  icnt_is_empty := λ node w, truth (o w (q_icnt_is_empty node));
  icnt_top := λ node w, o w (q_icnt_top node);
  icnt_pop := λ node w, w ++ [ev_icnt_pop node];
  icnt_cycle := λ w, w ++ [ev_icnt_cycle];
  icnt_running := λ w, truth (o w q_icnt_running);
  dram_is_full := λ mem a w, truth (o w (q_dram_is_full mem a));
  dram_push := λ mem a w, w ++ [ev_dram_push mem a];
  dram_is_empty := λ mem w, truth (o w (q_dram_is_empty mem));
  dram_top := λ mem w, o w (q_dram_top mem);
  dram_pop := λ mem w, w ++ [ev_dram_pop mem];
  dram_cycle := λ w, w ++ [ev_dram_cycle];
  dram_running := λ w, truth (o w q_dram_running);
  get_channel_id := λ a w, o w (q_channel_id a)
|}.

(** Where a call stands in one step of the driver: its stage, the core or
    memory channel it serves, and its place in the work for that core or
    channel.  The stages are: 0 model arrivals; 1 the cores (finished-tile
    collection, then tile issue, then the core's tick); 3 forwarding between
    cores and interconnect (request, then response); 4 forwarding between
    interconnect and memory channels; 5 the interconnect's tick.  The tick
    of the memory is at stage [dram_stage]. *)
Definition rank (dram_stage : nat) (n_cores : nat) (e : event)
    : nat * nat * nat :=
  match e with
  | ev_schedule_model _ _ => (0, 0, 0)
  | ev_pop_finished_tile core => (1, core, 0)
  | ev_finish_tile core _ => (1, core, 0)
  | ev_get_tile core => (1, core, 1)
  | ev_issue core => (1, core, 1)
  | ev_core_cycle core => (1, core, 2)
  | ev_dram_cycle => (dram_stage, 0, 0)
  | ev_set_access_core_id _ core => (3, Z.to_nat core, 0)
  | ev_pop_memory_request core => (3, core, 0)
  | ev_push_memory_response core _ => (3, core, 1)
  | ev_icnt_push src _ _ =>
      if (src <? Z.of_nat n_cores)%Z then (3, Z.to_nat src, 0)
      else (4, Z.to_nat src - n_cores, 1)
  | ev_icnt_pop node =>
      if (node <? Z.of_nat n_cores)%Z then (3, Z.to_nat node, 1)
      else (4, Z.to_nat node - n_cores, 0)
  | ev_dram_push mem _ => (4, mem, 0)
  | ev_dram_pop mem => (4, mem, 1)
  | ev_icnt_cycle => (5, 0, 0)
  end%nat.

(** The order of the ranks: by stage, then by core or channel, then by
    place. *)
Definition rank_le (r1 r2 : nat * nat * nat) : Prop :=
  (r1.1.1 < r2.1.1 ∨
   (r1.1.1 = r2.1.1 ∧
    (r1.1.2 < r2.1.2 ∨ (r1.1.2 = r2.1.2 ∧ r1.2 ≤ r2.2))))%nat.

(** The calls of a trace are made in the order of their ranks. *)
Definition in_order (dram_stage n_cores : nat) (l : list event) : Prop :=
  StronglySorted
    (λ e1 e2, rank_le (rank dram_stage n_cores e1) (rank dram_stage n_cores e2))
    l.

(** All calls of [l] are at stage [p], for the core or channel [u]. *)
Definition serves (d n p u : nat) (l : list event) : Prop :=
  Forall (λ e, ∃ sub, rank d n e = (p, u, sub)) l.

Definition at_stage (d n p : nat) (l : list event) : Prop :=
  Forall (λ e, (rank d n e).1.1 = p) l.

Definition below (d n p : nat) (l : list event) : Prop :=
  Forall (λ e, ((rank d n e).1.1 ≤ p)%nat) l.

(** The calls made since [w0] are in order, none beyond stage [p], and the
    calls [req] are among them. *)
Definition progress (d n : nat) (w0 : list event) (p : nat)
    (req : list event) (w : list event) : Prop :=
  ∃ l, w = w0 ++ l ∧ in_order d n l ∧ below d n p l ∧ req ⊆ l.

(** The order in which [cycle] makes its calls: the memory ticks after the
    cores and before any forwarding. *)
Definition code_order : nat → list event → Prop := in_order 2.

(** The order of section 5 of the specification: the memory ticks last. *)
Definition spec_order : nat → list event → Prop := in_order 6.

(** The order of the request times. *)
Definition by_request_time `{Components} (a b : Model) : Prop :=
  get_request_time a ≤ get_request_time b.

(** A conforming heap: the models are kept in ascending order of request
    time. *)
Fixpoint insert_by_request_time `{Components} (x : Model) (l : list Model)
    : list Model :=
  match l with
  | [] => [x]
  | y :: rest =>
      if get_request_time x <=? get_request_time y then x :: l
      else y :: insert_by_request_time x rest
  end.

Definition sort_by_request_time `{Components} (l : list Model) : list Model :=
  foldr insert_by_request_time [] l.

Definition sorting_heap `{Components} : StdHeap := {|
  push_heap := sort_by_request_time;
  pop_heap := λ l,
    match l with
    | [] => []
    | front :: rest => sort_by_request_time rest ++ [front]
    end
|}.

Definition example_masks : Masks :=
  {| CORE_MASK := 2; DRAM_MASK := 4; ICNT_MASK := 8 |}.

(** Components for examples: every query answers [0], except that the
    scheduler is empty. *)
Definition example_oracle : oracle :=
  λ w q, match q with q_scheduler_empty _ => 1 | _ => 0 end.

(** A simulator before its first step: one core, one memory channel, the
    core at 1000 MHz and interconnect and memory at 500 MHz, and two models
    registered, due at 500 ps and at 3000 ps. *)
Definition example_simulator
    : @Simulator.t (recording example_oracle) :=
  @Simulator.mk (recording example_oracle) 1000 2000 2000 0 0 0 0 0 1 1
    [(500, false); (3000, false)] [].

(** A short list of calls is in order; all its calls serve one core. *)
Ltac trace_in_order :=
  unfold in_order;
  repeat first [apply SSorted_nil | apply SSorted_cons
               | apply Forall_nil_2 | apply Forall_cons_2];
  unfold rank_le; simpl; lia.

Ltac trace_member :=
  let e := fresh "e" in
  let He := fresh "He" in
  intros e He;
  first [ by apply elem_of_nil in He
        | apply list_elem_of_singleton in He; subst e;
          repeat first [apply list_elem_of_here | apply list_elem_of_further] ].

Ltac trace_serves :=
  repeat first [apply Forall_nil_2 | apply Forall_cons_2; [by eexists|]].

(** The example at its first core tick: [set_cycle_mask] has run. *)
Definition example_first_tick : @Simulator.t (recording example_oracle) :=
  @set_cycle_mask _ example_masks example_simulator.

End Trace.

(** ** The ticks among the calls of the driver *)
Module Ticks.
Import Common Simulator Trace.

#[global] Instance event_eq_dec : EqDecision event.
Proof. solve_decision. Defined.

(** The calls that tick a component: [cycle()] of a core, of the memory and
    of the interconnect. *)
Definition is_tick (e : event) : bool :=
  match e with
  | ev_core_cycle _ | ev_dram_cycle | ev_icnt_cycle => true
  | _ => false
  end.

Definition ticks_in (l : list event) : list event := List.filter is_tick l.

(** How often the call [e] was made in [l]. *)
Definition calls_of (e : event) (l : list event) : nat :=
  length (List.filter (λ e', bool_decide (e' = e)) l).

(** The calls that hand a model to the scheduler. *)
Definition is_launch (e : event) : bool :=
  match e with
  | ev_schedule_model _ _ => true
  | _ => false
  end.

Definition launches_in (l : list event) : list event :=
  List.filter is_launch l.

(** The calls made on the scheduler and on the compute side of a core, and
    the calls made on the memory ports of the cores, the interconnect and
    the memory. *)
Definition on_compute_side (e : event) : bool :=
  match e with
  | ev_schedule_model _ _ | ev_pop_finished_tile _ | ev_finish_tile _ _
  | ev_get_tile _ | ev_issue _ | ev_core_cycle _ => true
  | _ => false
  end.

Definition on_memory_side (e : event) : bool :=
  match e with
  | ev_set_access_core_id _ _ | ev_icnt_push _ _ _ | ev_pop_memory_request _
  | ev_push_memory_response _ _ | ev_icnt_pop _ | ev_dram_push _ _
  | ev_dram_pop _ | ev_icnt_cycle => true
  | _ => false
  end.

End Ticks.

(* ================================================================== *)
(** * Part II. Properties                                              *)
(* ================================================================== *)

(** ** The simple DRAM model *)
Module SimpleDramProofs.
Import Common SimpleDram.

Lemma cycle_channel_cycles d ch : _cycles (cycle_channel d ch) = _cycles d.
Proof.
  unfold cycle_channel.
  destruct (_waiting_queue d !! ch) as [[|[f a] rest]|]; try done.
  by destruct (f <=? _cycles d).
Qed.

Lemma cycle_channel_last_finish d ch :
  _last_finish_cycle (cycle_channel d ch) = _last_finish_cycle d.
Proof.
  unfold cycle_channel.
  destruct (_waiting_queue d !! ch) as [[|[f a] rest]|]; try done.
  by destruct (f <=? _cycles d).
Qed.

Lemma cycle_channel_other d a ch :
  ch ≠ a → chan ch (cycle_channel d a) = chan ch d.
Proof.
  intros Hne. unfold cycle_channel, chan.
  destruct (_waiting_queue d !! a) as [[|[f x] rest]|]; try done.
  destruct (f <=? _cycles d); try done. simpl.
  rewrite list_lookup_insert_ne by done.
  by rewrite list_lookup_alter_ne by done.
Qed.

Lemma cycle_channel_same d ch :
  chan ch (cycle_channel d ch) = chan_step (_cycles d) (chan ch d).
Proof.
  unfold cycle_channel, chan, chan_step. simpl.
  destruct (_waiting_queue d !! ch) as [[|[f x] rest]|] eqn:E;
    [by rewrite E| |by rewrite E].
  destruct (f <=? _cycles d); simpl; [|by rewrite E].
  rewrite list_lookup_insert_eq by (by eapply lookup_lt_Some).
  by rewrite list_lookup_alter_eq.
Qed.

Lemma fold_cycle_channel_cycles l d :
  _cycles (fold_left cycle_channel l d) = _cycles d.
Proof.
  revert d. induction l as [|a l IH]; intros d; simpl; [done|].
  by rewrite IH, cycle_channel_cycles.
Qed.

Lemma fold_cycle_channel_last_finish l d :
  _last_finish_cycle (fold_left cycle_channel l d) = _last_finish_cycle d.
Proof.
  revert d. induction l as [|a l IH]; intros d; simpl; [done|].
  by rewrite IH, cycle_channel_last_finish.
Qed.

(** The loop of [cycle] visits every channel once, and a visit touches the
    visited channel only. *)
Lemma fold_cycle_channel_chan l d ch :
  NoDup l →
  chan ch (fold_left cycle_channel l d) =
    if decide (ch ∈ l) then chan_step (_cycles d) (chan ch d) else chan ch d.
Proof.
  intros Hnd. revert d.
  induction Hnd as [|a l Hnotin Hnd IH]; intros d; cbn [fold_left].
  - by rewrite decide_False by set_solver.
  - rewrite IH, cycle_channel_cycles.
    destruct (decide (ch = a)) as [->|Hne].
    + rewrite decide_False by done. rewrite decide_True by set_solver.
      apply cycle_channel_same.
    + rewrite cycle_channel_other by done.
      destruct (decide (ch ∈ l)).
      * by rewrite decide_True by (apply elem_of_cons; by right).
      * by rewrite decide_False by (by apply not_elem_of_cons).
Qed.

Lemma cycle_chan d ch :
  chan ch (cycle d) =
    if decide (ch < _n_ch d)%nat then chan_step (_cycles d) (chan ch d)
    else chan ch d.
Proof.
  unfold cycle. change (chan ch (mk ?a ?b ?c ?e ?f ?w ?r)) with (w !! ch, r !! ch).
  change (_waiting_queue ?x !! ch, _response_queue ?x !! ch) with (chan ch x).
  rewrite fold_cycle_channel_chan by apply NoDup_seq.
  destruct (decide (ch < _n_ch d)%nat).
  - rewrite decide_True; [done|]. apply elem_of_seq. lia.
  - rewrite decide_False; [done|]. rewrite elem_of_seq. lia.
Qed.

Lemma cycle_cycles d : _cycles (cycle d) = wrap64 (_cycles d + 1).
Proof. unfold cycle. simpl. by rewrite fold_cycle_channel_cycles. Qed.

Lemma cycle_last_finish d : _last_finish_cycle (cycle d) = _last_finish_cycle d.
Proof. unfold cycle. simpl. by rewrite fold_cycle_channel_last_finish. Qed.

Lemma waiting_chan ch d : waiting ch d = default [] (chan ch d).1.
Proof. done. Qed.

Lemma responses_chan ch d : responses ch d = default [] (chan ch d).2.
Proof. done. Qed.

Lemma MAX_ge_l x y : x ≤ MAX x y.
Proof. unfold MAX. destruct (Z.gtb_spec x y); lia. Qed.

Lemma MAX_ge_r x y : y ≤ MAX x y.
Proof. unfold MAX. destruct (Z.gtb_spec x y); lia. Qed.

Lemma wrap64_small z : 0 ≤ z < 2 ^ 64 → wrap64 z = z.
Proof. intros. unfold wrap64. by apply Z.mod_small. Qed.

(** A tick leaves a channel alone, or moves the due front of its waiting
    queue to the back of its response queue. *)
Lemma cycle_cases d ch :
  (_waiting_queue (cycle d) !! ch = _waiting_queue d !! ch ∧
   _response_queue (cycle d) !! ch = _response_queue d !! ch) ∨
  (∃ f a rest,
     _waiting_queue d !! ch = Some ((f, a) :: rest) ∧ f ≤ _cycles d ∧
     _waiting_queue (cycle d) !! ch = Some rest ∧
     _response_queue (cycle d) !! ch =
       (λ q, q ++ [a]) <$> _response_queue d !! ch).
Proof.
  pose proof (cycle_chan d ch) as H. unfold chan at 1 in H.
  destruct (decide (ch < _n_ch d)%nat); [|left; by inversion H].
  unfold chan_step, chan in H. simpl in H.
  destruct (_waiting_queue d !! ch) as [[|[f a] rest]|] eqn:E;
    [left; by inversion H| |left; by inversion H].
  destruct (Z.leb_spec f (_cycles d)); [|left; by inversion H].
  right. exists f, a, rest. by inversion H.
Qed.

Lemma cycle_channel_lengths d ch :
  length (_waiting_queue (cycle_channel d ch)) = length (_waiting_queue d) ∧
  length (_response_queue (cycle_channel d ch)) = length (_response_queue d).
Proof.
  unfold cycle_channel.
  destruct (_waiting_queue d !! ch) as [[|[f a] rest]|]; [done| |done].
  destruct (f <=? _cycles d); [|done]. simpl.
  by rewrite length_insert, length_alter.
Qed.

Lemma cycle_wf d : wf d → wf (cycle d).
Proof.
  unfold wf, cycle. simpl. generalize (seq 0 (_n_ch d)). intros l. revert d.
  induction l as [|a l IH]; intros d Hd; simpl; [done|].
  apply IH. destruct (cycle_channel_lengths d a) as [-> ->]. done.
Qed.

Lemma push_wf cid request d d1 : push cid request d = Some d1 → wf d → wf d1.
Proof.
  unfold push, wf. destruct (_waiting_queue d !! cid); [|done].
  intros [= <-]. simpl. by rewrite length_insert.
Qed.

Lemma pop_wf cid d d1 : pop cid d = Some d1 → wf d → wf d1.
Proof.
  unfold pop, wf. destruct (_response_queue d !! cid) as [[|a rest]|]; try done.
  intros [= <-]. simpl. by rewrite length_insert.
Qed.

(** An entry that is not yet due keeps waiting: while the ticks that follow
    stay below its completion cycle, it is still in the waiting queue, no
    further from the front than it was. *)
Lemma stays_waiting ops :
  ∀ d taken d2 taken2 ch q k e B,
    run ops d taken = Some (d2, taken2) →
    _waiting_queue d !! ch = Some q → q !! k = Some e →
    0 ≤ _cycles d → _cycles d + ticks ops ≤ B → B < 2 ^ 64 → B ≤ e.1 →
    _cycles d2 = _cycles d + ticks ops ∧
    ∃ k', (k' ≤ k)%nat ∧ waiting ch d2 !! k' = Some e.
Proof.
  induction ops as [|o ops IH];
    intros d taken d2 taken2 ch q k e B Hrun Hq Hk Hc Hle Hlt HB.
  - simpl in Hrun. injection Hrun as <- <-. simpl. split; [lia|].
    exists k. split; [done|]. unfold waiting. by rewrite Hq.
  - assert (Hticks : 0 ≤ ticks ops).
    { clear. induction ops as [|[]]; simpl; lia. }
    destruct o as [cid request| |cid]; simpl in Hrun, Hle; cbn [ticks].
    + destruct (push cid request d) as [d1|] eqn:Hpush; [|done].
      unfold push in Hpush.
      destruct (_waiting_queue d !! cid) as [q'|] eqn:Hq'; [|done].
      injection Hpush as <-.
      destruct (decide (cid = ch)) as [->|Hne].
      * rewrite Hq in Hq'. injection Hq' as <-.
        refine (IH _ _ _ _ ch _ k e B Hrun _ _ Hc Hle Hlt HB).
        -- simpl. apply list_lookup_insert_eq. by eapply lookup_lt_Some.
        -- by apply lookup_app_l_Some.
      * refine (IH _ _ _ _ ch q k e B Hrun _ Hk Hc Hle Hlt HB).
        simpl. by rewrite list_lookup_insert_ne.
    + assert (Hc1 : _cycles (cycle d) = _cycles d + 1).
      { rewrite cycle_cycles. apply wrap64_small. lia. }
      destruct (cycle_cases d ch) as [[Hw _]|(f & a & rest & Hw & Hf & Hw' & _)].
      * rewrite <- Hw in Hq.
        destruct (IH _ _ _ _ ch q k e B Hrun Hq Hk) as [E1 E2]; try lia.
        split; [lia|done].
      * rewrite Hq in Hw. injection Hw as ->.
        destruct k as [|k].
        { simpl in Hk. injection Hk as <-. simpl in HB. lia. }
        simpl in Hk.
        destruct (IH _ _ _ _ ch rest k e B Hrun Hw' Hk)
          as [E1 (k' & E2 & E3)]; try lia.
        split; [lia|]. exists k'. split; [lia|done].
    + destruct (top cid d) as [a|]; [|done].
      destruct (pop cid d) as [d1|] eqn:Hpop; [|done].
      unfold pop in Hpop.
      destruct (_response_queue d !! cid) as [[|x rest]|]; try done.
      injection Hpop as <-.
      exact (IH _ _ _ _ ch q k e B Hrun Hq Hk Hc Hle Hlt HB).
Qed.

Lemma taken_from_cons ch cid (a : MemoryAccess) taken :
  taken_from ch ((cid, a) :: taken) =
    if decide (cid = ch) then a :: taken_from ch taken
    else taken_from ch taken.
Proof. unfold taken_from. simpl. by destruct (decide (cid = ch)). Qed.

(** A channel without a response queue never shows a response. *)
Lemma no_queue_no_response ops :
  ∀ d taken d2 taken2 ch,
    run ops d taken = Some (d2, taken2) →
    _response_queue d !! ch = None →
    _response_queue d2 !! ch = None ∧
    ∃ new, taken2 = taken ++ new ∧ taken_from ch new = [].
Proof.
  induction ops as [|o ops IH]; intros d taken d2 taken2 ch Hrun Hr.
  - simpl in Hrun. injection Hrun as <- <-. split; [done|].
    exists []. by rewrite app_nil_r.
  - destruct o as [cid request| |cid]; simpl in Hrun.
    + destruct (push cid request d) as [d1|] eqn:Hpush; [|done].
      unfold push in Hpush.
      destruct (_waiting_queue d !! cid) as [q'|]; [|done].
      injection Hpush as <-. by apply (IH _ _ _ _ ch Hrun).
    + apply (IH _ _ _ _ ch Hrun).
      destruct (cycle_cases d ch) as [[_ ->]|(f & a & rest & _ & _ & _ & ->)];
        [done|by rewrite Hr].
    + destruct (top cid d) as [a|] eqn:Htop; [|done].
      destruct (pop cid d) as [d1|] eqn:Hpop; [|done].
      unfold pop in Hpop. unfold top in Htop.
      destruct (_response_queue d !! cid) as [[|x rest]|] eqn:Hc; try done.
      injection Hpop as <-. injection Htop as <-.
      assert (Hne : cid ≠ ch) by (intros ->; by rewrite Hr in Hc).
      destruct (IH _ _ _ _ ch Hrun) as (Hr2 & new & -> & Hnew).
      { simpl. by rewrite list_lookup_insert_ne. }
      split; [done|]. exists ((cid, x) :: new).
      split; [by rewrite <- app_assoc|].
      by rewrite taken_from_cons, decide_False.
Qed.

(** While an entry of a waiting queue is not yet due, what its channel has
    shown (the responses taken since, and those in the response queue) is
    made of the responses the channel held and of waiting entries in front
    of that entry, in their order. *)
Lemma not_yet_visible ops :
  ∀ d taken d2 taken2 ch q k e B,
    run ops d taken = Some (d2, taken2) →
    _waiting_queue d !! ch = Some q → q !! k = Some e →
    0 ≤ _cycles d → _cycles d + ticks ops ≤ B → B < 2 ^ 64 → B ≤ e.1 →
    ∃ new j,
      taken2 = taken ++ new ∧ (j ≤ k)%nat ∧
      taken_from ch new ++ responses ch d2 = responses ch d ++ take j q.*2.
Proof.
  induction ops as [|o ops IH];
    intros d taken d2 taken2 ch q k e B Hrun Hq Hk Hc Hle Hlt HB.
  - simpl in Hrun. injection Hrun as <- <-. exists [], 0%nat.
    split; [by rewrite app_nil_r|]. split; [lia|].
    simpl. by rewrite app_nil_r.
  - assert (Hticks : 0 ≤ ticks ops).
    { clear. induction ops as [|[]]; simpl; lia. }
    destruct o as [cid request| |cid]; simpl in Hrun, Hle; cbn [ticks].
    + destruct (push cid request d) as [d1|] eqn:Hpush; [|done].
      unfold push in Hpush.
      destruct (_waiting_queue d !! cid) as [q'|] eqn:Hq'; [|done].
      injection Hpush as <-.
      destruct (decide (cid = ch)) as [->|Hne].
      * rewrite Hq in Hq'. injection Hq' as <-.
        destruct (IH _ _ _ _ ch
                    (q ++ [(MAX (wrap64 (_cycles d + _latency d))
                              (_last_finish_cycle d), set_response request)])
                    k e B Hrun)
          as (new & j & E1 & E2 & E3);
          [| |exact Hc|exact Hle|exact Hlt|exact HB|].
        -- simpl. apply list_lookup_insert_eq. by eapply lookup_lt_Some.
        -- by apply lookup_app_l_Some.
        -- exists new, j. split; [done|]. split; [done|].
           rewrite E3. unfold responses. simpl. f_equal.
           rewrite fmap_app, take_app_le; [done|].
           rewrite length_fmap. apply lookup_lt_Some in Hk. lia.
      * destruct (IH _ _ _ _ ch q k e B Hrun) as (new & j & E1 & E2 & E3);
          [|exact Hk|exact Hc|exact Hle|exact Hlt|exact HB|].
        -- simpl. by rewrite list_lookup_insert_ne.
        -- exists new, j. done.
    + assert (Hc1 : _cycles (cycle d) = _cycles d + 1).
      { rewrite cycle_cycles. apply wrap64_small. lia. }
      destruct (cycle_cases d ch)
        as [[Hw Hr]|(f & a & rest & Hw & Hf & Hw' & Hr)].
      * rewrite <- Hw in Hq.
        destruct (IH _ _ _ _ ch q k e B Hrun Hq Hk)
          as (new & j & E1 & E2 & E3); try lia.
        exists new, j. split; [done|]. split; [done|].
        rewrite E3. unfold responses. by rewrite Hr.
      * rewrite Hq in Hw. injection Hw as ->.
        destruct k as [|k].
        { simpl in Hk. injection Hk as <-. simpl in HB. lia. }
        simpl in Hk.
        destruct (_response_queue d !! ch) as [r|] eqn:Hrd.
        -- destruct (IH _ _ _ _ ch rest k e B Hrun Hw' Hk)
             as (new & j & E1 & E2 & E3); try lia.
           exists new, (S j). split; [done|]. split; [lia|].
           rewrite E3. unfold responses. rewrite Hr, Hrd. simpl.
           by rewrite <- app_assoc.
        -- destruct (no_queue_no_response ops _ _ _ _ ch Hrun)
             as (Hr2 & new & E1 & E2); [by rewrite Hr|].
           exists new, 0%nat. split; [done|]. split; [lia|].
           unfold responses. by rewrite E2, Hr2, Hrd.
    + destruct (top cid d) as [a|] eqn:Htop; [|done].
      destruct (pop cid d) as [d1|] eqn:Hpop; [|done].
      unfold pop in Hpop. unfold top in Htop.
      destruct (_response_queue d !! cid) as [[|x rest]|] eqn:Hrd; try done.
      injection Hpop as <-. injection Htop as <-.
      destruct (IH _ _ _ _ ch q k e B Hrun Hq Hk Hc Hle Hlt HB)
        as (new & j & E1 & E2 & E3).
      exists ((cid, x) :: new), j.
      split; [by rewrite E1, <- app_assoc|]. split; [done|].
      rewrite taken_from_cons.
      destruct (decide (cid = ch)) as [->|Hne].
      * simpl. rewrite E3. unfold responses. simpl.
        rewrite Hrd. simpl. f_equal. f_equal.
        rewrite list_lookup_insert_eq; [done|]. by eapply lookup_lt_Some.
      * rewrite E3. unfold responses. simpl.
        by rewrite list_lookup_insert_ne.
Qed.

(** C5. Simple DRAM: a request pushed at cycle [c = _cycles d] is scheduled
    for a cycle no earlier than [c + _latency d], and while no more than
    [_latency d] ticks have followed the push (the ticks of the cycles
    [c], ..., [c + _latency d - 1]), whatever is pushed and taken meanwhile,
    it is still in the waiting queue of its channel and has not been moved
    to the response queue: all that the channel has shown since the push,
    the responses taken and those now in its response queue, are the
    responses it held at the push followed by entries that were waiting in
    front of the request, so that a channel that was idle at the push shows
    nothing ([top] has nothing to return and [is_empty] does not answer
    false).  And one tick appends at most one response to the response
    queue of a channel. *)
Theorem simple_dram_latency_and_service (d : t) :
  (∀ cid request d1 ops taken d2 taken2,
     0 ≤ _cycles d → 0 ≤ _latency d → _cycles d + _latency d < 2 ^ 64 →
     push cid request d = Some d1 →
     run ops d1 taken = Some (d2, taken2) →
     ticks ops ≤ _latency d →
     _cycles d2 = _cycles d + ticks ops ∧
     (∃ k finish,
        (k ≤ length (waiting cid d))%nat ∧
        _cycles d + _latency d ≤ finish ∧
        waiting cid d2 !! k = Some (finish, set_response request)) ∧
     (∃ new j,
        taken2 = taken ++ new ∧
        taken_from cid new ++ responses cid d2 =
          responses cid d ++ take j (waiting cid d).*2) ∧
     (waiting cid d = [] → responses cid d = [] →
      responses cid d2 = [] ∧ top cid d2 = None ∧
      is_empty cid d2 ≠ Some false)) ∧
  (∀ ch,
     responses ch (cycle d) = responses ch d ∨
     ∃ a, responses ch (cycle d) = responses ch d ++ [a]).
Proof.
  split.
  - intros cid request d1 ops taken d2 taken2 Hc Hl Hb Hpush Hrun Hticks.
    unfold push in Hpush.
    destruct (_waiting_queue d !! cid) as [q|] eqn:Hq; [|done].
    injection Hpush as <-.
    set (finish := MAX (wrap64 (_cycles d + _latency d)) (_last_finish_cycle d))
      in *.
    assert (Hfin : _cycles d + _latency d ≤ finish).
    { etrans; [|apply MAX_ge_l]. rewrite wrap64_small; lia. }
    assert (Hvis : ∃ new j,
              taken2 = taken ++ new ∧
              taken_from cid new ++ responses cid d2 =
                responses cid d ++ take j (waiting cid d).*2).
    { edestruct (not_yet_visible ops _ taken d2 taken2 cid
                   (q ++ [(finish, set_response request)]) (length q)
                   (finish, set_response request) (_cycles d + _latency d) Hrun)
        as (new & j & E1 & E2 & E3); simpl; try lia.
      - apply list_lookup_insert_eq. by eapply lookup_lt_Some.
      - by rewrite lookup_app_r, Nat.sub_diag.
      - exists new, j. split; [done|]. rewrite E3.
        unfold responses at 1 2, waiting. simpl. rewrite Hq. simpl. f_equal.
        rewrite fmap_app, take_app_le; [done|]. by rewrite length_fmap. }
    edestruct (stays_waiting ops _ taken d2 taken2 cid
                 (q ++ [(finish, set_response request)]) (length q)
                 (finish, set_response request) (_cycles d + _latency d) Hrun)
      as [E1 (k & E2 & E3)]; simpl; try lia.
    + apply list_lookup_insert_eq. by eapply lookup_lt_Some.
    + by rewrite lookup_app_r, Nat.sub_diag.
    + simpl in E1. split; [done|]. split; [|split; [done|]].
      * exists k, finish. unfold waiting at 1. rewrite Hq. done.
      * intros Hw0 Hr0. destruct Hvis as (new & j & _ & E).
        rewrite Hw0, Hr0 in E. simpl in E. rewrite take_nil in E.
        apply app_eq_nil in E as [_ E]. split; [done|].
        unfold responses in E. unfold top, is_empty.
        destruct (_response_queue d2 !! cid) as [r|]; simpl in E;
          [by subst r|done].
  - intros ch. unfold responses.
    destruct (cycle_cases d ch) as [[_ ->]|(f & a & rest & _ & _ & _ & ->)];
      [by left|].
    destruct (_response_queue d !! ch) as [r|]; simpl; [|by left].
    right. by exists a.
Qed.

Lemma simple_dram_latency_and_service_witness :
  ∃ d1 d2 taken2,
    push 1 (example_access 7) example_dram = Some d1 ∧
    run example_ops d1 [] = Some (d2, taken2) ∧
    _cycles d2 = _cycles example_dram + ticks example_ops ∧
    (∃ k finish,
       (k ≤ length (waiting 1 example_dram))%nat ∧
       _cycles example_dram + _latency example_dram ≤ finish ∧
       waiting 1 d2 !! k = Some (finish, set_response (example_access 7))) ∧
    (∃ new j,
       taken2 = [] ++ new ∧
       taken_from 1 new ++ responses 1 d2 =
         responses 1 example_dram ++ take j (waiting 1 example_dram).*2) ∧
    responses 1 d2 = [] ∧ top 1 d2 = None ∧ is_empty 1 d2 ≠ Some false.
Proof.
  eexists _, _, _. split; [reflexivity|]. split; [vm_compute; reflexivity|].
  edestruct (proj1 (simple_dram_latency_and_service example_dram) 1%nat
               (example_access 7)
               (default example_dram (push 1 (example_access 7) example_dram))
               example_ops [])
    as (E1 & E2 & E3 & E4).
  - vm_compute. discriminate.
  - vm_compute. discriminate.
  - vm_compute. reflexivity.
  - reflexivity.
  - vm_compute. reflexivity.
  - vm_compute. discriminate.
  - split; [exact E1|]. split; [exact E2|]. split; [exact E3|].
    apply E4; reflexivity.
Defined.

Lemma StronglySorted_snoc (l : list Z) (x : Z) :
  StronglySorted Z.le l → Forall (λ f, f ≤ x) l → StronglySorted Z.le (l ++ [x]).
Proof.
  induction 1 as [|y l Hs IH Hy]; intros Hall; simpl.
  - repeat constructor.
  - inversion Hall; subst. constructor; [by apply IH|].
    apply Forall_app. split; [done|]. by repeat constructor.
Qed.

Lemma ordered_cycle d : waiting_ordered d → waiting_ordered (cycle d).
Proof.
  intros Hd ch. destruct (Hd ch) as [Hs Hf]. rewrite cycle_last_finish.
  unfold waiting in *.
  destruct (cycle_cases d ch) as [[-> _]|(f & a & rest & Hw & _ & -> & _)];
    [done|].
  rewrite Hw in Hs, Hf. simpl in *. inversion Hs; subst. inversion Hf; subst.
  done.
Qed.

Lemma ordered_push cid request d d1 :
  push cid request d = Some d1 → waiting_ordered d → waiting_ordered d1.
Proof.
  unfold push. destruct (_waiting_queue d !! cid) as [q|] eqn:Hq; [|done].
  intros [= <-] Hd ch. destruct (Hd ch) as [Hs Hf]. unfold waiting in *. simpl.
  pose proof (MAX_ge_r (wrap64 (_cycles d + _latency d)) (_last_finish_cycle d))
    as Hge.
  destruct (decide (ch = cid)) as [->|Hne].
  - rewrite list_lookup_insert_eq by (by eapply lookup_lt_Some).
    rewrite Hq in Hs, Hf. simpl in *. rewrite fmap_app. simpl. split.
    + apply StronglySorted_snoc; [done|].
      eapply Forall_impl; [exact Hf|]. simpl. intros; lia.
    + apply Forall_app. split.
      * eapply Forall_impl; [exact Hf|]. simpl. intros; lia.
      * by repeat constructor.
  - rewrite list_lookup_insert_ne by done. split; [done|].
    eapply Forall_impl; [exact Hf|]. simpl. intros; lia.
Qed.

Lemma ordered_pop cid d d1 : pop cid d = Some d1 → waiting_ordered d → waiting_ordered d1.
Proof.
  unfold pop. destruct (_response_queue d !! cid) as [[|a rest]|]; try done.
  intros [= <-] Hd ch. exact (Hd ch).
Qed.

Lemma taken_from_snoc ch taken cid a :
  taken_from ch (taken ++ [(cid, a)]) =
    taken_from ch taken ++ (if decide (cid = ch) then [a] else []).
Proof.
  unfold taken_from. rewrite omap_app. simpl. by destruct (decide (cid = ch)).
Qed.

(** Along any run a channel's stream only grows, by the requests pushed into
    the channel, in the order of the pushes. *)
Lemma run_stream ops :
  ∀ d taken d2 taken2,
    wf d → waiting_ordered d → run ops d taken = Some (d2, taken2) →
    waiting_ordered d2 ∧
    ∀ ch, stream ch d2 taken2 =
          stream ch d taken ++ (set_response <$> pushed ch ops).
Proof.
  induction ops as [|o ops IH]; intros d taken d2 taken2 Hwf Hord Hrun.
  - simpl in Hrun. injection Hrun as <- <-. split; [done|].
    intros ch. simpl. by rewrite app_nil_r.
  - destruct o as [cid request| |cid]; simpl in Hrun.
    + destruct (push cid request d) as [d1|] eqn:Hpush; [|done].
      destruct (IH _ _ _ _ (push_wf _ _ _ _ Hpush Hwf)
                  (ordered_push _ _ _ _ Hpush Hord) Hrun) as [Ho Hs].
      split; [done|]. intros ch. rewrite Hs. clear Hs IH Hrun.
      unfold push in Hpush.
      destruct (_waiting_queue d !! cid) as [q|] eqn:Hq; [|done].
      injection Hpush as <-. unfold stream, pushed, waiting, responses. simpl.
      destruct (decide (cid = ch)) as [->|Hne].
      * rewrite list_lookup_insert_eq by (by eapply lookup_lt_Some).
        rewrite Hq. simpl. rewrite fmap_app. simpl.
        by rewrite <- !app_assoc.
      * by rewrite list_lookup_insert_ne.
    + destruct (IH _ _ _ _ (cycle_wf _ Hwf) (ordered_cycle _ Hord) Hrun)
        as [Ho Hs].
      split; [done|]. intros ch. rewrite Hs. clear Hs IH Hrun. f_equal.
      unfold stream, waiting, responses. f_equal.
      destruct (cycle_cases d ch)
        as [[-> ->]|(f & a & rest & Hw & _ & -> & ->)]; [done|].
      rewrite Hw.
      destruct (_response_queue d !! ch) as [r|] eqn:Hr.
      * simpl. by rewrite <- app_assoc.
      * apply lookup_lt_Some in Hw. apply lookup_ge_None in Hr.
        unfold wf in Hwf. lia.
    + destruct (top cid d) as [a|] eqn:Htop; [|done].
      destruct (pop cid d) as [d1|] eqn:Hpop; [|done].
      destruct (IH _ _ _ _ (pop_wf _ _ _ Hpop Hwf)
                  (ordered_pop _ _ _ Hpop Hord) Hrun) as [Ho Hs].
      split; [done|]. intros ch. rewrite Hs. clear Hs IH Hrun. f_equal.
      unfold top in Htop. unfold pop in Hpop.
      destruct (_response_queue d !! cid) as [[|x rest]|] eqn:Hr; try done.
      injection Htop as ->. injection Hpop as <-.
      unfold stream, waiting, responses. simpl. rewrite taken_from_snoc.
      destruct (decide (cid = ch)) as [->|Hne].
      * rewrite list_lookup_insert_eq by (by eapply lookup_lt_Some).
        rewrite Hr. simpl. by rewrite <- app_assoc.
      * rewrite list_lookup_insert_ne by done. by rewrite app_nil_r.
Qed.

(** C10. Simple DRAM, started empty: whatever the driver does, in every
    channel the responses taken so far, followed by the responses queued and
    then by the accesses still waiting, are exactly the requests pushed into
    that channel, in the order of the pushes (each with its direction flag
    flipped); and the completion cycles in the channel's waiting queue are
    non-decreasing, so the front entry is the earliest. *)
Theorem simple_dram_fifo (dram_latency : Z) (dram_channels : nat)
    (dram_req_size indeterminate : Z) (ops : list op) (d : t)
    (taken : list (nat * MemoryAccess)) :
  run ops (SimpleDram dram_latency dram_channels dram_req_size indeterminate) []
    = Some (d, taken) →
  ∀ ch,
    stream ch d taken = set_response <$> pushed ch ops ∧
    StronglySorted Z.le (waiting ch d).*1.
Proof.
  intros Hrun ch.
  set (d0 := SimpleDram dram_latency dram_channels dram_req_size indeterminate)
    in *.
  assert (Hw0 : ∀ c, waiting c d0 = []).
  { intros c. unfold waiting, d0, SimpleDram. simpl.
    destruct (replicate dram_channels [] !! c) as [x|] eqn:E; [|done].
    by apply lookup_replicate in E as [-> _]. }
  assert (Hr0 : ∀ c, responses c d0 = []).
  { intros c. unfold responses, d0, SimpleDram. simpl.
    destruct (replicate dram_channels [] !! c) as [x|] eqn:E; [|done].
    by apply lookup_replicate in E as [-> _]. }
  destruct (run_stream ops d0 [] d taken) as [Ho Hs]; [| |done|].
  - unfold wf, d0, SimpleDram. simpl. by rewrite !length_replicate.
  - intros c. rewrite Hw0. simpl. split; constructor.
  - split; [|apply Ho]. rewrite Hs. unfold stream. by rewrite Hw0, Hr0.
Qed.

Lemma simple_dram_fifo_witness :
  ∃ d taken,
    run [Push 1 (example_access 7); Cycle; Push 1 (example_access 9); Cycle;
         Cycle; Pop 1; Cycle] (SimpleDram 2 2 64 1) [] = Some (d, taken) ∧
    ∀ ch,
      stream ch d taken =
        set_response <$>
          pushed ch [Push 1 (example_access 7); Cycle;
                     Push 1 (example_access 9); Cycle; Cycle; Pop 1; Cycle] ∧
      StronglySorted Z.le (waiting ch d).*1.
Proof.
  eexists _, _. split; [vm_compute; reflexivity|].
  apply (simple_dram_fifo 2 2 64 1). vm_compute. reflexivity.
Defined.

End SimpleDramProofs.

(** ** The driver *)
Module SimulatorProofs.
Import Common Simulator.

Section Clock.
Context `{Components} `{!Masks} `{!StdHeap} `{!MasksDistinct}.

Lemma MIN3_cases x y z :
  MIN3 x y z ≤ x ∧ MIN3 x y z ≤ y ∧ MIN3 x y z ≤ z ∧
  (MIN3 x y z = x ∨ MIN3 x y z = y ∨ MIN3 x y z = z).
Proof. unfold MIN3. lia. Qed.

(** C1. One call of [set_cycle_mask]: with [T] the minimum of the three
    accumulated times, a domain's bit is set in [_cycle_mask] exactly when
    its accumulated time equals [T]; the time of a domain whose bit is set
    advances by the domain's period (in [uint64_t] arithmetic) and the time
    of any other domain stays; and at least one bit is set. *)
Theorem set_cycle_mask_spec (s : t) :
  let T := MIN3 (_core_time s) (_dram_time s) (_icnt_time s) in
  let s' := set_cycle_mask s in
  (ticks CORE_MASK s' = true ↔ _core_time s = T) ∧
  (ticks DRAM_MASK s' = true ↔ _dram_time s = T) ∧
  (ticks ICNT_MASK s' = true ↔ _icnt_time s = T) ∧
  _core_time s' =
    (if ticks CORE_MASK s' then wrap64 (_core_time s + _core_period s)
     else _core_time s) ∧
  _dram_time s' =
    (if ticks DRAM_MASK s' then wrap64 (_dram_time s + _dram_period s)
     else _dram_time s) ∧
  _icnt_time s' =
    (if ticks ICNT_MASK s' then wrap64 (_icnt_time s + _icnt_period s)
     else _icnt_time s) ∧
  ticks CORE_MASK s' || ticks DRAM_MASK s' || ticks ICNT_MASK s' = true.
Proof.
  intros T s'.
  pose proof (MIN3_cases (_core_time s) (_dram_time s) (_icnt_time s)) as HT.
  fold T in HT.
  pose proof core_mask_set as Hc. pose proof dram_mask_set as Hd.
  pose proof icnt_mask_set as Hi. pose proof core_dram_apart as Hcd.
  pose proof core_icnt_apart as Hci. pose proof dram_icnt_apart as Hdi.
  assert (Hdc : Z.land DRAM_MASK CORE_MASK = 0) by (by rewrite Z.land_comm).
  assert (Hic : Z.land ICNT_MASK CORE_MASK = 0) by (by rewrite Z.land_comm).
  assert (Hid : Z.land ICNT_MASK DRAM_MASK = 0) by (by rewrite Z.land_comm).
  subst s'. unfold set_cycle_mask. simpl. fold T.
  destruct (Z.leb_spec (_core_time s) T) as [Lc|Lc]; simpl; fold T;
    (destruct (Z.leb_spec (_dram_time s) T) as [Ld|Ld]); simpl; fold T;
    (destruct (Z.leb_spec (_icnt_time s) T) as [Li|Li]); simpl;
    unfold ticks; simpl;
    rewrite ?Z.land_lor_distr_l, ?Z.land_0_l, ?Z.land_diag,
      ?Hcd, ?Hci, ?Hdi, ?Hdc, ?Hic, ?Hid, ?Z.lor_0_l, ?Z.lor_0_r;
    repeat match goal with
           | Hne : ?m ≠ 0 |- context [?m =? 0] =>
               rewrite (proj2 (Z.eqb_neq m 0) Hne)
           end;
    simpl;
    repeat split; try done; try lia.
Qed.

End Clock.

Lemma example_masks_distinct : @MasksDistinct Trace.example_masks.
Proof. by split. Qed.

Lemma set_cycle_mask_spec_witness :
  let s := Trace.example_simulator in
  let s' := @set_cycle_mask _ Trace.example_masks s in
  (ticks 2 s' = true ↔ _core_time s = 0) ∧
  (ticks 4 s' = true ↔ _dram_time s = 0) ∧
  (ticks 8 s' = true ↔ _icnt_time s = 0) ∧
  _core_time s' = 1000 ∧ _dram_time s' = 2000 ∧ _icnt_time s' = 2000 ∧
  ticks 2 s' || ticks 4 s' || ticks 8 s' = true.
Proof.
  exact (@set_cycle_mask_spec _ Trace.example_masks example_masks_distinct
           Trace.example_simulator).
Defined.

Section Loop.
Context `{Components} `{!Masks} `{!StdHeap}.

Lemma fold_orb {A} (f : A → bool) (l : list A) (b : bool) :
  fold_left (λ running x, running || f x) l b = b || existsb f l.
Proof.
  revert b. induction l as [|x l IH]; intros b; simpl.
  - by rewrite orb_false_r.
  - by rewrite IH, orb_assoc.
Qed.

Lemma running_false_iff (s : t) : running s = false ↔ all_idle s.
Proof.
  unfold running, all_idle. rewrite fold_orb. simpl.
  rewrite !orb_false_iff, negb_false_iff, bool_decide_eq_true.
  rewrite negb_false_iff.
  assert (existsb (λ x, core_running x (world s)) (seq 0 (_n_cores s)) = false
          ↔ ∀ core, (core < _n_cores s)%nat → core_running core (world s) = false)
    as ->; [|tauto].
  split.
  - intros He core Hlt.
    destruct (core_running core (world s)) eqn:E; [|done].
    rewrite <- He. symmetry. apply existsb_exists. exists core.
    split; [|done]. apply in_seq. lia.
  - intros Hall. apply not_true_is_false. intros He.
    apply existsb_exists in He as (core & Hin & Hrun).
    apply in_seq in Hin. rewrite Hall in Hrun by lia. done.
Qed.

Lemma cycle_ends_idle steps :
  ∀ s s', cycle steps s = Some s' → running s' = false.
Proof.
  induction steps as [|steps IH]; intros s s'; simpl.
  - destruct (running s) eqn:E; [done|]. by intros [= <-].
  - destruct (running s) eqn:E; [|by intros [= <-]].
    destruct (cycle_step s) as [s1|]; [|done]. apply IH.
Qed.

(** C4. The loop of [cycle] stops exactly when the arrival heap is empty,
    no core is running, interconnect and memory are not running and the
    scheduler is empty: [running()] is false in exactly those states; in
    such a state the loop returns at once, in any other it takes a step and
    goes on; and the state the loop returns is such a state. *)
Theorem cycle_stops_iff_all_idle (s : t) :
  (running s = false ↔ all_idle s) ∧
  (all_idle s → ∀ steps, cycle steps s = Some s) ∧
  (¬ all_idle s →
   ∀ steps, cycle (S steps) s =
            match cycle_step s with
            | Some s' => cycle steps s'
            | None => None
            end) ∧
  (∀ steps s', cycle steps s = Some s' → all_idle s').
Proof.
  split; [apply running_false_iff|]. split; [|split].
  - intros Hidle steps. apply running_false_iff in Hidle.
    destruct steps; simpl; by rewrite Hidle.
  - intros Hbusy steps. simpl.
    destruct (running s) eqn:E; [done|].
    by apply running_false_iff in E.
  - intros steps s' Hc. apply running_false_iff. by eapply cycle_ends_idle.
Qed.

End Loop.

Lemma cycle_stops_iff_all_idle_witness :
  let s := @with_models (Trace.recording Trace.example_oracle)
             Trace.example_simulator [] in
  @all_idle (Trace.recording Trace.example_oracle) s ∧
  @cycle _ Trace.example_masks Trace.sorting_heap 3 s = Some s.
Proof.
  pose proof (@cycle_stops_iff_all_idle _ Trace.example_masks
                Trace.sorting_heap
                (@with_models (Trace.recording Trace.example_oracle)
                   Trace.example_simulator [])) as (Hiff & Hstop & _).
  assert (Hidle : @all_idle (Trace.recording Trace.example_oracle)
                    (@with_models (Trace.recording Trace.example_oracle)
                       Trace.example_simulator [])).
  { apply Hiff. vm_compute. reflexivity. }
  split; [exact Hidle|]. exact (Hstop Hidle 3%nat).
Defined.

Section Arrivals.
Context `{Components} `{!Masks} `{!StdHeap} `{!StdHeapLaws}.

Lemma parent_below (i : nat) : (0 < i)%nat → ((i - 1) / 2 < i)%nat.
Proof.
  intros Hi. pose proof (Nat.div_mod_eq (i - 1) 2) as Hd.
  pose proof (Nat.mod_upper_bound (i - 1) 2). lia.
Qed.

(** The front of a heap has the earliest request time. *)
Lemma heap_front_min (l : list Model) (front : Model) :
  is_heap l → l !! 0%nat = Some front →
  ∀ m, m ∈ l → get_request_time front ≤ get_request_time m.
Proof.
  intros Hheap Hfront m Hm. apply list_elem_of_lookup in Hm as [i Hi].
  revert m Hi. induction i as [i IH] using lt_wf_ind. intros m Hi.
  destruct (decide (i = 0%nat)) as [->|Hpos].
  - rewrite Hfront in Hi. injection Hi as ->. lia.
  - assert (Hlt : ((i - 1) / 2 < i)%nat) by (apply parent_below; lia).
    destruct (l !! ((i - 1) / 2)%nat) as [parent|] eqn:Hp.
    + specialize (IH _ Hlt parent Hp).
      assert (Hcmp : CompareModel parent m = false)
        by (apply (Hheap i); [lia|done|done]).
      unfold CompareModel in Hcmp. lia.
    + apply lookup_ge_None in Hp. apply lookup_lt_Some in Hi. lia.
Qed.

Lemma register_model_heap (model : Model) (s : t) :
  is_heap (_models s) →
  is_heap (_models (register_model model s)) ∧
  _models (register_model model s) ≡ₚ _models s ++ [model].
Proof.
  intros Hheap. unfold register_model. simpl. split.
  - by apply push_heap_is_heap.
  - by apply push_heap_perm.
Qed.

Lemma handle_model_loop_spec fuel :
  ∀ s s',
    is_heap (_models s) → handle_model_loop fuel s = Some s' →
    ∃ launched inits,
      _models s ≡ₚ launched ++ _models s' ∧
      Forall (λ m, get_request_time m ≤ _core_time s) launched ∧
      Forall (λ m, _core_time s < get_request_time m) (_models s') ∧
      is_heap (_models s') ∧
      Forall2 (λ m m', initialize_model m = Some m') launched inits ∧
      s' = with_world (with_models s (_models s')) (schedule_all s inits).
Proof.
  assert (Hstay : ∀ s : t,
            is_heap (_models s) →
            match _models s with
            | [] => True
            | front :: _ => ¬ get_request_time front ≤ _core_time s
            end →
            ∃ launched inits,
              _models s ≡ₚ launched ++ _models s ∧
              Forall (λ m, get_request_time m ≤ _core_time s) launched ∧
              Forall (λ m, _core_time s < get_request_time m) (_models s) ∧
              is_heap (_models s) ∧
              Forall2 (λ m m', initialize_model m = Some m') launched inits ∧
              s = with_world (with_models s (_models s)) (schedule_all s inits)).
  { intros s Hheap Hfront. exists [], []. split; [done|]. split; [done|].
    split; [|split; [done|split; [done|by destruct s]]].
    destruct (_models s) as [|front rest] eqn:Hm; [done|].
    apply Forall_forall. intros m Hin.
    pose proof (heap_front_min (front :: rest) front Hheap eq_refl m Hin).
    lia. }
  induction fuel as [|fuel IH]; intros s s' Hheap Hrun; simpl in Hrun;
    pose proof (Hstay s Hheap) as Hs.
  - destruct (_models s) as [|front rest] eqn:Hm.
    + injection Hrun as <-. rewrite Hm. by apply Hs.
    + destruct (Z.leb_spec (get_request_time front) (_core_time s)); [done|].
      injection Hrun as <-. rewrite Hm. apply Hs. lia.
  - destruct (_models s) as [|front rest] eqn:Hm.
    + injection Hrun as <-. rewrite Hm. by apply Hs.
    + destruct (Z.leb_spec (get_request_time front) (_core_time s)) as [Hdue|];
        [|injection Hrun as <-; rewrite Hm; apply Hs; lia].
      destruct (pop_heap_spec front rest Hheap)
        as (l' & back & Hpop & Hheap' & Hperm).
      rewrite Hpop, removelast_last in Hrun.
      destruct (initialize_model front) as [launch_model|] eqn:Hinit; [|done].
      apply IH in Hrun as (launched & inits & P1 & P2 & P3 & P4 & P5 & P6);
        [|done].
      simpl in P1, P2, P3.
      exists (front :: launched), (launch_model :: inits).
      split; [by rewrite <- Hperm, P1|]. split; [by constructor|].
      split; [done|]. split; [done|]. split; [by constructor|].
      rewrite P6. by destruct s.
Qed.

Lemma handle_model_loop_returns fuel :
  ∀ s,
    is_heap (_models s) → (length (_models s) ≤ fuel)%nat →
    (∀ m, m ∈ _models s → get_request_time m ≤ _core_time s →
          is_Some (initialize_model m)) →
    is_Some (handle_model_loop fuel s).
Proof.
  induction fuel as [|fuel IH]; intros s Hheap Hlen Hinit; simpl.
  - destruct (_models s); [done|]. simpl in Hlen. lia.
  - destruct (_models s) as [|front rest] eqn:Hm; [done|].
    destruct (Z.leb_spec (get_request_time front) (_core_time s)) as [Hdue|];
      [|done].
    destruct (pop_heap_spec front rest Hheap)
      as (l' & back & Hpop & Hheap' & Hperm).
    rewrite Hpop, removelast_last.
    destruct (Hinit front) as [launch_model ->]; [by left|done|].
    apply IH; simpl.
    + done.
    + rewrite Hperm. simpl in Hlen. lia.
    + intros m Hin. apply Hinit. right. by rewrite <- Hperm.
Qed.

(** C3. The arrival heap, and [handle_model] on a core tick.  Registering a
    model keeps [_models] a heap that holds the models registered.  On a
    heap, [handle_model] returns whenever the models that are due
    initialise; when it returns, the models it has popped ([launched]) and
    the models it has left are the models that were in the heap, every
    popped model has a request time no later than [_core_time] and every
    model left has a later one; each popped model was initialised, had its
    request time set to [_core_time], and was handed to the scheduler with
    priority 1, in the order popped.  So a model with request time [r] is
    initialised at a core-domain time [_core_time >= r]. *)
Theorem handle_model_spec (s : t) :
  is_heap (_models s) →
  (∀ model,
     is_heap (_models (register_model model s)) ∧
     _models (register_model model s) ≡ₚ _models s ++ [model]) ∧
  ((∀ m, m ∈ _models s → get_request_time m ≤ _core_time s →
         is_Some (initialize_model m)) →
   is_Some (handle_model s)) ∧
  (∀ s',
     handle_model s = Some s' →
     ∃ launched inits,
       _models s ≡ₚ launched ++ _models s' ∧
       Forall (λ m, get_request_time m ≤ _core_time s) launched ∧
       Forall (λ m, _core_time s < get_request_time m) (_models s') ∧
       is_heap (_models s') ∧
       Forall2 (λ m m', initialize_model m = Some m') launched inits ∧
       s' = with_world (with_models s (_models s')) (schedule_all s inits)).
Proof.
  intros Hheap. split; [|split].
  - intros model. by apply register_model_heap.
  - intros Hinit. by apply handle_model_loop_returns.
  - intros s'. by apply handle_model_loop_spec.
Qed.

End Arrivals.

(** Models in ascending order of request time form a heap. *)
Section SortingHeap.
Context `{Components}.

Lemma sorted_lookup (l : list Model) (i j : nat) (a b : Model) :
  StronglySorted Trace.by_request_time l → (i ≤ j)%nat →
  l !! i = Some a → l !! j = Some b → Trace.by_request_time a b.
Proof.
  intros Hs. revert i j. induction Hs as [|x l Hs IH Hx]; intros i j Hij Hi Hj.
  - done.
  - destruct i as [|i], j as [|j]; simpl in *; try lia.
    + injection Hi as ->. injection Hj as ->. unfold Trace.by_request_time. lia.
    + injection Hi as ->. eapply Forall_forall in Hx; [exact Hx|].
      by eapply list_elem_of_lookup_2.
    + eapply IH; [|done|done]. lia.
Qed.

Lemma sorted_is_heap (l : list Model) :
  StronglySorted Trace.by_request_time l → is_heap l.
Proof.
  intros Hs i parent child Hi Hp Hc. unfold CompareModel.
  pose proof (parent_below i Hi) as Hlt.
  pose proof (sorted_lookup l _ _ _ _ Hs (Nat.lt_le_incl _ _ Hlt) Hp Hc) as Hle.
  unfold Trace.by_request_time in Hle. lia.
Qed.

Lemma insert_by_request_time_perm (x : Model) (l : list Model) :
  Trace.insert_by_request_time x l ≡ₚ x :: l.
Proof.
  induction l as [|y l IH]; simpl; [done|].
  destruct (get_request_time x <=? get_request_time y); [done|].
  rewrite IH. apply Permutation_swap.
Qed.

Lemma insert_by_request_time_sorted (x : Model) (l : list Model) :
  StronglySorted Trace.by_request_time l →
  StronglySorted Trace.by_request_time (Trace.insert_by_request_time x l).
Proof.
  induction 1 as [|y l Hs IH Hy]; simpl; [by repeat constructor|].
  destruct (Z.leb_spec (get_request_time x) (get_request_time y)) as [Hle|Hgt].
  - constructor; [by constructor|]. constructor; [done|].
    eapply Forall_impl; [exact Hy|]. unfold Trace.by_request_time. simpl.
    intros; lia.
  - constructor; [done|]. rewrite insert_by_request_time_perm.
    constructor; [|done]. unfold Trace.by_request_time. lia.
Qed.

Lemma sort_by_request_time_perm (l : list Model) :
  Trace.sort_by_request_time l ≡ₚ l.
Proof.
  induction l as [|x l IH]; simpl; [done|].
  by rewrite insert_by_request_time_perm, IH.
Qed.

Lemma sort_by_request_time_sorted (l : list Model) :
  StronglySorted Trace.by_request_time (Trace.sort_by_request_time l).
Proof.
  induction l as [|x l IH]; simpl; [constructor|].
  by apply insert_by_request_time_sorted.
Qed.

(** The heap that sorts meets the promises of the standard. *)
Lemma sorting_heap_laws : @StdHeapLaws _ Trace.sorting_heap.
Proof.
  split; simpl.
  - intros l x _. apply sorted_is_heap, sort_by_request_time_sorted.
  - intros l x _. apply sort_by_request_time_perm.
  - intros x l _. exists (Trace.sort_by_request_time l), x.
    split; [done|]. split.
    + apply sorted_is_heap, sort_by_request_time_sorted.
    + apply sort_by_request_time_perm.
Qed.

End SortingHeap.

Lemma example_first_tick_heap :
  @is_heap (Trace.recording Trace.example_oracle)
    (_models Trace.example_first_tick).
Proof.
  apply sorted_is_heap.
  repeat constructor; unfold Trace.by_request_time; simpl; lia.
Qed.

Lemma handle_model_spec_witness :
  @is_heap (Trace.recording Trace.example_oracle)
    (_models Trace.example_first_tick) ∧
  ∃ s',
    @handle_model _ Trace.sorting_heap Trace.example_first_tick = Some s' ∧
    _models s' = [(3000, false)] ∧
    world s' = [Trace.ev_schedule_model (1000, true) 1] ∧
    ∃ launched inits,
      _models Trace.example_first_tick ≡ₚ launched ++ _models s' ∧
      Forall (λ m, get_request_time m ≤ _core_time Trace.example_first_tick)
        launched ∧
      Forall (λ m, _core_time Trace.example_first_tick < get_request_time m)
        (_models s') ∧
      is_heap (_models s') ∧
      Forall2 (λ m m', initialize_model m = Some m') launched inits ∧
      s' = with_world (with_models Trace.example_first_tick (_models s'))
             (schedule_all Trace.example_first_tick inits).
Proof.
  split; [exact example_first_tick_heap|].
  eexists. split; [vm_compute; reflexivity|].
  split; [reflexivity|]. split; [reflexivity|].
  apply (proj2 (proj2 (@handle_model_spec _ Trace.sorting_heap
                         sorting_heap_laws
                         Trace.example_first_tick example_first_tick_heap))).
  vm_compute. reflexivity.
Defined.

End SimulatorProofs.

(** ** The order of the calls within one step *)
Module TraceProofs.
Import Common Simulator Trace.

Section Order.
Context (o : oracle) (masks : Masks).
Context (heap : @StdHeap (recording o)).
Context (d n : nat).

Local Existing Instance masks.
Local Existing Instance heap.

Abbreviation sim := (@Simulator.t (recording o)).
Abbreviation ordered := (in_order d n).
Abbreviation serves := (Trace.serves d n).
Abbreviation at_stage := (Trace.at_stage d n).
Abbreviation below := (Trace.below d n).
Abbreviation progress := (Trace.progress d n).

Lemma serves_at_stage p u l : serves p u l → at_stage p l.
Proof.
  intros Hl. eapply Forall_impl; [exact Hl|]. intros e [sub He].
  by rewrite He.
Qed.

Lemma ordered_app_stage p q l1 l2 :
  ordered l1 → below p l1 → ordered l2 → at_stage q l2 → (p < q)%nat →
  ordered (l1 ++ l2) ∧ below q (l1 ++ l2).
Proof.
  intros H1 B1 H2 B2 Hpq. split.
  - apply StronglySorted_app_2; [|done|done].
    intros x1 x2 Hx1 Hx2.
    eapply Forall_forall in B1; [|exact Hx1].
    eapply Forall_forall in B2; [|exact Hx2].
    unfold rank_le. simpl in *. lia.
  - apply Forall_app. split.
    + eapply Forall_impl; [exact B1|]. simpl. intros; lia.
    + eapply Forall_impl; [exact B2|]. simpl. intros; lia.
Qed.

Lemma ordered_app_units p u l1 l2 :
  ordered l1 → ordered l2 →
  Forall (λ e, ∃ c sub, rank d n e = (p, c, sub) ∧ (c < u)%nat) l1 →
  serves p u l2 →
  ordered (l1 ++ l2).
Proof.
  intros H1 H2 B1 B2. apply StronglySorted_app_2; [|done|done].
  intros x1 x2 Hx1 Hx2.
  eapply Forall_forall in B1 as (c & sub & -> & Hc); [|exact Hx1].
  eapply Forall_forall in B2 as (sub' & ->); [|exact Hx2].
  unfold rank_le. simpl. lia.
Qed.

(** A loop over the cores, or over the memory channels, whose body makes
    its calls in order and for its own core or channel only. *)
Lemma loop_trace (step : list event → nat → list event) (p k : nat)
    (mark : nat → list event) :
  (∀ w c, (c < k)%nat →
     ∃ l, step w c = w ++ l ∧ ordered l ∧ serves p c l ∧ mark c ⊆ l) →
  ∀ w,
    ∃ l, fold_left step (seq 0 k) w = w ++ l ∧ ordered l ∧
         Forall (λ e, ∃ c sub, rank d n e = (p, c, sub) ∧ (c < k)%nat) l ∧
         ∀ c, (c < k)%nat → mark c ⊆ l.
Proof.
  induction k as [|k IH]; intros Hstep w.
  - exists []. simpl. rewrite app_nil_r. repeat split; try constructor.
    intros; lia.
  - destruct (IH (λ w c Hc, Hstep w c (Nat.lt_lt_succ_r _ _ Hc)) w)
      as (l1 & E1 & O1 & B1 & M1).
    destruct (Hstep (w ++ l1) k (Nat.lt_succ_diag_r k))
      as (l2 & E2 & O2 & B2 & M2).
    exists (l1 ++ l2). rewrite seq_S, fold_left_app, E1. simpl.
    rewrite E2, app_assoc. split; [done|]. split; [|split].
    + by eapply ordered_app_units.
    + apply Forall_app. split.
      * eapply Forall_impl; [exact B1|]. simpl.
        intros e (c & sub & He & Hc). exists c, sub. split; [done|lia].
      * eapply Forall_impl; [exact B2|]. simpl.
        intros e (sub & He). exists k, sub. split; [done|lia].
    + intros c Hc e He. apply elem_of_app.
      destruct (decide (c = k)) as [->|Hne].
      * right. by apply M2.
      * left. apply (M1 c); [lia|done].
Qed.

Lemma core_step_trace clk (w : list event) (c : nat) :
  ∃ l, @core_step (recording o) clk w c = w ++ l ∧ ordered l ∧
       serves 1 c l ∧ [ev_core_cycle c] ⊆ l.
Proof.
  unfold core_step. simpl. repeat case_match; subst.
  all: rewrite <- ?app_assoc; simpl; eexists;
    (split; [first [reflexivity | symmetry; apply app_nil_r]|]).
  all: split; [trace_in_order|]; split; [trace_serves|trace_member].
Qed.

Lemma rank_of_nat_core (c : nat) :
  (c < n)%nat → (Z.of_nat c <? Z.of_nat n) = true ∧ Z.to_nat (Z.of_nat c) = c.
Proof. intros. split; [apply Z.ltb_lt|]; lia. Qed.

Lemma rank_of_nat_mem (m : nat) :
  (Z.of_nat n + Z.of_nat m <? Z.of_nat n) = false ∧
  (Z.to_nat (Z.of_nat n + Z.of_nat m) - n)%nat = m.
Proof. split; [apply Z.ltb_ge|]; lia. Qed.

Lemma icnt_core_step_trace (w : list event) (c : nat) :
  (c < n)%nat →
  ∃ l, @icnt_core_step (recording o) n w c = w ++ l ∧ ordered l ∧
       serves 3 c l ∧ [] ⊆ l.
Proof.
  intros Hc. destruct (rank_of_nat_core c Hc) as [E1 E2].
  unfold icnt_core_step. simpl. repeat case_match; subst.
  all: rewrite <- ?app_assoc; simpl; eexists;
    (split; [first [reflexivity | symmetry; apply app_nil_r]|]).
  all: split; [|split; [|trace_member]].
  all: unfold in_order, serves.
  all: repeat first [apply SSorted_nil | apply SSorted_cons
                    | apply Forall_nil_2 | apply Forall_cons_2].
  all: unfold rank_le; simpl; rewrite ?E1, ?E2; simpl; try lia.
  all: by eexists.
Qed.

Lemma icnt_mem_step_trace (w : list event) (m : nat) :
  ∃ l, @icnt_mem_step (recording o) n w m = w ++ l ∧ ordered l ∧
       serves 4 m l ∧ [] ⊆ l.
Proof.
  destruct (rank_of_nat_mem m) as [E1 E2].
  unfold icnt_mem_step. simpl. repeat case_match; subst.
  all: rewrite <- ?app_assoc; simpl; eexists;
    (split; [first [reflexivity | symmetry; apply app_nil_r]|]).
  all: split; [|split; [|trace_member]].
  all: unfold in_order, serves.
  all: repeat first [apply SSorted_nil | apply SSorted_cons
                    | apply Forall_nil_2 | apply Forall_cons_2].
  all: unfold rank_le; simpl; rewrite ?E1, ?E2; simpl; try lia.
  all: by eexists.
Qed.

Lemma progress_start w0 p : progress w0 p [] w0.
Proof.
  exists []. rewrite app_nil_r. repeat split; try constructor.
  trace_member.
Qed.

Lemma progress_later w0 p q req w :
  (p ≤ q)%nat → progress w0 p req w → progress w0 q req w.
Proof.
  intros Hpq (l & -> & Ho & Hb & Hr). exists l. repeat split; try done.
  eapply Forall_impl; [exact Hb|]. simpl. intros; lia.
Qed.

Lemma progress_app w0 p q req w l req' :
  (p < q)%nat → progress w0 p req w → ordered l → at_stage q l → req' ⊆ l →
  progress w0 q (req ++ req') (w ++ l).
Proof.
  intros Hpq (l0 & -> & Ho & Hb & Hr) Hol Hq Hr'.
  destruct (ordered_app_stage p q l0 l Ho Hb Hol Hq Hpq) as [Ho' Hb'].
  exists (l0 ++ l). rewrite app_assoc. repeat split; try done.
  intros e He. apply elem_of_app. apply elem_of_app in He as [He|He].
  - left. by apply Hr.
  - right. by apply Hr'.
Qed.

Lemma loop_at_stage p k l :
  Forall (λ e, ∃ c sub, rank d n e = (p, c, sub) ∧ (c < k)%nat) l →
  at_stage p l.
Proof.
  intros Hl. eapply Forall_impl; [exact Hl|]. simpl.
  intros e (c & sub & -> & _). done.
Qed.

(** [handle_model] only hands models to the scheduler. *)
Lemma handle_model_loop_trace fuel :
  ∀ s s' : sim,
    handle_model_loop fuel s = Some s' →
    (∃ l, world s' = world s ++ l ∧ ordered l ∧ at_stage 0 l) ∧
    _n_cores s' = _n_cores s ∧ _n_memories s' = _n_memories s ∧
    _cycle_mask s' = _cycle_mask s ∧ the_clock s' = the_clock s.
Proof.
  induction fuel as [|fuel IH]; intros s s' Hrun; simpl in Hrun.
  - destruct (_models s) as [|front rest];
      [|destruct (front.1 <=? _core_time s); [done|]];
      injection Hrun as <-; (split; [|done]);
      exists []; rewrite app_nil_r; repeat split; constructor.
  - destruct (_models s) as [|front rest];
      [|destruct (front.1 <=? _core_time s)].
    1,3: injection Hrun as <-; (split; [|done]);
      exists []; rewrite app_nil_r; repeat split; constructor.
    apply IH in Hrun as [(l & E & Ho & Hs) F]. simpl in *. split; [|done].
    exists (ev_schedule_model (_core_time s, true) 1 :: l).
    rewrite E, <- app_assoc. split; [done|]. split.
    + constructor; [done|]. eapply Forall_impl; [exact Hs|]. simpl.
      intros e He. unfold rank_le. simpl. lia.
    + by constructor.
Qed.

Lemma set_cycle_mask_frame (s : sim) :
  world (set_cycle_mask s) = world s ∧
  _n_cores (set_cycle_mask s) = _n_cores s ∧
  _n_memories (set_cycle_mask s) = _n_memories s.
Proof. unfold set_cycle_mask. simpl. by repeat case_match. Qed.

Lemma ticks_frame (mask : Z) (s1 s2 : sim) :
  _cycle_mask s1 = _cycle_mask s2 → ticks mask s1 = ticks mask s2.
Proof. unfold ticks. by intros ->. Qed.

(** The calls of one step of the driver, in the order of the code. *)
Lemma cycle_step_progress (s s' : sim) :
  d = 2%nat → n = _n_cores s →
  cycle_step s = Some s' →
  progress (world s) 5
    ((if ticks CORE_MASK (set_cycle_mask s)
      then flat_map (λ c, [ev_core_cycle c]) (seq 0 n) else []) ++
     (if ticks DRAM_MASK (set_cycle_mask s) then [ev_dram_cycle] else []) ++
     (if ticks ICNT_MASK (set_cycle_mask s) then [ev_icnt_cycle] else []))
    (world s').
Proof.
  intros Hd Hn. unfold cycle_step.
  destruct (set_cycle_mask_frame s) as (Hw & Hc & Hm).
  set (s1 := set_cycle_mask s) in *. rewrite <- Hw. rewrite <- Hc in Hn.
  clearbody s1. clear Hw Hc Hm s.
  (* the core cycle *)
  assert (Hcore :
    ∀ s2, (if ticks CORE_MASK s1 then core_phase s1 else Some s1) = Some s2 →
      progress (world s1) 1
        (if ticks CORE_MASK s1
         then flat_map (λ c, [ev_core_cycle c]) (seq 0 n) else [])
        (world s2) ∧
      _n_cores s2 = n ∧ _n_memories s2 = _n_memories s1 ∧
      _cycle_mask s2 = _cycle_mask s1).
  { intros s2. destruct (ticks CORE_MASK s1).
    - unfold core_phase, handle_model.
      destruct (handle_model_loop _ s1) as [sh|] eqn:Hh; [|done].
      apply handle_model_loop_trace in Hh
        as [(l0 & E0 & O0 & S0) (F1 & F2 & F3 & F4)].
      intros [= <-]. simpl. rewrite F1, F2, F3, <- Hn. split; [|done].
      destruct (loop_trace
                  (@core_step (recording o) (the_clock sh))
                  1 n
                  (λ c, [ev_core_cycle c])
                  (λ w c _, core_step_trace (the_clock sh) w c) (world sh))
        as (l1 & E1 & O1 & B1 & M1).
      rewrite E1, E0.
      apply (progress_app (world s1) 0 1 [] _ l1); [lia| |done| |].
      + exists l0. repeat split; try done.
        * eapply Forall_impl; [exact S0|]. simpl. intros; lia.
        * trace_member.
      + by eapply loop_at_stage.
      + intros e He. apply list_elem_of_In, in_flat_map in He
          as (c & Hin & He).
        apply in_seq in Hin. apply (M1 c); [lia|].
        by apply list_elem_of_In.
    - intros [= <-]. split; [|done]. apply progress_start. }
  destruct (if ticks CORE_MASK s1 then core_phase s1 else Some s1)
    as [s2|]; [|done].
  destruct (Hcore s2 eq_refl) as (P2 & C2 & M2 & K2). clear Hcore.
  intros [= <-].
  (* the DRAM cycle *)
  set (s3 := if ticks DRAM_MASK s2 then dram_phase s2 else s2).
  assert (P3 :
    progress (world s1) 2
      ((if ticks CORE_MASK s1
        then flat_map (λ c, [ev_core_cycle c]) (seq 0 n) else []) ++
       (if ticks DRAM_MASK s1 then [ev_dram_cycle] else []))
      (world s3) ∧
    _n_cores s3 = n ∧ _n_memories s3 = _n_memories s1 ∧
    _cycle_mask s3 = _cycle_mask s1).
  { subst s3. rewrite (ticks_frame DRAM_MASK s2 s1 K2).
    destruct (ticks DRAM_MASK s1); simpl.
    - split; [|done].
      apply (progress_app (world s1) 1 2 _ _ [ev_dram_cycle]);
        [lia|done| | |done].
      + repeat constructor.
      + repeat constructor. simpl. by rewrite Hd.
    - split; [|done]. rewrite app_nil_r.
      eapply progress_later; [|exact P2]. lia. }
  destruct P3 as (P3 & C3 & M3 & K3). clearbody s3.
  (* the interconnect cycle *)
  rewrite (ticks_frame ICNT_MASK s3 s1 K3), app_assoc.
  destruct (ticks ICNT_MASK s1); simpl.
  - unfold icnt_phase. simpl. rewrite C3.
    destruct (loop_trace
                (@icnt_core_step (recording o) n)
                3 n (λ _, [])
                (λ w c Hc, icnt_core_step_trace w c Hc) (world s3))
      as (l3 & E3 & O3 & B3 & _).
    rewrite E3.
    destruct (loop_trace
                (@icnt_mem_step (recording o) n)
                4 (_n_memories s3) (λ _, [])
                (λ w c _, icnt_mem_step_trace w c) (world s3 ++ l3))
      as (l4 & E4 & O4 & B4 & _).
    rewrite E4.
    apply (progress_app (world s1) 4 5 _ _ [ev_icnt_cycle]); [lia| | | |done].
    + rewrite <- (app_nil_r (_ ++ _)).
      apply (progress_app (world s1) 3 4 _ _ l4 []); [lia| |done| |].
      * rewrite <- (app_nil_r (_ ++ _)).
        apply (progress_app (world s1) 2 3 _ _ l3 []); [lia|done|done| |].
        -- by eapply loop_at_stage.
        -- trace_member.
      * by eapply loop_at_stage.
      * trace_member.
    + repeat constructor.
    + repeat constructor.
  - rewrite app_nil_r. eapply progress_later; [|exact P3]. lia.
Qed.

End Order.

(** C2, as the code has it.  Whatever the components answer, the calls one
    step of the driver makes are made in the order: model arrivals; then,
    core by core, finished-tile collection, tile issue and the core's tick;
    then the tick of the memory; then, core by core, the forwarding of a
    request to the interconnect and of a response to the core; then,
    channel by channel, the transfers between interconnect and memory; then
    the tick of the interconnect.  A domain that ticks in the step has its
    tick among the calls.  The step returns when [_models] is a heap. *)
Theorem cycle_step_code_order (o : oracle) (masks : Masks)
    (heap : @StdHeap (recording o)) (s : @Simulator.t (recording o)) :
  (@StdHeapLaws (recording o) heap → is_heap (_models s) →
   is_Some (cycle_step s)) ∧
  ∀ s',
    cycle_step s = Some s' →
    ∃ l,
      world s' = world s ++ l ∧
      code_order (_n_cores s) l ∧
      (ticks CORE_MASK (set_cycle_mask s) = true →
       ∀ c, (c < _n_cores s)%nat → ev_core_cycle c ∈ l) ∧
      (ticks DRAM_MASK (set_cycle_mask s) = true → ev_dram_cycle ∈ l) ∧
      (ticks ICNT_MASK (set_cycle_mask s) = true → ev_icnt_cycle ∈ l).
Proof.
  split.
  - intros Hlaws Hheap. unfold cycle_step.
    assert (Hm : _models (set_cycle_mask s) = _models s).
    { unfold set_cycle_mask. simpl. by repeat case_match. }
    destruct (ticks CORE_MASK (set_cycle_mask s)); [|by eexists].
    unfold core_phase, handle_model.
    destruct (SimulatorProofs.handle_model_loop_returns
                (length (_models (set_cycle_mask s))) (set_cycle_mask s))
      as [sh ->]; [by rewrite Hm|done|by eexists|by eexists].
  - intros s' Hstep.
    destruct (cycle_step_progress o masks heap 2 (_n_cores s) s s' eq_refl
                eq_refl Hstep) as (l & E & Ho & _ & Hr).
    exists l. split; [done|]. split; [done|]. split; [|split].
    + intros Ht c Hc. apply Hr. rewrite Ht. apply elem_of_app. left.
      apply list_elem_of_In, in_flat_map. exists c. split.
      * apply in_seq. lia.
      * by left.
    + intros Ht. apply Hr. rewrite Ht. apply elem_of_app. right.
      apply elem_of_app. left. apply list_elem_of_here.
    + intros Ht. apply Hr. rewrite Ht. apply elem_of_app. right.
      apply elem_of_app. right. apply list_elem_of_here.
Qed.

Lemma cycle_step_code_order_witness :
  ∃ s',
    @cycle_step _ example_masks sorting_heap example_simulator = Some s' ∧
    ∃ l,
      world s' = world example_simulator ++ l ∧
      code_order (_n_cores example_simulator) l ∧
      (@ticks (recording example_oracle) 2
         (@set_cycle_mask _ example_masks example_simulator) = true →
       ∀ c, (c < _n_cores example_simulator)%nat → ev_core_cycle c ∈ l) ∧
      (@ticks (recording example_oracle) 4
         (@set_cycle_mask _ example_masks example_simulator) = true →
       ev_dram_cycle ∈ l) ∧
      (@ticks (recording example_oracle) 8
         (@set_cycle_mask _ example_masks example_simulator) = true →
       ev_icnt_cycle ∈ l).
Proof.
  eexists. split; [vm_compute; reflexivity|].
  apply (proj2 (cycle_step_code_order example_oracle example_masks
                  sorting_heap example_simulator)).
  vm_compute. reflexivity.
Defined.

Lemma in_order_lookup (dram_stage n_cores : nat) (l : list event)
    (i j : nat) (x y : event) :
  in_order dram_stage n_cores l → (i < j)%nat →
  l !! i = Some x → l !! j = Some y →
  rank_le (rank dram_stage n_cores x) (rank dram_stage n_cores y).
Proof.
  unfold in_order. intros Hs. revert i j.
  induction Hs as [|e l Hs IH He]; intros i j Hij Hi Hj; [done|].
  destruct j as [|j]; [lia|]. simpl in Hj. destruct i as [|i]; simpl in Hi.
  - injection Hi as ->. eapply Forall_forall in He; [exact He|].
    by eapply list_elem_of_lookup_2.
  - eapply (IH i j); [lia|done|done].
Qed.

(** C2, as the specification has it, fails: in the first step of the
    example all three domains tick, and the memory ticks before the
    interconnect forwards anything and before the interconnect ticks. *)
Lemma cycle_step_spec_order_fails :
  ∃ s',
    @cycle_step _ example_masks sorting_heap example_simulator = Some s' ∧
    world s' =
      [ev_schedule_model (1000, true) 1; ev_pop_finished_tile 0;
       ev_core_cycle 0; ev_dram_cycle; ev_push_memory_response 0 0;
       ev_icnt_pop 0; ev_dram_push 0 0; ev_icnt_pop 1; ev_icnt_push 1 0 0;
       ev_dram_pop 0; ev_icnt_cycle] ∧
    ¬ spec_order (_n_cores example_simulator) (world s').
Proof.
  eexists. split; [vm_compute; reflexivity|]. split; [reflexivity|].
  intros Hs.
  pose proof (in_order_lookup 6 1 _ 3 10 ev_dram_cycle ev_icnt_cycle Hs) as Hle.
  unfold rank_le in Hle. simpl in Hle.
  specialize (Hle ltac:(lia) eq_refl eq_refl). lia.
Qed.

End TraceProofs.

(** ** The model *)
Module ModelProofs.
Import Common Model.

(** *** The request time *)

Lemma whole_request_times_checked :
  forallb whole_request_time_exact (Z.of_nat <$> seq 0 2049) = true.
Proof. vm_compute. reflexivity. Qed.

Lemma request_time_of_whole (n : Z) :
  0 ≤ n ≤ 2048 →
  request_time_of (Json.number_float (Json.double_of_Z n)) = Some (n * 10 ^ 9).
Proof.
  intros Hn. pose proof whole_request_times_checked as Hall.
  rewrite forallb_forall in Hall. specialize (Hall n).
  unfold whole_request_time_exact in Hall. rewrite bool_decide_eq_true in Hall.
  apply Hall. apply list_elem_of_In, list_elem_of_fmap.
  exists (Z.to_nat n). split; [lia|]. apply elem_of_seq. lia.
Qed.

(** C6, as the code has it.  The request time the constructor stores is 0
    when the configuration has no key [request_time]; when the key holds the
    floating-point number [x], it is the [uint64_t] truncation of
    [x * 1000 * 1000 * 1000] in [double] arithmetic, which for a whole
    number [n] up to 2048 is exactly [n * 10^9]: the factor is [10^9]. *)
Theorem request_time_stored `{Collaborators}
    (model_config : gmap string Json.value) :
  (∀ precision name mapping_table root_node_id empty nr_skip0 m,
     Model model_config precision name mapping_table root_node_id empty
       nr_skip0 = Some m →
     stored_request_time model_config = Some (_request_time m)) ∧
  (model_config !! "request_time" = None →
   stored_request_time model_config = Some 0) ∧
  (∀ x,
     model_config !! "request_time" = Some (Json.number_float x) →
     stored_request_time model_config =
       Json.double_to_uint64
         (Json.double_mul
            (Json.double_mul (Json.double_mul x (Json.double_of_Z 1000))
               (Json.double_of_Z 1000))
            (Json.double_of_Z 1000))) ∧
  (∀ n,
     0 ≤ n ≤ 2048 →
     model_config !! "request_time"
       = Some (Json.number_float (Json.double_of_Z n)) →
     stored_request_time model_config = Some (n * 10 ^ 9)).
Proof.
  assert (Hpresent : ∀ j,
            model_config !! "request_time" = Some j →
            stored_request_time model_config = request_time_of j).
  { intros j Hj. unfold stored_request_time, Json.contains, Json.at_key.
    by rewrite Hj. }
  split; [|split; [|split]].
  - intros precision name mapping_table root_node_id empty nr_skip0 m.
    unfold Model.
    destruct (stored_request_time model_config) as [r|]; [|done].
    destruct (stored_partition_id model_config) as [p|]; [|done].
    by intros [= <-].
  - intros Habsent. unfold stored_request_time, Json.contains.
    by rewrite Habsent.
  - intros x Hx. by rewrite (Hpresent _ Hx).
  - intros n Hn Hx. rewrite (Hpresent _ Hx). by apply request_time_of_whole.
Qed.

(** C6, as the specification has it, fails: the value 1 is stored as
    [10^9], not as the [10^12] picoseconds of one second. *)
Lemma request_time_not_as_specified :
  (example_config 0 : gmap string Json.value) !! "request_time"
    = Some (Json.number_float (Json.double_of_Z 1)) ∧
  stored_request_time (example_config 0) = Some (10 ^ 9) ∧
  request_time_as_specified (Json.number_float (Json.double_of_Z 1))
    = Some (10 ^ 12) ∧
  stored_request_time (example_config 0)
    ≠ request_time_as_specified (Json.number_float (Json.double_of_Z 1)).
Proof. vm_compute. repeat split; congruence. Qed.

Lemma request_time_stored_witness :
  (example_config 0 : gmap string Json.value) !! "request_time"
    = Some (Json.number_float (Json.double_of_Z 1)) ∧
  stored_request_time (example_config 0) = Some (1 * 10 ^ 9).
Proof.
  split; [vm_compute; reflexivity|].
  apply (proj2 (proj2 (proj2 (@request_time_stored example_collaborators
                                (example_config 0)))) 1).
  - lia.
  - vm_compute. reflexivity.
Defined.

(** *** The shape of an input *)

(** C7, as the code has it.  The shape of an input is converted exactly
    when the graph has a single input, the shape has four dimensions and its
    last two dimensions are equal; the conversion moves the dimension at
    position 1 to the end.  [initialize_model] makes one tensor for every
    input of the graph, in order, with the shape parsed for that input and
    converted once. *)
Theorem input_shape_conversion `{Collaborators} :
  (∀ n_inputs input_dim,
     nchw_to_nhwc n_inputs input_dim =
       match input_dim with
       | [batch; channel; height; width] =>
           if (n_inputs =? 1)%nat && (height =? width)
           then [batch; height; width; channel]
           else input_dim
       | _ => input_dim
       end) ∧
  (∀ n_inputs inputs m m',
     initialize_inputs n_inputs inputs m = Some m' →
     ∃ dims,
       Forall2
         (λ input input_dim,
            option_map (nchw_to_nhwc n_inputs)
              (parse_shape (_model_config m) (shape input)) = Some input_dim)
         inputs dims ∧
       m' =
         with_tensor_map m
           (fold_left
              (λ ts p,
                 add_input_tensor (_root_node_id m) (name p.1) p.2
                   (_precision m * 16) ts)
              (zip inputs dims) (_tensor_map m))).
Proof.
  split.
  - intros n_inputs input_dim. unfold nchw_to_nhwc.
    destruct input_dim as [|b [|c [|h [|w [|x l]]]]]; simpl;
      rewrite ?andb_false_r; try done.
    destruct (n_inputs =? 1)%nat; simpl; [|done].
    destruct (Z.eqb_spec h w) as [->|Hne].
    + by rewrite bool_decide_eq_true_2.
    + rewrite bool_decide_eq_false_2; [done|]. by intros [= ?].
  - intros n_inputs inputs. induction inputs as [|iter rest IH];
      intros m m' Hinit; simpl in Hinit.
    + injection Hinit as <-. exists []. split; [constructor|]. by destruct m.
    + unfold input_dim_of in Hinit.
      destruct (option_map (nchw_to_nhwc n_inputs)
                  (parse_shape (_model_config m) (shape iter)))
        as [input_dim|] eqn:Hdim; [|done].
      apply IH in Hinit as (dims & Hall & ->). simpl in *.
      exists (input_dim :: dims). split; [by constructor|]. done.
Qed.

(** C7, as the specification has it, fails: a shape whose middle two
    dimensions are equal is left as parsed, a shape whose last two
    dimensions are equal is converted, and only when it is the single input
    of the graph. *)
Lemma nchw_to_nhwc_not_as_specified :
  nchw_to_nhwc 1 [1; 3; 3; 5] = [1; 3; 3; 5] ∧
  nchw_to_nhwc_as_specified [1; 3; 3; 5] = [1; 3; 5; 3] ∧
  nchw_to_nhwc 1 [1; 3; 8; 8] = [1; 8; 8; 3] ∧
  nchw_to_nhwc_as_specified [1; 3; 8; 8] = [1; 3; 8; 8] ∧
  nchw_to_nhwc 2 [1; 3; 8; 8] = [1; 3; 8; 8] ∧
  nchw_to_nhwc 1 [1; 3; 3; 5] ≠ nchw_to_nhwc_as_specified [1; 3; 3; 5].
Proof. vm_compute. repeat split; congruence. Qed.

(** *** [std::map] *)
Section StdMapFacts.
Context {V : Type}.
Implicit Types (m : list (Z * V)) (k : Z) (v : V).

Lemma find_assign_eq k v m : StdMap.find k (StdMap.assign k v m) = Some v.
Proof.
  induction m as [|[k' v'] m IH]; simpl.
  - by rewrite Z.eqb_refl.
  - destruct (Z.ltb_spec k k'); simpl; [by rewrite Z.eqb_refl|].
    destruct (Z.eqb_spec k k') as [->|Hne]; simpl.
    + by rewrite Z.eqb_refl.
    + by destruct (Z.eqb_spec k k').
Qed.

Lemma find_assign_ne k k' v m :
  k ≠ k' → StdMap.find k' (StdMap.assign k v m) = StdMap.find k' m.
Proof.
  intros Hne. induction m as [|[k1 v1] m IH]; simpl.
  - by destruct (Z.eqb_spec k' k).
  - destruct (Z.ltb_spec k k1); simpl.
    + by destruct (Z.eqb_spec k' k).
    + destruct (Z.eqb_spec k k1) as [->|Hne1]; simpl.
      * destruct (Z.eqb_spec k' k1); [congruence|done].
      * by rewrite IH.
Qed.

Lemma elem_of_assign k v m e :
  e ∈ StdMap.assign k v m → e = (k, v) ∨ e ∈ m.
Proof.
  induction m as [|[k1 v1] m IH]; simpl.
  - intros ->%list_elem_of_singleton. by left.
  - destruct (Z.ltb_spec k k1).
    + intros [->|?]%elem_of_cons; [by left|by right].
    + destruct (Z.eqb_spec k k1) as [->|Hne].
      * intros [->|?]%elem_of_cons; [by left|].
        right. by apply list_elem_of_further.
      * intros [->|He]%elem_of_cons; [right; apply list_elem_of_here|].
        destruct (IH He) as [->|?]; [by left|].
        right. by apply list_elem_of_further.
Qed.

Lemma find_Some_elem_of k v m : StdMap.find k m = Some v → (k, v) ∈ m.
Proof.
  induction m as [|[k1 v1] m IH]; simpl; [done|].
  destruct (Z.eqb_spec k k1) as [->|Hne].
  - intros [= ->]. apply list_elem_of_here.
  - intros Hf. apply list_elem_of_further. by apply IH.
Qed.

Lemma assign_ascending k v m : StdMap.ascending m → StdMap.ascending (StdMap.assign k v m).
Proof.
  unfold StdMap.ascending. induction m as [|[k1 v1] m IH]; simpl; intros Hs.
  - repeat constructor.
  - apply StronglySorted_cons in Hs as [Hall Hs].
    destruct (Z.ltb_spec k k1); simpl.
    + apply StronglySorted_cons. split.
      * constructor; [done|]. eapply Forall_impl; [exact Hall|].
        simpl. intros; lia.
      * apply StronglySorted_cons. done.
    + destruct (Z.eqb_spec k k1) as [->|Hne]; simpl.
      * apply StronglySorted_cons. done.
      * apply StronglySorted_cons. split; [|by apply IH].
        apply Forall_forall. intros x Hx.
        apply list_elem_of_fmap in Hx as ([k2 v2] & -> & He).
        apply elem_of_assign in He as [[= -> ->]|He]; simpl; [lia|].
        eapply Forall_forall in Hall; [exact Hall|].
        apply list_elem_of_fmap. by exists (k2, v2).
Qed.

Lemma ascending_NoDup m : StdMap.ascending m → NoDup m.*1.
Proof.
  unfold StdMap.ascending. induction 1 as [|k l Hs IH Hall]; constructor; [|done].
  intros Hin. eapply Forall_forall in Hall; [|exact Hin]. lia.
Qed.

Lemma ascending_find k v m : StdMap.ascending m → (k, v) ∈ m → StdMap.find k m = Some v.
Proof.
  unfold StdMap.ascending. induction m as [|[k1 v1] m IH]; simpl; intros Hs Hin.
  - by apply elem_of_nil in Hin.
  - apply StronglySorted_cons in Hs as [Hall Hs].
    apply elem_of_cons in Hin as [[= -> ->]|Hin].
    + by rewrite Z.eqb_refl.
    + destruct (Z.eqb_spec k k1) as [->|Hne]; [|by apply IH].
      eapply Forall_forall in Hall; [|apply list_elem_of_fmap; by eexists].
      simpl in Hall. lia.
Qed.

End StdMapFacts.

(** *** The truncation of the graph *)
Section Truncation.
Context `{Collaborators}.

Lemma with_nr_skip_same (m : t) : with_nr_skip m (nr_skip m) = m.
Proof. by destruct m. Qed.

Lemma create_all_nr_skip nodes :
  ∀ m c, create_all nodes (with_nr_skip m c) = with_nr_skip (create_all nodes m) c.
Proof.
  induction nodes as [|np rest IH]; intros m c; simpl; [done|].
  destruct (create_operation np (_tensor_map m)) as [[node|] ts].
  - exact (IH (with_operation_map (with_tensor_map m ts)
                 (StdMap.assign (get_id node) node (_operation_map m))) c).
  - exact (IH (with_tensor_map m ts) c).
Qed.

Lemma created_skips_nr_skip nodes :
  ∀ m c, created_skips nodes (with_nr_skip m c) = created_skips nodes m.
Proof.
  induction nodes as [|np rest IH]; intros m c; simpl; [done|].
  destruct (create_operation np (_tensor_map m)) as [[node|] ts].
  - f_equal.
    exact (IH (with_operation_map (with_tensor_map m ts)
                 (StdMap.assign (get_id node) node (_operation_map m))) c).
  - exact (IH (with_tensor_map m ts) c).
Qed.

Lemma create_all_config nodes :
  ∀ m, _model_config (create_all nodes m) = _model_config m ∧
       nr_skip (create_all nodes m) = nr_skip m.
Proof.
  induction nodes as [|np rest IH]; intros m; simpl; [done|].
  destruct (create_operation np (_tensor_map m)) as [[node|] ts].
  - exact (IH (with_operation_map (with_tensor_map m ts)
                 (StdMap.assign (get_id node) node (_operation_map m)))).
  - exact (IH (with_tensor_map m ts)).
Qed.

Lemma created_skips_nonneg nodes : ∀ m, 0 ≤ created_skips nodes m.
Proof.
  induction nodes as [|np rest IH]; intros m; simpl; [done|].
  destruct (create_operation np (_tensor_map m)) as [[node|] ts].
  - match goal with |- 0 ≤ _ + created_skips rest ?m' => specialize (IH m') end.
    destruct (String.eqb _ _); lia.
  - apply IH.
Qed.

Lemma skip_test_spec (m : t) (k : Z) :
  _model_config m !! "nr_atten" = Some (Json.number_integer k) →
  - 2 ^ 30 ≤ k < 2 ^ 30 → nr_skip m + 1 < 2 ^ 31 →
  skip_test m =
    if k =? -1 then Some (nr_skip m, false)
    else Some (nr_skip m + 1, nr_skip m + 1 >=? 2 * k).
Proof.
  intros Hk Hrange Hc. unfold skip_test, Json.at_key. rewrite Hk. simpl.
  destruct (Z.eqb_spec k (-1)); simpl; [done|].
  destruct (Z.ltb_spec (nr_skip m + 1) (2 ^ 31)); [|lia].
  assert (to_int32 k = k) as ->.
  { unfold to_int32. rewrite Z.mod_small; lia. }
  destruct (Z.leb_spec (- 2 ^ 31) (k * 2)); [|lia].
  destruct (Z.ltb_spec (k * 2) (2 ^ 31)); [|lia].
  simpl. by rewrite (Z.mul_comm k 2).
Qed.

(** With [nr_atten = -1] every node is created and nothing is cleared. *)
Lemma initialize_operations_all nodes :
  ∀ m,
    _model_config m !! "nr_atten" = Some (Json.number_integer (-1)) →
    initialize_operations nodes m = Some (create_all nodes m).
Proof.
  induction nodes as [|np rest IH]; intros m Hk; simpl; [done|].
  destruct (create_operation np (_tensor_map m)) as [[node|] ts];
    [|by apply IH].
  destruct (String.eqb (op_type np) "SkipLayerNormalization"); [|by apply IH].
  unfold skip_test, Json.at_key. simpl. rewrite Hk. simpl.
  exact (IH (with_operation_map (with_tensor_map m ts)
               (StdMap.assign (get_id node) node (_operation_map m))) Hk).
Qed.

Lemma truncated_after_cons_skipped count np rest ts (m m' : t) :
  create_operation np (_tensor_map m) = (None, ts) →
  truncated_after count rest (with_tensor_map m ts) m' →
  truncated_after count (np :: rest) m m'.
Proof.
  intros Hc (pre & np' & post & op & -> & Ht & Hop & Hn & ->).
  exists (np :: pre), np', post, op. simpl. rewrite Hc. done.
Qed.

Lemma truncated_after_cons_created count np rest node ts (m m' : t) :
  create_operation np (_tensor_map m) = (Some node, ts) →
  String.eqb (op_type np) "SkipLayerNormalization" = false →
  truncated_after count rest
    (with_operation_map (with_tensor_map m ts)
       (StdMap.assign (get_id node) node (_operation_map m))) m' →
  truncated_after count (np :: rest) m m'.
Proof.
  intros Hc Hty (pre & np' & post & op & -> & Ht & Hop & Hn & ->).
  exists (np :: pre), np', post, op. simpl. rewrite Hc, Hty. done.
Qed.

Lemma truncated_after_cons_counted count np rest node ts (m m' : t) :
  create_operation np (_tensor_map m) = (Some node, ts) →
  String.eqb (op_type np) "SkipLayerNormalization" = true →
  truncated_after count rest
    (with_nr_skip
       (with_operation_map (with_tensor_map m ts)
          (StdMap.assign (get_id node) node (_operation_map m)))
       (nr_skip m + 1)) m' →
  truncated_after (1 + count) (np :: rest) m m'.
Proof.
  intros Hc Hty (pre & np' & post & op & -> & Ht & Hop & Hn & ->).
  exists (np :: pre), np', post, op. simpl. rewrite Hc, Hty.
  rewrite !create_all_nr_skip, created_skips_nr_skip in *. simpl in *.
  repeat split; try done; [lia|].
  f_equal. f_equal. lia.
Qed.

(** The loop from any count [nr_skip m] below the bound: it stops at the
    created [SkipLayerNormalization] node that brings the count to
    [max (nr_skip m + 1) (2 * nr_atten)], if there is one. *)
Lemma initialize_operations_from (k : Z) nodes :
  ∀ m,
    _model_config m !! "nr_atten" = Some (Json.number_integer k) →
    0 ≤ k < 2 ^ 30 → 0 ≤ nr_skip m → nr_skip m < Z.max 1 (2 * k) →
    let bound := Z.max (nr_skip m + 1) (2 * k) in
    (nr_skip m + created_skips nodes m < bound ∧
     initialize_operations nodes m =
       Some (with_nr_skip (create_all nodes m)
               (nr_skip m + created_skips nodes m))) ∨
    (∃ m', initialize_operations nodes m = Some m' ∧
           truncated_after (bound - nr_skip m) nodes m m').
Proof.
  induction nodes as [|np rest IH]; intros m Hk Hrange Hc0 Hc bound.
  - left. simpl. rewrite Z.add_0_r, with_nr_skip_same. split; [lia|done].
  - simpl.
    destruct (create_operation np (_tensor_map m)) as [[node|] ts] eqn:Hcr.
    + set (m2 := with_operation_map (with_tensor_map m ts)
                   (StdMap.assign (get_id node) node (_operation_map m))).
      destruct (String.eqb (op_type np) "SkipLayerNormalization") eqn:Hty.
      * rewrite (skip_test_spec m2 k) by (simpl; (done || lia)).
        destruct (Z.eqb_spec k (-1)); [lia|]. simpl.
        destruct (Z.geb_spec (nr_skip m + 1) (2 * k)) as [Hge|Hlt].
        -- right. rewrite find_assign_eq. eexists. split; [done|].
           exists [], np, rest, node. simpl. rewrite Hcr, Hty. simpl.
           fold m2. repeat split; try done.
           ++ by apply String.eqb_eq.
           ++ subst bound. lia.
           ++ f_equal. f_equal. subst bound. lia.
        -- destruct (IH (with_nr_skip m2 (nr_skip m + 1)))
             as [[Hb Hi]|(m' & Hi & Ht)]; simpl; try (done || lia).
           ++ left. rewrite create_all_nr_skip, created_skips_nr_skip in *.
              simpl in *. rewrite Hi. split; [subst bound; lia|].
              f_equal. destruct (create_all rest m2). simpl. f_equal. lia.
           ++ right. exists m'. split; [done|].
              replace (bound - nr_skip m)
                with (1 + (Z.max (nr_skip m + 1 + 1) (2 * k)
                           - (nr_skip m + 1))) by (subst bound; lia).
              eapply truncated_after_cons_counted; [done|done|].
              exact Ht.
      * destruct (IH m2) as [[Hb Hi]|(m' & Hi & Ht)]; simpl; try done.
        -- left. split; [exact Hb|exact Hi].
        -- right. exists m'. split; [done|].
           by eapply truncated_after_cons_created.
    + destruct (IH (with_tensor_map m ts)) as [[Hb Hi]|(m' & Hi & Ht)];
        simpl; try done.
      * left. split; [exact Hb|exact Hi].
      * right. exists m'. split; [done|].
        by eapply truncated_after_cons_skipped.
Qed.

(** C8, as the code has it.  On a model whose counter [nr_skip] is 0:
    with [nr_atten = -1] every node of the graph is created; with
    [nr_atten = k >= 0] the loop stops at the created
    [SkipLayerNormalization] node that brings their number to
    [max 1 (2 * k)], clears the outputs of that operation and creates no
    further node; when the graph has fewer such nodes, every node is
    created. *)
Theorem nr_atten_truncation (nodes : list NodeProto) (m : t) (k : Z) :
  nr_skip m = 0 →
  (_model_config m !! "nr_atten" = Some (Json.number_integer (-1)) →
   initialize_operations nodes m = Some (create_all nodes m)) ∧
  (0 ≤ k < 2 ^ 30 →
   _model_config m !! "nr_atten" = Some (Json.number_integer k) →
   (created_skips nodes m < Z.max 1 (2 * k) ∧
    initialize_operations nodes m =
      Some (with_nr_skip (create_all nodes m) (created_skips nodes m))) ∨
   (∃ m', initialize_operations nodes m = Some m' ∧
          truncated_after (Z.max 1 (2 * k)) nodes m m')).
Proof.
  intros Hzero. split; [apply initialize_operations_all|].
  intros Hrange Hk.
  destruct (initialize_operations_from k nodes m Hk Hrange) as [Hl|Hr];
    rewrite ?Hzero in *; try lia.
  - left. by rewrite !Z.add_0_l in Hl.
  - right. by rewrite Z.sub_0_r, Z.add_0_l in Hr.
Qed.

Lemma created_skips_app pre :
  ∀ rest m,
    created_skips (pre ++ rest) m =
      created_skips pre m + created_skips rest (create_all pre m).
Proof.
  induction pre as [|np pre IH]; intros rest m; simpl; [done|].
  destruct (create_operation np (_tensor_map m)) as [[node|] ts].
  - rewrite IH. lia.
  - apply IH.
Qed.

Lemma truncated_after_positive count nodes (m m' : t) :
  truncated_after count nodes m m' → 1 ≤ count.
Proof.
  intros (pre & np & post & op & _ & Ht & Hop & <- & _).
  rewrite created_skips_app. simpl.
  destruct (create_operation np (_tensor_map (create_all pre m)))
    as [node ts]. simpl in Hop. subst node.
  apply String.eqb_eq in Ht. rewrite Ht.
  pose proof (created_skips_nonneg pre m). lia.
Qed.

End Truncation.

Lemma nr_atten_truncation_witness :
  ∃ m m',
    example_model 1 = Some m ∧ nr_skip m = 0 ∧
    initialize_operations (graph_node example_proto) m = Some m' ∧
    (_operation_map m').*1 = [1; 2] ∧
    ((created_skips (graph_node example_proto) m < Z.max 1 (2 * 1) ∧
      initialize_operations (graph_node example_proto) m =
        Some (with_nr_skip (create_all (graph_node example_proto) m)
                (created_skips (graph_node example_proto) m))) ∨
     (∃ m', initialize_operations (graph_node example_proto) m = Some m' ∧
            truncated_after (Z.max 1 (2 * 1)) (graph_node example_proto) m m')).
Proof.
  eexists _, _. split; [vm_compute; reflexivity|]. split; [reflexivity|].
  split; [vm_compute; reflexivity|]. split; [reflexivity|].
  eapply (λ Hzero, proj2 (@nr_atten_truncation example_collaborators
                            (graph_node example_proto) _ 1 Hzero)).
  - reflexivity.
  - lia.
  - vm_compute. reflexivity.
Defined.

(** C8, as the specification has it, fails for [nr_atten = 0]: the graph is
    truncated after the first [SkipLayerNormalization] node has been
    created, not after [2 * 0] of them. *)
Lemma nr_atten_zero_truncates_after_one :
  ∃ m m',
    example_model 0 = Some m ∧ nr_skip m = 0 ∧
    _model_config m !! "nr_atten" = Some (Json.number_integer 0) ∧
    initialize_operations (graph_node example_proto) m = Some m' ∧
    (_operation_map m').*1 = [1] ∧
    truncated_after 1 (graph_node example_proto) m m' ∧
    ¬ truncated_after (2 * 0) (graph_node example_proto) m m'.
Proof.
  eexists _, _. split; [vm_compute; reflexivity|]. split; [reflexivity|].
  split; [vm_compute; reflexivity|]. split; [vm_compute; reflexivity|].
  split; [reflexivity|]. split.
  - eexists [], _, _, _. split; [reflexivity|]. split; [reflexivity|].
    split; [reflexivity|]. split; [reflexivity|]. vm_compute. reflexivity.
  - intros Ht. apply truncated_after_positive in Ht. lia.
Qed.

(** *** The ready-queue *)
Section ReadyQueue.
Context `{Collaborators} `{!OperationLaws}.

Lemma filed_find ops p op :
  filed ops → StdMap.find p ops = Some op → get_id op = p.
Proof.
  intros Hf Hp. apply find_Some_elem_of in Hp.
  eapply Forall_forall in Hf; [|exact Hp]. done.
Qed.

Lemma find_key_is_Some (ops : list (Z * Operation)) k :
  k ∈ ops.*1 → is_Some (StdMap.find k ops).
Proof.
  induction ops as [|[k1 v1] ops IH]; simpl.
  - by intros ?%elem_of_nil.
  - intros Hin. destruct (Z.eqb_spec k k1); [by eexists|].
    apply IH. by apply elem_of_cons in Hin as [?|?].
Qed.

Lemma consistent_ids (m : t) :
  consistent m → executable_ids m = Some <$> _executable_layer m.
Proof.
  intros (_ & Hf & Hv & _). unfold executable_ids.
  apply list_eq. intros i. rewrite !list_lookup_fmap.
  destruct (_executable_layer m !! i) as [p|] eqn:Hp; simpl; [|done].
  eapply Forall_lookup in Hv as [op Hop]; [|exact Hp].
  rewrite Hop. simpl. by rewrite (filed_find _ _ _ Hf Hop).
Qed.

(** Filing an operation under its id keeps the state consistent. *)
Lemma consistent_assign (m : t) k v :
  get_id v = k → consistent m →
  consistent (with_operation_map m (StdMap.assign k v (_operation_map m))).
Proof.
  intros Hid (Ha & Hf & Hv & Hn). unfold consistent. simpl.
  split; [by apply assign_ascending|]. split; [|split; [|done]].
  - apply Forall_forall. intros e He.
    apply elem_of_assign in He as [->|He]; [done|].
    eapply Forall_forall in Hf; [exact Hf|done].
  - eapply Forall_impl; [exact Hv|]. simpl. intros p Hp.
    destruct (decide (k = p)) as [->|Hne].
    + rewrite find_assign_eq. by eexists.
    + by rewrite find_assign_ne.
Qed.

Lemma consistent_tensors (m : t) ts :
  consistent m → consistent (with_tensor_map m ts).
Proof. done. Qed.

Lemma initialize_inputs_consistent n inputs :
  ∀ m m', initialize_inputs n inputs m = Some m' → consistent m → consistent m'.
Proof.
  induction inputs as [|iter rest IH]; intros m m'; simpl.
  - by intros [= <-].
  - destruct (input_dim_of _ _ _); [|done]. intros Hi Hc.
    by eapply IH.
Qed.

Lemma initialize_weights_consistent inits :
  ∀ m, consistent m → consistent (initialize_weights inits m).
Proof.
  unfold initialize_weights. induction inits as [|x rest IH]; intros m Hc;
    simpl; [done|]. by apply IH.
Qed.

Lemma initialize_operations_consistent nodes :
  ∀ m m',
    initialize_operations nodes m = Some m' → consistent m → consistent m'.
Proof.
  induction nodes as [|np rest IH]; intros m m'; simpl.
  - by intros [= <-].
  - destruct (create_operation np (_tensor_map m)) as [[node|] ts];
      [|intros Hi Hc; by eapply IH].
    set (m2 := with_operation_map (with_tensor_map m ts)
                 (StdMap.assign (get_id node) node (_operation_map m))).
    intros Hi Hc.
    assert (Hc2 : consistent m2).
    { apply (consistent_assign (with_tensor_map m ts)); done. }
    destruct (String.eqb (op_type np) "SkipLayerNormalization");
      [|by eapply IH].
    destruct (skip_test m2) as [[c [|]]|]; [| |done].
    + rewrite find_assign_eq in Hi. injection Hi as <-.
      apply (consistent_assign (with_nr_skip m2 c)); [|done].
      apply clear_outputs_id.
    + by eapply (IH (with_nr_skip m2 c)).
Qed.

(** Seeding appends keys of the map, each at most once, in key order. *)
Lemma seed_fold todo :
  ∀ m : t,
    let m' :=
      fold_left
        (λ m entry,
           if check_executable entry.2 (_tensor_map m)
           then with_executable_layer m (_executable_layer m ++ [entry.1])
           else m)
        todo m in
    _operation_map m' = _operation_map m ∧
    ∃ l, _executable_layer m' = _executable_layer m ++ l ∧
         l `sublist_of` todo.*1.
Proof.
  induction todo as [|[k v] todo IH]; intros m; simpl.
  - split; [done|]. exists []. by rewrite app_nil_r.
  - destruct (check_executable v (_tensor_map m)).
    + destruct (IH (with_executable_layer m (_executable_layer m ++ [k])))
        as (E1 & l & E2 & Hl). simpl in *. split; [done|].
      exists (k :: l). rewrite E2, <- app_assoc. split; [done|].
      by apply sublist_skip.
    + destruct (IH m) as (E1 & l & E2 & Hl). split; [done|].
      exists l. split; [done|]. by apply sublist_cons.
Qed.

Lemma seed_consistent (m : t) :
  consistent m → _executable_layer m = [] →
  consistent (seed_executable_layer m).
Proof.
  intros (Ha & Hf & _ & _) Hq. unfold seed_executable_layer.
  destruct (seed_fold (_operation_map m) m) as (E1 & l & E2 & Hl).
  unfold consistent. rewrite E1, E2, Hq. simpl.
  split; [done|]. split; [done|]. split.
  - apply Forall_forall. intros p Hp. apply find_key_is_Some.
    by eapply elem_of_sublist.
  - eapply sublist_NoDup; [|exact Hl]. by apply ascending_NoDup.
Qed.

Lemma initialize_all_tiles_consistent todo :
  ∀ m, consistent m → consistent (initialize_all_tiles todo m).
Proof.
  induction todo as [|[key v] todo IH]; intros m Hc; simpl; [done|].
  destruct (StdMap.find key (_operation_map m)) as [val|] eqn:Hval;
    [|by apply IH].
  destruct (initialize_tiles (_mapping_table m) val (_tensor_map m))
    as [val' ts] eqn:Ht.
  apply IH. apply consistent_tensors. apply consistent_assign; [|done].
  pose proof (initialize_tiles_id (_mapping_table m) val (_tensor_map m)) as Hid.
  rewrite Ht in Hid. simpl in Hid. rewrite Hid.
  destruct Hc as (_ & Hf & _). by eapply filed_find.
Qed.

Lemma initialize_model_consistent proto (m m' : t) :
  _operation_map m = [] → _executable_layer m = [] →
  initialize_model proto m = Some m' → consistent m'.
Proof.
  intros Hops Hq. unfold initialize_model.
  destruct (initialize_inputs _ _ m) as [m1|] eqn:H1; [|done].
  destruct (initialize_operations _ _) as [m2|] eqn:H2; [|done].
  intros [= <-].
  assert (Hc : consistent m).
  { unfold consistent. rewrite Hops, Hq. repeat split; constructor. }
  assert (Hq1 : ∀ n inputs (a b : t),
            initialize_inputs n inputs a = Some b →
            _executable_layer b = _executable_layer a).
  { intros n inputs. induction inputs as [|i r IH]; intros a b; simpl.
    - by intros [= <-].
    - destruct (input_dim_of _ _ _); [|done]. intros Hi.
      by rewrite (IH _ _ Hi). }
  assert (Hq2 : ∀ inits (a : t),
            _executable_layer (initialize_weights inits a)
            = _executable_layer a).
  { unfold initialize_weights. intros inits.
    induction inits as [|i r IH]; intros a; simpl; [done|]. by rewrite IH. }
  assert (Hq3 : ∀ nodes (a b : t),
            initialize_operations nodes a = Some b →
            _executable_layer b = _executable_layer a).
  { intros nodes. induction nodes as [|np r IH]; intros a b; simpl.
    - by intros [= <-].
    - destruct (create_operation np (_tensor_map a)) as [[node|] ts];
        [|intros Hi; by rewrite (IH _ _ Hi)].
      destruct (String.eqb _ _); [|intros Hi; by rewrite (IH _ _ Hi)].
      destruct (skip_test _) as [[c [|]]|]; [| |done].
      + rewrite find_assign_eq. by intros [= <-].
      + intros Hi. by rewrite (IH _ _ Hi). }
  apply initialize_all_tiles_consistent, seed_consistent.
  - eapply initialize_operations_consistent; [exact H2|].
    apply initialize_weights_consistent.
    by eapply initialize_inputs_consistent.
  - by rewrite (Hq3 _ _ _ H2), Hq2, (Hq1 _ _ _ _ H1).
Qed.

(** The scan answers "absent" only for an id that is not in the queue. *)
Lemma check_exist_false ops queue op_id :
  filed ops →
  check_exist_in_exeutable_from ops queue op_id = Some false →
  op_id ∉ queue.
Proof.
  intros Hf. induction queue as [|iter rest IH]; simpl.
  - intros _. apply not_elem_of_nil.
  - destruct (StdMap.find iter ops) as [op|] eqn:Hop; [|done].
    rewrite (filed_find _ _ _ Hf Hop).
    destruct (Z.eqb_spec op_id iter); [done|]. intros Hr.
    apply not_elem_of_cons. split; [done|by apply IH].
Qed.

Lemma append_children_consistent children :
  ∀ m m', append_children children m = Some m' → consistent m → consistent m'.
Proof.
  induction children as [|op_id rest IH]; intros m m'; simpl.
  - by intros [= <-].
  - destruct (StdMap.find op_id (_operation_map m)) as [op|] eqn:Hop; [|done].
    destruct (check_executable op (_tensor_map m)); [|apply IH].
    destruct (check_exist_in_exeutable (get_id op) m) as [[|]|] eqn:Hex;
      [apply IH| |done].
    intros Ha Hc. eapply IH; [exact Ha|].
    destruct Hc as (Hasc & Hf & Hv & Hn). unfold consistent. simpl.
    split; [done|]. split; [done|]. split.
    + apply Forall_app. split; [done|]. constructor; [by eexists|constructor].
    + apply NoDup_app. split; [done|]. split; [|apply NoDup_singleton].
      intros x Hx ->%list_elem_of_singleton.
      apply check_exist_false in Hex; [|done].
      rewrite (filed_find _ _ _ Hf Hop) in Hex. done.
Qed.

Lemma set_layer_finish_consistent id (m m' : t) :
  set_layer_finish id m = Some m' → consistent m → consistent m'.
Proof.
  unfold set_layer_finish.
  destruct (StdMap.find id (_operation_map m)) as [op|] eqn:Hop; [|done].
  destruct (set_finish op (_tensor_map m)) as [op' ts] eqn:Hfin.
  intros Ha Hc. eapply append_children_consistent; [exact Ha|].
  apply consistent_tensors, consistent_assign; [|done].
  pose proof (set_finish_id op (_tensor_map m)) as Hid.
  rewrite Hfin in Hid. simpl in Hid. rewrite Hid.
  destruct Hc as (_ & Hf & _). by eapply filed_find.
Qed.

Lemma get_executable_tile_consistent (m : t) :
  consistent m → consistent (get_executable_tile m).2.
Proof.
  intros (Ha & Hf & Hv & Hn). unfold get_executable_tile.
  destruct (_executable_layer m) as [|op rest] eqn:Hq; simpl.
  - unfold consistent. by rewrite Hq.
  - unfold consistent. simpl. apply Forall_cons in Hv as [_ Hv].
    apply NoDup_cons in Hn as [_ Hn]. done.
Qed.

Lemma calls_consistent cs :
  ∀ m m', calls cs m = Some m' → consistent m → consistent m'.
Proof.
  induction cs as [|[id|] cs IH]; intros m m'; simpl.
  - by intros [= <-].
  - destruct (set_layer_finish id m) as [m1|] eqn:Hs; [|done].
    intros Hc Hm. eapply IH; [exact Hc|].
    by eapply set_layer_finish_consistent.
  - intros Hc Hm. eapply IH; [exact Hc|].
    by apply get_executable_tile_consistent.
Qed.

(** [set_layer_finish] only appends to the queue, and what it appends are
    children that were executable when they were looked at. *)
Lemma append_children_appends children :
  ∀ m m',
    append_children children m = Some m' →
    _operation_map m' = _operation_map m ∧ _tensor_map m' = _tensor_map m ∧
    ∃ l, _executable_layer m' = _executable_layer m ++ l ∧
         Forall (λ x, x ∈ children ∧
                      ∃ op, StdMap.find x (_operation_map m) = Some op ∧
                            check_executable op (_tensor_map m) = true) l.
Proof.
  induction children as [|op_id rest IH]; intros m m'; simpl.
  - intros [= <-]. repeat split; try done. exists [].
    by rewrite app_nil_r.
  - assert (Hrest : ∀ m1 : t,
              _operation_map m1 = _operation_map m →
              _tensor_map m1 = _tensor_map m →
              append_children rest m1 = Some m' →
              _operation_map m' = _operation_map m ∧
              _tensor_map m' = _tensor_map m ∧
              ∃ l, _executable_layer m' = _executable_layer m1 ++ l ∧
                   Forall (λ x, x ∈ op_id :: rest ∧
                      ∃ op, StdMap.find x (_operation_map m) = Some op ∧
                            check_executable op (_tensor_map m) = true) l).
    { intros m1 E1 E2 Ha. apply IH in Ha as (F1 & F2 & l & F3 & F4).
      rewrite E1 in F1, F4. rewrite E2 in F2, F4.
      repeat split; try done. exists l. split; [done|].
      eapply Forall_impl; [exact F4|]. simpl. intros x [Hx Hop].
      split; [by apply list_elem_of_further|done]. }
    destruct (StdMap.find op_id (_operation_map m)) as [op|] eqn:Hop; [|done].
    destruct (check_executable op (_tensor_map m)) eqn:Hexe;
      [|by apply Hrest].
    destruct (check_exist_in_exeutable (get_id op) m) as [[|]|];
      [by apply Hrest| |done].
    intros Ha. apply Hrest in Ha as (F1 & F2 & l & F3 & F4); [|done|done].
    repeat split; try done. exists (op_id :: l). simpl in F3.
    rewrite F3, <- app_assoc. split; [done|]. constructor; [|done].
    split; [apply list_elem_of_here|]. by exists op.
Qed.

(** C9.  From a model with no operations and an empty ready-queue,
    [initialize_model] and then any [set_layer_finish] and
    [get_executable_tile] calls leave a ready-queue in which every entry
    points at an operation of the map and no two entries have the same
    operation id; a further [set_layer_finish] only appends operations that
    are executable and were not in the queue, each once. *)
Theorem executable_layer_no_duplicates (proto : ModelProto) (cs : list call)
    (m0 m m' : t) :
  _operation_map m0 = [] → _executable_layer m0 = [] →
  initialize_model proto m0 = Some m →
  calls cs m = Some m' →
  (Forall is_Some (executable_ids m') ∧ NoDup (executable_ids m')) ∧
  (∀ id m'',
     set_layer_finish id m' = Some m'' →
     ∃ l, _executable_layer m'' = _executable_layer m' ++ l ∧ NoDup l ∧
          Forall (λ x, (x ∉ _executable_layer m') ∧
                       ∃ op, StdMap.find x (_operation_map m'') = Some op ∧
                             check_executable op (_tensor_map m'') = true) l).
Proof.
  intros Hops Hq Hinit Hcalls.
  assert (Hc : consistent m')
    by (eapply calls_consistent; [exact Hcalls|];
        by eapply initialize_model_consistent).
  split.
  - rewrite (consistent_ids _ Hc). split.
    + apply Forall_fmap, Forall_true. by eexists.
    + apply (NoDup_fmap_2 Some). by destruct Hc as (_ & _ & _ & Hn).
  - intros id m'' Hfin.
    pose proof (set_layer_finish_consistent _ _ _ Hfin Hc)
      as (_ & _ & _ & Hn).
    unfold set_layer_finish in Hfin.
    destruct (StdMap.find id (_operation_map m')) as [op|]; [|done].
    destruct (set_finish op (_tensor_map m')) as [op' ts].
    apply append_children_appends in Hfin as (E1 & E2 & l & E3 & Hl).
    simpl in *. exists l. rewrite E3 in Hn.
    apply NoDup_app in Hn as (_ & Hdis & Hnl).
    split; [done|]. split; [done|]. rewrite E1, E2.
    apply Forall_forall. intros x Hx. split.
    + intros Hin. by apply (Hdis x).
    + eapply Forall_forall in Hl as [_ Hop]; [exact Hop|done].
Qed.

End ReadyQueue.

Lemma example_operation_laws : @OperationLaws example_collaborators.
Proof. by split. Qed.

Lemma executable_layer_no_duplicates_witness :
  example_model (-1) = Some example_fresh_model ∧
  initialize_model example_proto example_fresh_model
    = Some example_initialized_model ∧
  _executable_layer example_initialized_model = [1] ∧
  ∃ m',
    calls [SetLayerFinish 1; SetLayerFinish 1; GetExecutableTile;
           SetLayerFinish 2] example_initialized_model = Some m' ∧
    _executable_layer m' = [2; 3] ∧
    Forall is_Some (executable_ids m') ∧ NoDup (executable_ids m').
Proof.
  split; [vm_compute; reflexivity|]. split; [vm_compute; reflexivity|].
  split; [reflexivity|]. eexists.
  split; [vm_compute; reflexivity|]. split; [reflexivity|].
  apply (@executable_layer_no_duplicates example_collaborators
           example_operation_laws example_proto
           [SetLayerFinish 1; SetLayerFinish 1; GetExecutableTile;
            SetLayerFinish 2] example_fresh_model example_initialized_model).
  - reflexivity.
  - reflexivity.
  - vm_compute. reflexivity.
  - vm_compute. reflexivity.
Defined.

End ModelProofs.

(** ** The simple DRAM model: bounds, channels and service *)
Module SimpleDramService.
Import Common SimpleDram SimpleDramProofs.

Lemma cycle_channel_config d ch :
  _n_ch (cycle_channel d ch) = _n_ch d ∧
  _latency (cycle_channel d ch) = _latency d ∧
  _dram_req_size (cycle_channel d ch) = _dram_req_size d.
Proof.
  unfold cycle_channel.
  destruct (_waiting_queue d !! ch) as [[|[f a] rest]|]; try done.
  by destruct (f <=? _cycles d).
Qed.

Lemma cycle_config d :
  _n_ch (cycle d) = _n_ch d ∧ _latency (cycle d) = _latency d ∧
  _dram_req_size (cycle d) = _dram_req_size d.
Proof.
  unfold cycle. simpl. generalize (seq 0 (_n_ch d)). intros l. revert d.
  induction l as [|a l IH]; intros d; simpl; [done|].
  destruct (IH (cycle_channel d a)) as (-> & -> & ->).
  apply cycle_channel_config.
Qed.

Lemma cycle_lengths d :
  length (_waiting_queue (cycle d)) = length (_waiting_queue d) ∧
  length (_response_queue (cycle d)) = length (_response_queue d).
Proof.
  unfold cycle. simpl. generalize (seq 0 (_n_ch d)). intros l. revert d.
  induction l as [|a l IH]; intros d; simpl; [done|].
  destruct (IH (cycle_channel d a)) as (-> & ->).
  apply cycle_channel_lengths.
Qed.

(** A tick of a channel whose front entry is due moves that entry; any
    other tick leaves the channel as it is. *)
Lemma cycle_waiting_responses d ch :
  wf d → (ch < _n_ch d)%nat →
  match waiting ch d with
  | (f, a) :: rest =>
      if f <=? _cycles d
      then waiting ch (cycle d) = rest ∧
           responses ch (cycle d) = responses ch d ++ [a]
      else waiting ch (cycle d) = waiting ch d ∧
           responses ch (cycle d) = responses ch d
  | [] => waiting ch (cycle d) = [] ∧ responses ch (cycle d) = responses ch d
  end.
Proof.
  intros Hwf Hch. pose proof (cycle_chan d ch) as H.
  rewrite decide_True in H by done.
  rewrite !waiting_chan, !responses_chan, H. unfold chan_step, chan. simpl.
  destruct (_waiting_queue d !! ch) as [[|[f a] rest]|] eqn:E; simpl;
    [done| |done].
  destruct (f <=? _cycles d); simpl; [|done].
  split; [done|].
  destruct (_response_queue d !! ch) as [r|] eqn:Er; [done|].
  apply lookup_lt_Some in E. apply lookup_ge_None in Er.
  unfold wf in Hwf. lia.
Qed.

(** Once the cycle counter has reached the completion cycles of a channel,
    every tick serves one entry: the channel is drained in as many ticks as
    it has entries. *)
Lemma drains n :
  ∀ d ch F,
    wf d → (ch < _n_ch d)%nat → 0 ≤ _cycles d →
    _cycles d + Z.of_nat n < 2 ^ 64 →
    Forall (λ f, f ≤ F) (waiting ch d).*1 →
    Z.max 0 (F - _cycles d) + Z.of_nat (length (waiting ch d)) ≤ Z.of_nat n →
    waiting ch (Nat.iter n cycle d) = [] ∧
    responses ch (Nat.iter n cycle d) = responses ch d ++ (waiting ch d).*2.
Proof.
  induction n as [|n IH]; intros d ch F Hwf Hch Hc Hb HF Hn.
  - simpl. destruct (waiting ch d); simpl in *; [|lia].
    by rewrite app_nil_r.
  - rewrite Nat.iter_succ_r.
    assert (Hc1 : _cycles (cycle d) = _cycles d + 1).
    { rewrite cycle_cycles. apply wrap64_small. lia. }
    pose proof (cycle_waiting_responses d ch Hwf Hch) as Hstep.
    assert (Hch1 : (ch < _n_ch (cycle d))%nat).
    { by destruct (cycle_config d) as (-> & _). }
    destruct (waiting ch d) as [|[f a] rest] eqn:Ew.
    + destruct Hstep as [Hw Hr].
      destruct (IH (cycle d) ch F) as [E1 E2]; try done.
      * by apply cycle_wf.
      * lia.
      * lia.
      * by rewrite Hw.
      * rewrite Hw. simpl in *. lia.
      * split; [done|]. by rewrite E2, Hw, Hr.
    + apply Forall_cons in HF as [Hf HF]. simpl in Hf.
      destruct (Z.leb_spec f (_cycles d)) as [Hdue|Hnot].
      * destruct Hstep as [Hw Hr].
        destruct (IH (cycle d) ch F) as [E1 E2]; try done.
        -- by apply cycle_wf.
        -- lia.
        -- lia.
        -- by rewrite Hw.
        -- rewrite Hw. simpl in *. lia.
        -- split; [done|]. rewrite E2, Hw, Hr. simpl.
           by rewrite <- app_assoc.
      * destruct Hstep as [Hw Hr].
        destruct (IH (cycle d) ch F) as [E1 E2]; try done.
        -- by apply cycle_wf.
        -- lia.
        -- lia.
        -- rewrite Hw. by apply Forall_cons.
        -- rewrite Hw. simpl in *. lia.
        -- split; [done|]. by rewrite E2, Hw, Hr.
Qed.

(** Before the cycle counter reaches the completion cycle of the front
    entry, the ticks leave the channel as it is. *)
Lemma keeps_waiting n :
  ∀ d ch f a rest,
    wf d → (ch < _n_ch d)%nat →
    waiting ch d = (f, a) :: rest → 0 ≤ _cycles d →
    _cycles d + Z.of_nat n ≤ f → f < 2 ^ 64 →
    waiting ch (Nat.iter n cycle d) = waiting ch d ∧
    responses ch (Nat.iter n cycle d) = responses ch d.
Proof.
  induction n as [|n IH]; intros d ch f a rest Hwf Hch Ew Hc Hf Hb; [done|].
  rewrite Nat.iter_succ_r.
  assert (Hc1 : _cycles (cycle d) = _cycles d + 1).
  { rewrite cycle_cycles. apply wrap64_small. lia. }
  pose proof (cycle_waiting_responses d ch Hwf Hch) as Hstep.
  rewrite Ew in Hstep.
  destruct (Z.leb_spec f (_cycles d)) as [Hdue|Hnot]; [lia|].
  destruct Hstep as [Hw Hr].
  destruct (IH (cycle d) ch f a rest) as [E1 E2]; try done.
  - by apply cycle_wf.
  - by destruct (cycle_config d) as (-> & _).
  - lia.
  - lia.
  - split; [by rewrite E1, Hw|by rewrite E2, Hr].
Qed.


(** What the driver's calls keep: the configuration, the number of queues,
    and that completion cycles are handed out in ascending order. *)
Lemma run_keeps ops :
  ∀ d taken d' taken',
    run ops d taken = Some (d', taken') →
    _n_ch d' = _n_ch d ∧ _latency d' = _latency d ∧
    _dram_req_size d' = _dram_req_size d ∧
    length (_waiting_queue d') = length (_waiting_queue d) ∧
    length (_response_queue d') = length (_response_queue d) ∧
    wrap64 (_cycles d') = wrap64 (_cycles d + ticks ops) ∧
    _last_finish_cycle d ≤ _last_finish_cycle d'.
Proof.
  induction ops as [|o ops IH]; intros d taken d' taken' Hrun.
  - simpl in Hrun. injection Hrun as <- <-. cbn [ticks].
    by rewrite Z.add_0_r.
  - destruct o as [cid request| |cid]; simpl in Hrun; cbn [ticks].
    + destruct (push cid request d) as [d1|] eqn:Hpush; [|done].
      apply IH in Hrun as (E1 & E2 & E3 & E4 & E5 & E6 & E7).
      unfold push in Hpush.
      destruct (_waiting_queue d !! cid) as [q|]; [|done].
      injection Hpush as <-. simpl in *.
      rewrite length_insert in E4. repeat split; try done.
      etrans; [apply MAX_ge_r|done].
    + apply IH in Hrun as (E1 & E2 & E3 & E4 & E5 & E6 & E7).
      destruct (cycle_config d) as (C1 & C2 & C3).
      destruct (cycle_lengths d) as (C4 & C5).
      rewrite cycle_cycles in E6. rewrite cycle_last_finish in E7.
      rewrite <- C1, <- C2, <- C3, <- C4, <- C5. repeat split; try done.
      rewrite E6. unfold wrap64. rewrite Zplus_mod_idemp_l.
      f_equal. lia.
    + destruct (top cid d) as [a|]; [|done].
      destruct (pop cid d) as [d1|] eqn:Hpop; [|done].
      apply IH in Hrun as (E1 & E2 & E3 & E4 & E5 & E6 & E7).
      unfold pop in Hpop.
      destruct (_response_queue d !! cid) as [[|x rest]|]; try done.
      injection Hpop as <-. simpl in *.
      rewrite length_insert in E5. done.
Qed.

Lemma run_cycles_range ops :
  ∀ d taken d' taken',
    run ops d taken = Some (d', taken') →
    0 ≤ _cycles d < 2 ^ 64 → 0 ≤ _cycles d' < 2 ^ 64.
Proof.
  induction ops as [|o ops IH]; intros d taken d' taken' Hrun Hc.
  - simpl in Hrun. by injection Hrun as <- <-.
  - destruct o as [cid request| |cid]; simpl in Hrun.
    + destruct (push cid request d) as [d1|] eqn:Hpush; [|done].
      apply IH in Hrun; [done|]. unfold push in Hpush.
      destruct (_waiting_queue d !! cid) as [q|]; [|done].
      by injection Hpush as <-.
    + apply IH in Hrun; [done|]. rewrite cycle_cycles.
      apply Z.mod_pos_bound. lia.
    + destruct (top cid d) as [a|]; [|done].
      destruct (pop cid d) as [d1|] eqn:Hpop; [|done].
      apply IH in Hrun; [done|]. unfold pop in Hpop.
      destruct (_response_queue d !! cid) as [[|x rest]|]; try done.
      by injection Hpop as <-.
Qed.

(** X1.  In a memory made by the constructor, whatever the driver has done
    since, the channels are exactly those below [dram_channels]: [push] and
    [is_empty] are defined for them and for no other index, and [top] and
    [pop] are defined exactly where [is_empty] answers "no".  The cycle
    counter is the number of ticks, in [uint64_t] arithmetic. *)
Theorem simple_dram_channel_bounds (dram_latency : Z) (dram_channels : nat)
    (dram_req_size indeterminate : Z) (ops : list op) (d : t)
    (taken : list (nat * MemoryAccess)) :
  run ops (SimpleDram dram_latency dram_channels dram_req_size indeterminate) []
    = Some (d, taken) →
  _cycles d = wrap64 (ticks ops) ∧
  ∀ cid,
    (∀ request, is_Some (push cid request d) ↔ (cid < dram_channels)%nat) ∧
    (is_Some (is_empty cid d) ↔ (cid < dram_channels)%nat) ∧
    (is_Some (top cid d) ↔ is_empty cid d = Some false) ∧
    (is_Some (pop cid d) ↔ is_empty cid d = Some false).
Proof.
  intros Hrun.
  pose proof (run_cycles_range _ _ _ _ _ Hrun) as Hc.
  pose proof (run_keeps _ _ _ _ _ Hrun) as (_ & _ & _ & Hw & Hr & Hcyc & _).
  unfold SimpleDram in Hc, Hw, Hr, Hcyc. simpl in Hc, Hw, Hr, Hcyc.
  rewrite length_replicate in Hw. rewrite length_replicate in Hr.
  split.
  { rewrite Z.add_0_l in Hcyc. rewrite <- Hcyc. symmetry.
    apply wrap64_small. apply Hc. lia. }
  intros cid. repeat split.
  - intros [d1 Hpush]. unfold push in Hpush.
    destruct (_waiting_queue d !! cid) as [q|] eqn:E; [|done].
    apply lookup_lt_Some in E. lia.
  - intros Hlt. unfold push.
    destruct (lookup_lt_is_Some_2 (_waiting_queue d) cid) as [q ->]; [lia|].
    by eexists.
  - intros [b Hb]. unfold is_empty in Hb.
    destruct (_response_queue d !! cid) as [q|] eqn:E; [|done].
    apply lookup_lt_Some in E. lia.
  - intros Hlt. unfold is_empty.
    destruct (lookup_lt_is_Some_2 (_response_queue d) cid) as [q ->]; [lia|].
    by eexists.
  - unfold top, is_empty. intros [a Ha].
    by destruct (_response_queue d !! cid) as [[|x rest]|].
  - unfold top, is_empty. intros He.
    by destruct (_response_queue d !! cid) as [[|x rest]|].
  - unfold pop, is_empty. intros [a Ha].
    by destruct (_response_queue d !! cid) as [[|x rest]|].
  - unfold pop, is_empty. intros He.
    by destruct (_response_queue d !! cid) as [[|x rest]|].
Qed.

Lemma simple_dram_channel_bounds_witness :
  ∃ d taken,
    run [Push 1 (example_access 7); Cycle; Cycle; Cycle; Pop 1]
      (SimpleDram 2 2 64 0) [] = Some (d, taken) ∧
    _cycles d = 3 ∧
    is_Some (push 1 (example_access 9) d) ∧ ¬ is_Some (push 2 (example_access 9) d) ∧
    ¬ is_Some (pop 1 d).
Proof.
  eexists _, _. split; [vm_compute; reflexivity|].
  destruct (simple_dram_channel_bounds 2 2 64 0
              [Push 1 (example_access 7); Cycle; Cycle; Cycle; Pop 1] _ _
              ltac:(vm_compute; reflexivity)) as [Hc Hb].
  split; [exact Hc|].
  split; [apply (proj1 (Hb 1%nat)); lia|].
  split.
  - intros Hp. apply (proj1 (Hb 2%nat)) in Hp. lia.
  - intros Hp. apply (proj2 (proj2 (proj2 (Hb 1%nat)))) in Hp. vm_compute in Hp.
    discriminate.
Defined.

(** X2.  The channel of a request.  In a memory made by the constructor with a
    request size and a channel count that are not zero, [get_channel_id]
    names a channel that exists, so that the [push] into it is defined:
    the channels interleave at the granularity of the request size. *)
Theorem get_channel_id_in_range (dram_latency : Z) (dram_channels : nat)
    (dram_req_size indeterminate : Z) (ops : list op) (d : t)
    (taken : list (nat * MemoryAccess)) (access : MemoryAccess) :
  run ops (SimpleDram dram_latency dram_channels dram_req_size indeterminate) []
    = Some (d, taken) →
  (dram_req_size = 0 ∨ dram_channels = 0%nat → get_channel_id access d = None) ∧
  (0 < dram_req_size → (0 < dram_channels)%nat →
   Z.of_nat dram_channels ≤ 2 ^ 32 → 0 ≤ dram_address access →
   ∃ ch : nat,
     get_channel_id access d = Some (Z.of_nat ch) ∧
     (ch < dram_channels)%nat ∧
     Z.of_nat ch = (dram_address access / dram_req_size)
                     mod Z.of_nat dram_channels ∧
     is_Some (push ch access d)).
Proof.
  intros Hrun.
  pose proof (run_keeps _ _ _ _ _ Hrun) as (Hn & _ & Hs & Hw & _).
  unfold SimpleDram in Hn, Hs, Hw. simpl in Hn, Hs, Hw.
  rewrite length_replicate in Hw.
  unfold get_channel_id. rewrite Hn, Hs. split.
  - intros [->| ->]; [done|]. by rewrite orb_true_r.
  - intros Hsize Hch Hfit Haddr.
    rewrite (proj2 (Z.eqb_neq _ _)) by lia.
    rewrite (proj2 (Z.eqb_neq _ _)) by lia. simpl.
    pose proof (Z.mod_pos_bound (dram_address access / dram_req_size)
                  (Z.of_nat dram_channels) ltac:(lia)) as Hm.
    exists (Z.to_nat ((dram_address access / dram_req_size)
                      mod Z.of_nat dram_channels)).
    rewrite Z2Nat.id by lia. split; [|split; [lia|split; [done|]]].
    + f_equal. unfold wrap32. apply Z.mod_small. lia.
    + unfold push.
      destruct (lookup_lt_is_Some_2 (_waiting_queue d)
                  (Z.to_nat ((dram_address access / dram_req_size)
                             mod Z.of_nat dram_channels))) as [q ->]; [lia|].
      by eexists.
Qed.

Lemma get_channel_id_in_range_witness :
  ∃ d taken,
    run [Push 1 (example_access 7); Cycle] (SimpleDram 2 2 64 0) []
      = Some (d, taken) ∧
    ∃ ch : nat,
      get_channel_id (example_access 9) d = Some (Z.of_nat ch) ∧
      (ch < 2)%nat ∧
      Z.of_nat ch = (dram_address (example_access 9) / 64) mod Z.of_nat 2 ∧
      is_Some (push ch (example_access 9) d).
Proof.
  eexists _, _. split; [vm_compute; reflexivity|].
  apply (proj2 (get_channel_id_in_range 2 2 64 0
                  [Push 1 (example_access 7); Cycle] _ _ (example_access 9)
                  ltac:(vm_compute; reflexivity))).
  - lia.
  - lia.
  - vm_compute. discriminate.
  - vm_compute. discriminate.
Defined.

(** X3.  Completion cycles are handed out in the order of the pushes, over all
    channels together: a request pushed later, into whatever channel, is
    scheduled no earlier than a request pushed before it. *)
Theorem completion_cycles_monotone (d d1 d2 d3 : t) (c1 c2 : nat)
    (a1 a2 : MemoryAccess) (ops : list op)
    (taken taken2 : list (nat * MemoryAccess)) :
  push c1 a1 d = Some d1 →
  run ops d1 taken = Some (d2, taken2) →
  push c2 a2 d2 = Some d3 →
  ∃ f1 f2,
    last (waiting c1 d1) = Some (f1, set_response a1) ∧
    last (waiting c2 d3) = Some (f2, set_response a2) ∧
    f1 ≤ f2.
Proof.
  intros H1 Hrun H3.
  pose proof (run_keeps _ _ _ _ _ Hrun) as (_ & _ & _ & _ & _ & _ & Hle).
  unfold push in H1, H3.
  destruct (_waiting_queue d !! c1) as [q1|] eqn:E1; [|done].
  destruct (_waiting_queue d2 !! c2) as [q2|] eqn:E2; [|done].
  injection H1 as <-. injection H3 as <-.
  eexists _, _. unfold waiting. simpl in *.
  rewrite !list_lookup_insert_eq by (by eapply lookup_lt_Some). simpl.
  rewrite !last_snoc. split; [done|]. split; [done|].
  etrans; [exact Hle|]. apply MAX_ge_r.
Qed.

Lemma completion_cycles_monotone_witness :
  ∃ d1 d2 taken2 d3 f1 f2,
    push 1 (example_access 7) example_dram = Some d1 ∧
    run example_ops d1 [] = Some (d2, taken2) ∧
    push 0 (example_access 9) d2 = Some d3 ∧
    last (waiting 1 d1) = Some (f1, set_response (example_access 7)) ∧
    last (waiting 0 d3) = Some (f2, set_response (example_access 9)) ∧
    f1 ≤ f2.
Proof.
  eexists _, _, _, _.
  destruct (completion_cycles_monotone example_dram _ _ _ 1 0
              (example_access 7) (example_access 9) example_ops [] _
              ltac:(reflexivity) ltac:(vm_compute; reflexivity)
              ltac:(vm_compute; reflexivity)) as (f1 & f2 & E1 & E2 & Hle).
  exists f1, f2. split; [reflexivity|]. split; [vm_compute; reflexivity|].
  split; [vm_compute; reflexivity|]. done.
Defined.

Lemma ticks_nonneg ops : 0 ≤ ticks ops.
Proof. induction ops as [|[]]; simpl; lia. Qed.

(** X4.  A channel is drained.  In a memory made by the constructor, whatever
    the driver has done, a channel left without further pushes is served
    completely: once the cycle counter has reached [_last_finish_cycle],
    every tick moves one entry, so after
    [max(0, _last_finish_cycle - _cycles) + (number of waiting entries)]
    ticks the waiting queue is empty and its accesses stand at the back of
    the response queue, in the order they were waiting in. *)
Theorem simple_dram_drains (dram_latency : Z) (dram_channels : nat)
    (dram_req_size indeterminate : Z) (ops : list op) (d : t)
    (taken : list (nat * MemoryAccess)) (ch : nat) (n : nat) :
  run ops (SimpleDram dram_latency dram_channels dram_req_size indeterminate) []
    = Some (d, taken) →
  (ch < dram_channels)%nat →
  ticks ops + Z.of_nat n < 2 ^ 64 →
  Z.max 0 (_last_finish_cycle d - _cycles d)
    + Z.of_nat (length (waiting ch d)) ≤ Z.of_nat n →
  waiting ch (Nat.iter n cycle d) = [] ∧
  responses ch (Nat.iter n cycle d) = responses ch d ++ (waiting ch d).*2.
Proof.
  intros Hrun Hch Hfit Hn.
  set (d0 := SimpleDram dram_latency dram_channels dram_req_size indeterminate)
    in *.
  assert (Hwf0 : wf d0) by (unfold wf, d0, SimpleDram; simpl;
                            by rewrite !length_replicate).
  assert (Hord0 : waiting_ordered d0).
  { intros c. unfold waiting, d0, SimpleDram. simpl.
    destruct (replicate dram_channels [] !! c) as [x|] eqn:E;
      [|split; constructor].
    apply lookup_replicate in E as [-> _]. split; constructor. }
  pose proof (run_keeps _ _ _ _ _ Hrun) as (Hnch & _ & _ & Hw & Hr & Hcyc & _).
  pose proof (run_cycles_range _ _ _ _ _ Hrun) as Hc.
  destruct (run_stream _ _ _ _ _ Hwf0 Hord0 Hrun) as [Hord _].
  unfold d0, SimpleDram in Hnch, Hw, Hr, Hcyc, Hc.
  simpl in Hnch, Hw, Hr, Hcyc, Hc.
  pose proof (ticks_nonneg ops) as Ht.
  assert (Hcd : _cycles d = ticks ops).
  { rewrite <- (wrap64_small (_cycles d)) by (apply Hc; lia).
    rewrite Hcyc. apply wrap64_small. lia. }
  apply (drains n d ch (_last_finish_cycle d)).
  - unfold wf. by rewrite Hw, Hr.
  - by rewrite Hnch.
  - lia.
  - lia.
  - apply Hord.
  - done.
Qed.

Lemma simple_dram_drains_witness :
  ∃ d taken,
    run [Push 1 (example_access 7); Cycle; Push 1 (example_access 9)]
      (SimpleDram 2 2 64 0) [] = Some (d, taken) ∧
    waiting 1 (Nat.iter 4 cycle d) = [] ∧
    responses 1 (Nat.iter 4 cycle d) = responses 1 d ++ (waiting 1 d).*2.
Proof.
  eexists _, _. split; [vm_compute; reflexivity|].
  eapply (simple_dram_drains 2 2 64 0
            [Push 1 (example_access 7); Cycle; Push 1 (example_access 9)]).
  - vm_compute. reflexivity.
  - lia.
  - vm_compute. reflexivity.
  - vm_compute. discriminate.
Defined.

(** X5.  The latency of an idle channel is exact.  A request pushed at cycle [c]
    into a channel with nothing waiting, when no earlier request was
    scheduled beyond [c + _latency], is not in the response queue after
    [_latency] ticks and is at its back after one more tick. *)
Theorem simple_dram_exact_latency (d d1 : t) (ch : nat)
    (request : MemoryAccess) :
  wf d → (ch < _n_ch d)%nat → waiting ch d = [] →
  0 ≤ _cycles d → 0 ≤ _latency d → _cycles d + _latency d + 1 < 2 ^ 64 →
  _last_finish_cycle d ≤ _cycles d + _latency d →
  push ch request d = Some d1 →
  responses ch (Nat.iter (Z.to_nat (_latency d)) cycle d1) = responses ch d ∧
  responses ch (Nat.iter (S (Z.to_nat (_latency d))) cycle d1)
    = responses ch d ++ [set_response request].
Proof.
  intros Hwf Hch Hidle Hc Hl Hfit Hlast Hpush.
  pose proof (push_wf _ _ _ _ Hpush Hwf) as Hwf1.
  unfold push in Hpush. unfold waiting in Hidle.
  destruct (_waiting_queue d !! ch) as [q|] eqn:Hq; [|done].
  simpl in Hidle. subst q. injection Hpush as <-.
  set (d1 := mk _ _ _ _ _ _ _) in *.
  assert (Hfin : MAX (wrap64 (_cycles d + _latency d)) (_last_finish_cycle d)
                 = _cycles d + _latency d).
  { rewrite wrap64_small by lia. unfold MAX.
    destruct (Z.gtb_spec (_cycles d + _latency d) (_last_finish_cycle d)); lia. }
  assert (Hw1 : waiting ch d1
                = [(_cycles d + _latency d, set_response request)]).
  { unfold waiting, d1. simpl.
    rewrite list_lookup_insert_eq by (by eapply lookup_lt_Some).
    simpl. by rewrite Hfin. }
  assert (Hr1 : responses ch d1 = responses ch d) by done.
  split.
  - destruct (keeps_waiting (Z.to_nat (_latency d)) d1 ch _ _ _ Hwf1 Hch Hw1)
      as [_ ->]; [done| |lia|done].
    simpl. lia.
  - destruct (drains (S (Z.to_nat (_latency d))) d1 ch
                (_cycles d + _latency d) Hwf1 Hch) as [_ ->].
    + done.
    + simpl _cycles. lia.
    + rewrite Hw1. by repeat constructor.
    + rewrite Hw1. simpl _cycles. simpl length. lia.
    + by rewrite Hw1, Hr1.
Qed.

Lemma simple_dram_exact_latency_witness :
  ∃ d1,
    push 1 (example_access 7) example_dram = Some d1 ∧
    responses 1 (Nat.iter 2 cycle d1) = [] ∧
    responses 1 (Nat.iter 3 cycle d1) = [set_response (example_access 7)].
Proof.
  eexists. split; [reflexivity|].
  apply (simple_dram_exact_latency example_dram _ 1 (example_access 7)).
  - reflexivity.
  - vm_compute. lia.
  - reflexivity.
  - vm_compute. discriminate.
  - vm_compute. discriminate.
  - vm_compute. reflexivity.
  - vm_compute. discriminate.
  - reflexivity.
Defined.

End SimpleDramService.

(** ** The model: its life cycle, its shapes and its ready-queue *)
Module ModelLifecycle.
Import Common Model ModelProofs.

Section Lifecycle.
Context `{Collaborators}.

Lemma with_executable_layer_same (m : t) :
  with_executable_layer m (_executable_layer m) = m.
Proof. by destruct m. Qed.

(** X6.  The start time is set once: of any calls of [update_start_time], the
    first one made on a model that has not started decides [_start_time],
    and a model that has started is left as it is. *)
Theorem update_start_time_first_wins (m : t) (times : list Z) :
  fold_left (λ m start_time, update_start_time start_time m) times m =
    if _started m then m
    else match times with
         | [] => m
         | first :: _ => update_start_time first m
         end.
Proof.
  assert (Hstarted : ∀ l (a : t),
            _started a = true →
            fold_left (λ m start_time, update_start_time start_time m) l a = a).
  { induction l as [|x l IH]; intros a Ha; simpl; [done|].
    unfold update_start_time at 2. rewrite Ha. by apply IH. }
  destruct (_started m) eqn:Hs; [by apply Hstarted|].
  destruct times as [|first rest]; simpl; [done|].
  apply Hstarted. unfold update_start_time. by rewrite Hs.
Qed.

(** X7.  The ready-queue is served first in, first out: the [n]-th call of
    [get_executable_tile] after [n] earlier ones returns the entry at
    position [n] of the queue, or the null pointer when the queue had no
    more than [n] entries, and the calls leave everything but the queue as
    it was. *)
Theorem get_executable_tile_fifo (m : t) (n : nat) :
  calls (replicate n GetExecutableTile) m
    = Some (with_executable_layer m (drop n (_executable_layer m))) ∧
  (get_executable_tile
     (with_executable_layer m (drop n (_executable_layer m)))).1
    = _executable_layer m !! n.
Proof.
  split.
  - revert m. induction n as [|n IH]; intros m; simpl.
    + by rewrite drop_0, with_executable_layer_same.
    + rewrite IH. unfold get_executable_tile.
      destruct (_executable_layer m) as [|op rest] eqn:Hq; simpl.
      * by rewrite Hq, drop_nil.
      * done.
  - unfold get_executable_tile. simpl.
    destruct (drop n (_executable_layer m)) as [|op rest] eqn:Hd; simpl.
    + symmetry. apply lookup_ge_None. apply drop_nil_inv in Hd. lia.
    + rewrite <- (Nat.add_0_r n), <- lookup_drop, Hd. done.
Qed.

Lemma fold_finish_false (ops : list (Z * Operation)) :
  fold_left (λ finish entry, finish && check_finish entry.2) ops false = false.
Proof. induction ops as [|e ops IH]; simpl; [done|exact IH]. Qed.

(** X8.  [check_finish] answers "yes" exactly when every operation of the map
    has finished; so a model that holds no operation, as every model does
    before [initialize_model], counts as finished. *)
Theorem check_finish_model_spec (m : t) :
  (check_finish_model m = true ↔
   Forall (λ entry, check_finish entry.2 = true) (_operation_map m)) ∧
  (∀ model_config precision name mapping_table root_node_id empty nr_skip0 m0,
     Model model_config precision name mapping_table root_node_id empty
       nr_skip0 = Some m0 →
     check_finish_model m0 = true).
Proof.
  split.
  - unfold check_finish_model. induction (_operation_map m) as [|e ops IH];
      simpl; [by split; [constructor|]|].
    destruct (check_finish e.2) eqn:He.
    + rewrite IH. split; [by constructor|by inversion 1].
    + rewrite fold_finish_false. split; [done|].
      inversion 1; subst. congruence.
  - intros cfg precision name mt root empty c m0. unfold Model.
    destruct (stored_request_time cfg); [|done].
    destruct (stored_partition_id cfg); [|done].
    by intros [= <-].
Qed.


(** *** The shape of an input *)

(** X9.  The conversion of a shape reorders its dimensions and does nothing
    else: the converted shape has the same dimensions with the same
    multiplicities, hence the same rank and the same number of elements. *)
Theorem nchw_to_nhwc_permutes (n_inputs : nat) (input_dim : list Z) :
  nchw_to_nhwc n_inputs input_dim ≡ₚ input_dim ∧
  length (nchw_to_nhwc n_inputs input_dim) = length input_dim ∧
  foldr Z.mul 1 (nchw_to_nhwc n_inputs input_dim) = foldr Z.mul 1 input_dim.
Proof.
  assert (Hp : nchw_to_nhwc n_inputs input_dim ≡ₚ input_dim).
  { unfold nchw_to_nhwc.
    destruct ((n_inputs =? 1)%nat && (length input_dim =? 4)%nat
              && bool_decide (input_dim !! 2%nat = input_dim !! 3%nat));
      [|done].
    destruct input_dim as [|batch [|channel rest]]; simpl; [done|done|].
    rewrite (Permutation_cons_append rest channel). done. }
  split; [done|]. split; [by rewrite Hp|].
  apply (foldr_permutation (=) Z.mul 1); [|done].
  intros j1 a1 j2 a2 b _ _ _. lia.
Qed.

(** [uint32_t] of a [double]: defined exactly when the value, truncated
    toward zero, is in the range of the type. *)
Lemma double_to_uint32_Some (x : Json.double) (v : Z) :
  Json.double_to_uint32 x = Some v ↔
  Json.double_trunc x = Some v ∧ 0 ≤ v < 2 ^ 32.
Proof.
  unfold Json.double_to_uint32.
  destruct (Json.double_trunc x) as [u|]; [|split; [done|by intros [? _]]].
  destruct (Z.leb_spec 0 u), (Z.ltb_spec u (2 ^ 32)); simpl; split;
    try done; try (intros [[= ->] ?]; lia).
  - intros [= ->]. split; [done|lia].
  - by intros [[= ->] _].
Qed.

Lemma double_to_uint32_None (x : Json.double) :
  Json.double_to_uint32 x = None ↔
  ∀ v, Json.double_trunc x = Some v → v < 0 ∨ 2 ^ 32 ≤ v.
Proof.
  split.
  - intros Hnone v Hv.
    destruct (decide (0 ≤ v < 2 ^ 32)) as [Hin|Hout]; [|lia].
    assert (Hs : Json.double_to_uint32 x = Some v)
      by by apply double_to_uint32_Some.
    by rewrite Hnone in Hs.
  - intros Hall. destruct (Json.double_to_uint32 x) as [v|] eqn:E; [|done].
    apply double_to_uint32_Some in E as [Hv Hin].
    specialize (Hall v Hv). lia.
Qed.

(** What [_model_config[key]] gives when it is converted to [uint32_t],
    by the kind of the value under [key]. *)
Lemma to_uint32_at_key (cfg : gmap string Json.value) (key : string) :
  match cfg !! key with
  | Some (Json.number_integer z) =>
      Json.to_uint32 (Json.at_key cfg key) = Some (wrap32 z)
  | Some (Json.boolean b) =>
      Json.to_uint32 (Json.at_key cfg key) = Some (if b then 1 else 0)
  | Some (Json.number_float x) =>
      Json.to_uint32 (Json.at_key cfg key) = Json.double_to_uint32 x
  | _ => Json.to_uint32 (Json.at_key cfg key) = None
  end.
Proof.
  unfold Json.at_key. destruct (cfg !! key) as [j|]; simpl; [|done].
  by destruct j.
Qed.

(** X10.  The dynamic axes of an input shape.  A dimension of the file is a
    dynamic axis when its value is 0 and it has a name; it is then read
    from the model configuration and converted to [uint32_t].  The shape
    cannot be parsed exactly when, for some dynamic axis, the conversion is
    not defined: the name is absent from the configuration or is there with
    null, a string, an array or an object (the conversion throws), or with
    a floating-point number whose value truncated toward zero is not in the
    range of [uint32_t] (a NaN and an infinity included).  An integer is
    taken modulo 2^32, a boolean as 1 or 0, a floating-point number in
    range truncated; a dimension that is not a dynamic axis is taken as it
    is, whatever the configuration holds.  [initialize_model] fails when
    the shape of one of its inputs cannot be parsed. *)
Theorem parse_shape_dynamic_axes (cfg : gmap string Json.value)
    (sh : list Dimension) :
  (parse_shape cfg sh = None ↔
   ∃ d, d ∈ sh ∧ to_int32 (dim_value d) = 0 ∧ dim_param d ≠ "" ∧
        match cfg !! dim_param d with
        | Some (Json.number_integer _) | Some (Json.boolean _) => False
        | Some (Json.number_float x) =>
            ∀ v, Json.double_trunc x = Some v → v < 0 ∨ 2 ^ 32 ≤ v
        | _ => True
        end) ∧
  (∀ dims,
     parse_shape cfg sh = Some dims →
     length dims = length sh ∧
     ∀ i d, sh !! i = Some d →
            if decide (to_int32 (dim_value d) = 0 ∧ dim_param d ≠ "")
            then match cfg !! dim_param d with
                 | Some (Json.number_integer z) =>
                     dims !! i = Some (wrap32 z)
                 | Some (Json.boolean b) =>
                     dims !! i = Some (if b then 1 else 0)
                 | Some (Json.number_float x) =>
                     ∃ v, Json.double_trunc x = Some v ∧ 0 ≤ v < 2 ^ 32 ∧
                          dims !! i = Some v
                 | _ => False
                 end
            else dims !! i = Some (wrap32 (to_int32 (dim_value d)))) ∧
  (∀ proto (m : t) input,
     _model_config m = cfg → input ∈ graph_input proto → shape input = sh →
     parse_shape cfg sh = None → initialize_model proto m = None).
Proof.
  assert (Hdim : ∀ d,
            parse_dimension cfg d =
              if decide (to_int32 (dim_value d) = 0 ∧ dim_param d ≠ "")
              then Json.to_uint32 (Json.at_key cfg (dim_param d))
              else Some (wrap32 (to_int32 (dim_value d)))).
  { intros d. unfold parse_dimension.
    destruct (Z.eqb_spec (to_int32 (dim_value d)) 0) as [Hz|Hz]; simpl.
    - destruct (String.eqb_spec (dim_param d) "") as [Hp|Hp]; simpl.
      + rewrite decide_False; [done|]. by intros [_ ?].
      + by rewrite decide_True.
    - rewrite decide_False; [done|]. by intros [? _]. }
  assert (Hnone : ∀ key,
            Json.to_uint32 (Json.at_key cfg key) = None ↔
            match cfg !! key with
            | Some (Json.number_integer _) | Some (Json.boolean _) => False
            | Some (Json.number_float x) =>
                ∀ v, Json.double_trunc x = Some v → v < 0 ∨ 2 ^ 32 ≤ v
            | _ => True
            end).
  { intros key. pose proof (to_uint32_at_key cfg key) as Hk.
    destruct (cfg !! key) as [[|b|z|x|s|]|]; rewrite Hk; try done.
    apply double_to_uint32_None. }
  split; [|split].
  - unfold parse_shape. rewrite eq_None_not_Some, mapM_is_Some.
    rewrite <- Exists_Forall_neg
      by (intros d; simpl; destruct (parse_dimension cfg d);
          [left; by eexists|right; by intros [? ?]]).
    rewrite Exists_exists. split.
    + intros (d & Hin & Hd). exists d. split; [done|]. simpl in Hd.
      rewrite Hdim in Hd. destruct (decide _) as [[Hz Hp]|_].
      * split; [done|]. split; [done|].
        apply Hnone. by apply eq_None_not_Some.
      * exfalso. apply Hd. by eexists.
    + intros (d & Hin & Hz & Hp & Hbad). exists d. split; [done|]. simpl.
      apply Hnone in Hbad.
      rewrite Hdim, decide_True by done. rewrite Hbad. by intros [? ?].
  - intros dims Hparse. unfold parse_shape in Hparse.
    apply mapM_Some in Hparse. split; [symmetry; by eapply Forall2_length|].
    intros i d Hi.
    destruct (Forall2_lookup_l _ _ _ _ _ Hparse Hi) as (y & Hy & Hd).
    rewrite Hy. rewrite Hdim in Hd.
    destruct (decide _) as [_|_]; [|done].
    pose proof (to_uint32_at_key cfg (dim_param d)) as Hk.
    destruct (cfg !! dim_param d) as [[|b|z|x|s|]|]; rewrite Hk in Hd;
      try done.
    apply double_to_uint32_Some in Hd as [Hv Hin]. by exists y.
  - intros proto m input Hcfg Hin Hsh Hfails. unfold initialize_model.
    assert (Hfail : ∀ n inputs (a : t),
              _model_config a = cfg → input ∈ inputs →
              initialize_inputs n inputs a = None).
    { intros n inputs. induction inputs as [|i rest IH]; intros a Ha Hi.
      - by apply elem_of_nil in Hi.
      - simpl. unfold input_dim_of. rewrite Ha.
        apply elem_of_cons in Hi as [<-|Hi].
        + by rewrite Hsh, Hfails.
        + destruct (parse_shape cfg (shape i)); simpl; [|done].
          by apply IH. }
    by rewrite Hfail.
Qed.


(** *** A configuration without [nr_atten] *)

(** X11.  When the model configuration has no number under [nr_atten] (the key is
    absent, or holds null, a string, an array or an object), the test made
    on a created [SkipLayerNormalization] node throws: [initialize_model]'s
    loop fails exactly when the graph yields such an operation, and creates
    every node otherwise. *)
Theorem nr_atten_not_a_number (nodes : list NodeProto) (m : t) :
  Json.at_key (_model_config m) "nr_atten" = Json.null ∨
  (∃ s, Json.at_key (_model_config m) "nr_atten" = Json.string_value s) ∨
  Json.at_key (_model_config m) "nr_atten" = Json.structured →
  initialize_operations nodes m =
    if 0 <? created_skips nodes m then None else Some (create_all nodes m).
Proof.
  intros Hj.
  assert (Hskip : ∀ a : t, _model_config a = _model_config m →
                           skip_test a = None).
  { intros a Ha. unfold skip_test. rewrite Ha.
    destruct Hj as [->|[[s ->]| ->]]; simpl;
      by destruct (nr_skip a + 1 <? 2 ^ 31). }
  assert (Hgen : ∀ a : t, _model_config a = _model_config m →
            initialize_operations nodes a =
              if 0 <? created_skips nodes a then None
              else Some (create_all nodes a)); [|by apply Hgen].
  clear Hj. induction nodes as [|np rest IH]; intros a Ha; simpl; [done|].
  destruct (create_operation np (_tensor_map a)) as [[node|] ts];
    [|by apply IH].
  set (a2 := with_operation_map (with_tensor_map a ts)
               (StdMap.assign (get_id node) node (_operation_map a))).
  destruct (String.eqb (op_type np) "SkipLayerNormalization").
  - rewrite (Hskip a2) by done.
    pose proof (created_skips_nonneg rest a2).
    destruct (Z.ltb_spec 0 (1 + created_skips rest a2)); [done|lia].
  - rewrite Z.add_0_l. by apply IH.
Qed.

End Lifecycle.

Lemma nr_atten_not_a_number_witness :
  let m := @mk example_collaborators "example" 0 1 ∅ 0 None tt [] [] [] 0
             false 0 in
  Json.at_key (_model_config m) "nr_atten" = Json.null ∧
  0 < created_skips (graph_node example_proto) m ∧
  initialize_operations (graph_node example_proto) m =
    if 0 <? created_skips (graph_node example_proto) m then None
    else Some (create_all (graph_node example_proto) m).
Proof.
  split; [reflexivity|]. split; [reflexivity|].
  apply (@nr_atten_not_a_number example_collaborators). left. reflexivity.
Defined.


(** *** The ready-queue, once the model is initialised *)
Section Queue.
Context `{Collaborators} `{!OperationLaws}.

Lemma StronglySorted_sublist {A} (R : A → A → Prop) (l k : list A) :
  k `sublist_of` l → StronglySorted R l → StronglySorted R k.
Proof.
  induction 1 as [|x k l Hsub IH|x k l Hsub IH]; intros Hs.
  - constructor.
  - apply StronglySorted_cons in Hs as [Hall Hs].
    apply StronglySorted_cons. split; [|by apply IH].
    apply Forall_forall. intros y Hy. eapply Forall_forall in Hall; [done|].
    by eapply elem_of_sublist.
  - apply StronglySorted_cons in Hs as [_ Hs]. by apply IH.
Qed.

(** The scan of the queue decides membership, when every entry of the
    queue points at an operation filed under its id. *)
Lemma check_exist_decides (ops : list (Z * Operation)) queue op_id :
  filed ops → Forall (λ p, is_Some (StdMap.find p ops)) queue →
  check_exist_in_exeutable_from ops queue op_id
    = Some (bool_decide (op_id ∈ queue)).
Proof.
  intros Hf. induction queue as [|iter rest IH]; intros Hq; simpl.
  - done.
  - apply Forall_cons in Hq as [[op Hop] Hq]. rewrite Hop.
    rewrite (filed_find _ _ _ Hf Hop).
    destruct (Z.eqb_spec op_id iter) as [->|Hne].
    + by rewrite bool_decide_eq_true_2 by apply list_elem_of_here.
    + rewrite IH by done. f_equal. apply bool_decide_ext.
      rewrite elem_of_cons. split; [by right|by intros [?|?]].
Qed.

(** Seeding appends the keys of the executable operations, in map order. *)
Lemma seed_fold_exact (todo : list (Z * Operation)) :
  ∀ m : t,
    fold_left
      (λ m entry,
         if check_executable entry.2 (_tensor_map m)
         then with_executable_layer m (_executable_layer m ++ [entry.1])
         else m)
      todo m
    = with_executable_layer m
        (_executable_layer m ++
         (filter (λ e, check_executable e.2 (_tensor_map m) = true) todo).*1).
Proof.
  induction todo as [|[k v] todo IH]; intros m; simpl.
  - by rewrite app_nil_r, with_executable_layer_same.
  - rewrite filter_cons. simpl.
    destruct (check_executable v (_tensor_map m)) eqn:Hexe.
    + rewrite decide_True by done. rewrite IH. simpl.
      by rewrite <- app_assoc.
    + rewrite decide_False by done. by rewrite IH.
Qed.

Lemma initialize_all_tiles_queue (todo : list (Z * Operation)) :
  ∀ m : t, _executable_layer (initialize_all_tiles todo m) = _executable_layer m.
Proof.
  induction todo as [|[key v] todo IH]; intros m; simpl; [done|].
  destruct (StdMap.find key (_operation_map m)) as [val|]; [|by apply IH].
  destruct (initialize_tiles (_mapping_table m) val (_tensor_map m))
    as [val' ts].
  by rewrite IH.
Qed.

Lemma initialize_inputs_queue n inputs :
  ∀ a b : t,
    initialize_inputs n inputs a = Some b →
    _executable_layer b = _executable_layer a ∧
    _operation_map b = _operation_map a.
Proof.
  induction inputs as [|i r IH]; intros a b; simpl.
  - by intros [= <-].
  - destruct (input_dim_of _ _ _); [|done]. intros Hi.
    by destruct (IH _ _ Hi) as [-> ->].
Qed.

Lemma initialize_weights_queue inits :
  ∀ a : t,
    _executable_layer (initialize_weights inits a) = _executable_layer a ∧
    _operation_map (initialize_weights inits a) = _operation_map a.
Proof.
  unfold initialize_weights.
  induction inits as [|i r IH]; intros a; simpl; [done|].
  by destruct (IH (with_tensor_map a
                     (add_initializer_tensor (_root_node_id a) i
                        (_precision a) (_tensor_map a)))) as [-> ->].
Qed.

Lemma initialize_operations_queue nodes :
  ∀ a b : t,
    initialize_operations nodes a = Some b →
    _executable_layer b = _executable_layer a.
Proof.
  induction nodes as [|np r IH]; intros a b; simpl.
  - by intros [= <-].
  - destruct (create_operation np (_tensor_map a)) as [[node|] ts];
      [|intros Hi; by rewrite (IH _ _ Hi)].
    destruct (String.eqb _ _); [|intros Hi; by rewrite (IH _ _ Hi)].
    destruct (skip_test _) as [[c [|]]|]; [| |done].
    + rewrite find_assign_eq. by intros [= <-].
    + intros Hi. by rewrite (IH _ _ Hi).
Qed.

(** X12.  The ready-queue that [initialize_model] leaves holds exactly the
    operations that were executable once all nodes had been created, in
    ascending order of their ids. *)
Theorem initialize_model_seeds (proto : ModelProto) (m0 m : t) :
  _operation_map m0 = [] → _executable_layer m0 = [] →
  initialize_model proto m0 = Some m →
  StronglySorted Z.lt (_executable_layer m) ∧
  ∃ m1 m2,
    initialize_inputs (length (graph_input proto)) (graph_input proto) m0
      = Some m1 ∧
    initialize_operations (graph_node proto)
      (initialize_weights (graph_initializer proto) m1) = Some m2 ∧
    _executable_layer m =
      (filter (λ e, check_executable e.2 (_tensor_map m2) = true)
         (_operation_map m2)).*1.
Proof.
  intros Hops Hq. unfold initialize_model.
  destruct (initialize_inputs _ _ m0) as [m1|] eqn:H1; [|done].
  destruct (initialize_operations _ _) as [m2|] eqn:H2; [|done].
  intros [= <-].
  assert (Hc : consistent m0).
  { unfold consistent. rewrite Hops, Hq. repeat split; constructor. }
  assert (Hc2 : consistent m2).
  { eapply initialize_operations_consistent; [exact H2|].
    apply initialize_weights_consistent.
    by eapply initialize_inputs_consistent. }
  assert (Hq2 : _executable_layer m2 = []).
  { rewrite (initialize_operations_queue _ _ _ H2).
    rewrite (proj1 (initialize_weights_queue _ _)).
    by rewrite (proj1 (initialize_inputs_queue _ _ _ _ H1)). }
  assert (Hseed : _executable_layer (seed_executable_layer m2) =
            (filter (λ e, check_executable e.2 (_tensor_map m2) = true)
               (_operation_map m2)).*1).
  { unfold seed_executable_layer. rewrite seed_fold_exact. simpl.
    by rewrite Hq2. }
  rewrite initialize_all_tiles_queue, Hseed. split.
  - destruct Hc2 as (Hasc & _).
    eapply StronglySorted_sublist; [|exact Hasc].
    apply fmap_sublist, sublist_filter.
  - by exists m1, m2.
Qed.

(** X13.  Once the model is initialised, whatever the scheduler has called since,
    [check_exist_in_exeutable] scans the whole queue without meeting a
    dangling pointer and answers whether the id is that of a queued
    operation. *)
Theorem check_exist_in_exeutable_spec (proto : ModelProto) (cs : list call)
    (m0 m m' : t) (op_id : Z) :
  _operation_map m0 = [] → _executable_layer m0 = [] →
  initialize_model proto m0 = Some m →
  calls cs m = Some m' →
  check_exist_in_exeutable op_id m'
    = Some (bool_decide (op_id ∈ _executable_layer m')).
Proof.
  intros Hops Hq Hinit Hcalls.
  assert (Hc : consistent m')
    by (eapply calls_consistent; [exact Hcalls|];
        by eapply initialize_model_consistent).
  destruct Hc as (_ & Hf & Hv & _).
  by apply check_exist_decides.
Qed.

(** The loop over the children is defined exactly when every child is an
    operation of the map. *)
Lemma append_children_defined children :
  ∀ m : t,
    filed (_operation_map m) →
    Forall (λ p, is_Some (StdMap.find p (_operation_map m)))
      (_executable_layer m) →
    is_Some (append_children children m) ↔
    Forall (λ c, is_Some (StdMap.find c (_operation_map m))) children.
Proof.
  induction children as [|op_id rest IH]; intros m Hf Hv; simpl.
  - split; [constructor|by eexists].
  - rewrite Forall_cons.
    destruct (StdMap.find op_id (_operation_map m)) as [op|] eqn:Hop.
    + assert (Hrest : is_Some (append_children rest m) ↔
                      is_Some (Some op) ∧
                      Forall (λ c, is_Some (StdMap.find c (_operation_map m)))
                        rest).
      { rewrite IH by done. split; [by split|by intros [_ ?]]. }
      destruct (check_executable op (_tensor_map m)); [|done].
      unfold check_exist_in_exeutable. rewrite check_exist_decides by done.
      destruct (bool_decide _); [done|].
      rewrite IH; simpl; [by split; [split|intros [_ ?]]|done|].
      apply Forall_app. split; [done|]. constructor; [by eexists|constructor].
    + split; [by intros [? ?]|]. by intros [[? ?] _].
Qed.

(** X14.  Once the model is initialised, [set_layer_finish] is defined exactly for
    the id of an operation of the map whose child nodes, as the finished
    operation names them, are all operations of the map; any other call
    dereferences a null pointer. *)
Theorem set_layer_finish_defined (proto : ModelProto) (cs : list call)
    (m0 m m' : t) (id : Z) :
  _operation_map m0 = [] → _executable_layer m0 = [] →
  initialize_model proto m0 = Some m →
  calls cs m = Some m' →
  is_Some (set_layer_finish id m') ↔
  ∃ op,
    StdMap.find id (_operation_map m') = Some op ∧
    Forall (λ c, is_Some (StdMap.find c (_operation_map m')))
      (get_child_nodes (set_finish op (_tensor_map m')).1
         (set_finish op (_tensor_map m')).2).
Proof.
  intros Hops Hq Hinit Hcalls.
  assert (Hc : consistent m')
    by (eapply calls_consistent; [exact Hcalls|];
        by eapply initialize_model_consistent).
  unfold set_layer_finish.
  destruct (StdMap.find id (_operation_map m')) as [op|] eqn:Hop;
    [|split; [by intros [? ?]|by intros (? & ? & _)]].
  pose proof (set_finish_id op (_tensor_map m')) as Hid.
  destruct (set_finish op (_tensor_map m')) as [op' ts] eqn:Hfin. simpl in *.
  assert (Hkey : get_id op' = id).
  { rewrite Hid. destruct Hc as (_ & Hf & _). by eapply filed_find. }
  pose proof (consistent_assign m' id op' Hkey Hc) as (_ & Hf2 & Hv2 & _).
  rewrite append_children_defined by done. simpl.
  assert (Hsame : ∀ c,
            is_Some (StdMap.find c (StdMap.assign id op' (_operation_map m')))
            ↔ is_Some (StdMap.find c (_operation_map m'))).
  { intros c. destruct (decide (id = c)) as [<-|Hne].
    - rewrite find_assign_eq, Hop. by split.
    - by rewrite find_assign_ne. }
  split.
  - intros Hall. exists op. split; [done|]. rewrite Hfin. simpl.
    eapply Forall_impl; [exact Hall|]. intros c. apply Hsame.
  - intros (op1 & [= <-] & Hall). rewrite Hfin in Hall. simpl in Hall.
    eapply Forall_impl; [exact Hall|]. intros c. apply Hsame.
Qed.

End Queue.

Lemma initialize_model_seeds_witness :
  _executable_layer example_initialized_model = [1] ∧
  StronglySorted Z.lt (_executable_layer example_initialized_model) ∧
  ∃ m1 m2,
    initialize_inputs (length (graph_input example_proto))
      (graph_input example_proto) example_fresh_model = Some m1 ∧
    initialize_operations (graph_node example_proto)
      (initialize_weights (graph_initializer example_proto) m1) = Some m2 ∧
    _executable_layer example_initialized_model =
      (filter (λ e, check_executable e.2 (_tensor_map m2) = true)
         (_operation_map m2)).*1.
Proof.
  split; [reflexivity|].
  apply (@initialize_model_seeds example_collaborators example_operation_laws
           example_proto example_fresh_model example_initialized_model).
  - reflexivity.
  - reflexivity.
  - vm_compute. reflexivity.
Defined.

Lemma check_exist_in_exeutable_spec_witness :
  ∃ m',
    calls [SetLayerFinish 1] example_initialized_model = Some m' ∧
    _executable_layer m' = [1; 2] ∧
    check_exist_in_exeutable 2 m'
      = Some (bool_decide (2 ∈ _executable_layer m')).
Proof.
  eexists. split; [vm_compute; reflexivity|]. split; [reflexivity|].
  apply (@check_exist_in_exeutable_spec example_collaborators
           example_operation_laws example_proto [SetLayerFinish 1]
           example_fresh_model example_initialized_model).
  - reflexivity.
  - reflexivity.
  - vm_compute. reflexivity.
  - vm_compute. reflexivity.
Defined.

Lemma set_layer_finish_defined_witness :
  ∃ m',
    calls [SetLayerFinish 1] example_initialized_model = Some m' ∧
    ¬ is_Some (set_layer_finish 7 m') ∧
    (is_Some (set_layer_finish 2 m') ↔
     ∃ op,
       StdMap.find 2 (_operation_map m') = Some op ∧
       Forall (λ c, is_Some (StdMap.find c (_operation_map m')))
         (get_child_nodes (set_finish op (_tensor_map m')).1
            (set_finish op (_tensor_map m')).2)).
Proof.
  eexists. split; [vm_compute; reflexivity|].
  split; [vm_compute; by intros [? ?]|].
  apply (@set_layer_finish_defined example_collaborators
           example_operation_laws example_proto [SetLayerFinish 1]
           example_fresh_model example_initialized_model).
  - reflexivity.
  - reflexivity.
  - vm_compute. reflexivity.
  - vm_compute. reflexivity.
Defined.

End ModelLifecycle.

(** ** The accessors of the tensor map *)
Module TensorMapProofs.
Import TensorMap ModelProofs.

Section Accessors.
Context `{TensorView}.

(** X15.  A tensor added is the tensor [get_tensor] returns for its id, without a
    change of the map, until a tensor of the same id is added; the tensors
    of other ids are returned as before. *)
Theorem add_tensor_get_tensor (edge : Tensor) (m : t) :
  ∃ m',
    add_tensor (Some edge) m = Some m' ∧
    get_tensor (get_id edge) m' = (Some edge, m') ∧
    (∀ id, id ≠ get_id edge → (get_tensor id m').1 = (get_tensor id m).1) ∧
    (StdMap.ascending m → StdMap.ascending m').
Proof.
  eexists. split; [reflexivity|]. split; [|split].
  - unfold get_tensor. by rewrite find_assign_eq.
  - intros id Hne. unfold get_tensor.
    rewrite find_assign_ne by done.
    by destruct (StdMap.find id m).
  - apply assign_ascending.
Qed.

Lemma find_tensor_assign_null name id :
  ∀ m : t,
    StdMap.find id m = None → find_tensor name m = Some None →
    find_tensor name (StdMap.assign id None m) = None.
Proof.
  induction m as [|[key [val|]] m IH]; simpl; intros Hfind Hname; try done.
  destruct (Z.eqb_spec id key) as [->|Hne]; [done|].
  destruct (Z.ltb_spec id key); simpl; [done|].
  destruct (String.eqb (_name val) name); [done|].
  by apply IH.
Qed.

(** X16.  [get_tensor] of an id that the map does not hold returns the null
    pointer and leaves a null entry in the map: a [find_tensor] that found
    no tensor of some name before the call dereferences a null pointer
    after it.  A second [get_tensor] of the id changes nothing more. *)
Theorem get_tensor_unknown_id (id : Z) (m : t) :
  StdMap.find id m = None →
  ∃ m',
    get_tensor id m = (None, m') ∧
    get_tensor id m' = (None, m') ∧
    length m' = S (length m) ∧
    ∀ name, find_tensor name m = Some None → find_tensor name m' = None.
Proof.
  intros Hfind. unfold get_tensor. rewrite Hfind. eexists.
  split; [reflexivity|]. rewrite find_assign_eq. split; [done|]. split.
  - induction m as [|[key val] m IH]; simpl in *; [done|].
    destruct (Z.ltb_spec id key); simpl; [done|].
    destruct (Z.eqb_spec id key) as [->|Hne]; [done|]. simpl.
    by rewrite IH.
  - intros name. by apply find_tensor_assign_null.
Qed.

(** X17.  [find_tensor] returns the tensor of that name with the least id, the
    null pointer when no tensor has the name, and dereferences a null
    pointer exactly when a null entry comes before any tensor of the name. *)
Theorem find_tensor_first_match (name : string) (m : t) :
  (find_tensor name m = Some None ↔ named_first name m) ∧
  (∀ val,
     find_tensor name m = Some (Some val) ↔
     ∃ pre key post,
       m = pre ++ (key, Some val) :: post ∧ _name val = name ∧
       named_first name pre) ∧
  (find_tensor name m = None ↔
   ∃ pre key post, m = pre ++ (key, None) :: post ∧ named_first name pre).
Proof.
  unfold named_first.
  induction m as [|[key [v|]] m (IH1 & IH2 & IH3)]; simpl.
  - split; [|split].
    + split; [constructor|done].
    + intros val. split; [done|]. intros ([|??] & ? & ? & ? & _); done.
    + split; [done|]. intros ([|??] & ? & ? & ? & _); done.
  - destruct (String.eqb_spec (_name v) name) as [Hn|Hn].
    + split; [|split].
      * split; [done|]. intros Hall. apply Forall_cons in Hall as [Hv _].
        destruct Hv as (val & [= <-] & Hne). done.
      * intros val. split.
        -- intros [= <-]. exists [], key, m. split; [done|].
           split; [done|constructor].
        -- intros ([|[k1 v1] pre] & k & post & Heq & Hname & Hpre);
             simpl in Heq.
           ++ by injection Heq as _ <- _.
           ++ injection Heq as ? ? ?; subst k1 v1.
              apply Forall_cons in Hpre as [(val' & [= <-] & Hne) _]. done.
      * split; [done|].
        intros ([|[k1 v1] pre] & k & post & Heq & Hpre); simpl in Heq;
          [done|].
        injection Heq as ? ? ?; subst k1 v1.
        apply Forall_cons in Hpre as [(val' & [= <-] & Hne) _]. done.
    + split; [|split].
      * rewrite IH1. split.
        -- intros Hall. constructor; [by exists v|done].
        -- intros Hall. by apply Forall_cons in Hall as [_ ?].
      * intros val. rewrite IH2. split.
        -- intros (pre & k & post & -> & Hname & Hpre).
           exists ((key, Some v) :: pre), k, post. split; [done|].
           split; [done|]. constructor; [by exists v|done].
        -- intros ([|[k1 v1] pre] & k & post & Heq & Hname & Hpre);
             simpl in Heq.
           ++ injection Heq as _ <- _. done.
           ++ injection Heq as ? ? ?; subst k1 v1 m.
              apply Forall_cons in Hpre as [_ Hpre]. by exists pre, k, post.
      * rewrite IH3. split.
        -- intros (pre & k & post & -> & Hpre).
           exists ((key, Some v) :: pre), k, post. split; [done|].
           constructor; [by exists v|done].
        -- intros ([|[k1 v1] pre] & k & post & Heq & Hpre); simpl in Heq;
             [done|].
           injection Heq as ? ? ?; subst k1 v1 m.
           apply Forall_cons in Hpre as [_ Hpre]. by exists pre, k, post.
  - split; [|split].
    + split; [done|]. intros Hall.
      apply Forall_cons in Hall as [(val & [=] & _) _].
    + intros val. split; [done|].
      intros ([|[k1 v1] pre] & k & post & Heq & _ & Hpre); simpl in Heq;
        [done|].
      injection Heq as ? ? ?; subst k1 v1.
      apply Forall_cons in Hpre as [(val' & [=] & _) _].
    + split; [|done]. intros _. exists [], key, m. split; [done|constructor].
Qed.

End Accessors.

Lemma get_tensor_unknown_id_witness :
  let m : @t example_view := [(1, Some (1, "x"))] in
  ∃ m',
    @get_tensor example_view 5 m = (None, m') ∧
    get_tensor 5 m' = (None, m') ∧
    length m' = S (length m) ∧
    ∀ name, find_tensor name m = Some None → find_tensor name m' = None.
Proof.
  apply (@get_tensor_unknown_id example_view 5 [(1, Some (1, "x"))]).
  reflexivity.
Defined.

End TensorMapProofs.

(** ** The loop of the driver: clock, arrivals and launches *)
Module LoopProofs.
Import Common Simulator Loop SimulatorProofs.

Section Clock.
Context `{Components} `{!Masks} `{!StdHeap} `{!MasksDistinct}.

(** What [set_cycle_mask] leaves alone. *)
Lemma set_cycle_mask_keeps (s : t) :
  _core_period (set_cycle_mask s) = _core_period s ∧
  _icnt_period (set_cycle_mask s) = _icnt_period s ∧
  _dram_period (set_cycle_mask s) = _dram_period s ∧
  _core_cycles (set_cycle_mask s) = _core_cycles s ∧
  _models (set_cycle_mask s) = _models s ∧
  world (set_cycle_mask s) = world s ∧
  _n_cores (set_cycle_mask s) = _n_cores s ∧
  _n_memories (set_cycle_mask s) = _n_memories s.
Proof.
  unfold set_cycle_mask. simpl.
  destruct (_core_time s <=? _); simpl; destruct (_dram_time s <=? _); simpl;
    destruct (_icnt_time s <=? _); simpl; done.
Qed.

(** The times after [set_cycle_mask], and the domains that tick. *)
Lemma set_cycle_mask_times (s : t) :
  let s' := set_cycle_mask s in
  ticks CORE_MASK s' = bool_decide (_core_time s ≤ minimum_time s) ∧
  ticks DRAM_MASK s' = bool_decide (_dram_time s ≤ minimum_time s) ∧
  ticks ICNT_MASK s' = bool_decide (_icnt_time s ≤ minimum_time s) ∧
  _core_time s' =
    (if bool_decide (_core_time s ≤ minimum_time s)
     then wrap64 (_core_time s + _core_period s) else _core_time s) ∧
  _dram_time s' =
    (if bool_decide (_dram_time s ≤ minimum_time s)
     then wrap64 (_dram_time s + _dram_period s) else _dram_time s) ∧
  _icnt_time s' =
    (if bool_decide (_icnt_time s ≤ minimum_time s)
     then wrap64 (_icnt_time s + _icnt_period s) else _icnt_time s).
Proof.
  intros s'.
  pose proof core_mask_set as Hc. pose proof dram_mask_set as Hd.
  pose proof icnt_mask_set as Hi. pose proof core_dram_apart as Hcd.
  pose proof core_icnt_apart as Hci. pose proof dram_icnt_apart as Hdi.
  assert (Hdc : Z.land DRAM_MASK CORE_MASK = 0) by (by rewrite Z.land_comm).
  assert (Hic : Z.land ICNT_MASK CORE_MASK = 0) by (by rewrite Z.land_comm).
  assert (Hid : Z.land ICNT_MASK DRAM_MASK = 0) by (by rewrite Z.land_comm).
  subst s'. unfold set_cycle_mask, minimum_time. simpl.
  set (T := MIN3 (_core_time s) (_dram_time s) (_icnt_time s)).
  destruct (Z.leb_spec (_core_time s) T) as [Lc|Lc]; simpl; fold T;
    (destruct (Z.leb_spec (_dram_time s) T) as [Ld|Ld]); simpl; fold T;
    (destruct (Z.leb_spec (_icnt_time s) T) as [Li|Li]); simpl;
    unfold ticks; simpl;
    rewrite ?Z.land_lor_distr_l, ?Z.land_0_l, ?Z.land_diag,
      ?Hcd, ?Hci, ?Hdi, ?Hdc, ?Hic, ?Hid, ?Z.lor_0_l, ?Z.lor_0_r;
    repeat match goal with
           | Hne : ?m ≠ 0 |- context [?m =? 0] =>
               rewrite (proj2 (Z.eqb_neq m 0) Hne)
           end;
    simpl;
    repeat (case_bool_decide; try lia);
    repeat split; done.
Qed.


(** The clock of a simulator: what [set_cycle_mask] works on, and the
    cycle counter. *)
Lemma handle_model_loop_clock fuel :
  ∀ s s' : t,
    handle_model_loop fuel s = Some s' →
    with_world (with_models s (_models s')) (world s') = s'.
Proof.
  induction fuel as [|fuel IH]; intros s s' Hrun; simpl in Hrun.
  - destruct (_models s) as [|front rest] eqn:Hm.
    + injection Hrun as <-. by destruct s.
    + destruct (get_request_time front <=? _core_time s); [done|].
      injection Hrun as <-. by destruct s.
  - destruct (_models s) as [|front rest] eqn:Hm.
    + injection Hrun as <-. by destruct s.
    + destruct (get_request_time front <=? _core_time s);
        [|injection Hrun as <-; by destruct s].
      destruct (initialize_model front) as [launch_model|]; [|done].
      apply IH in Hrun. by rewrite <- Hrun.
Qed.

(** One iteration of the loop: the times and the mask are those
    [set_cycle_mask] leaves, and the cycle counter counts the core's
    ticks. *)
Lemma cycle_step_clock (s s' : t) :
  cycle_step s = Some s' →
  _core_period s' = _core_period s ∧ _icnt_period s' = _icnt_period s ∧
  _dram_period s' = _dram_period s ∧
  _core_time s' = _core_time (set_cycle_mask s) ∧
  _dram_time s' = _dram_time (set_cycle_mask s) ∧
  _icnt_time s' = _icnt_time (set_cycle_mask s) ∧
  _cycle_mask s' = _cycle_mask (set_cycle_mask s) ∧
  _core_cycles s' =
    (if ticks CORE_MASK (set_cycle_mask s) then wrap64 (_core_cycles s + 1)
     else _core_cycles s).
Proof.
  unfold cycle_step.
  pose proof (set_cycle_mask_keeps s) as (K1 & K2 & K3 & K4 & _).
  set (s1 := set_cycle_mask s) in *.
  destruct (ticks CORE_MASK s1) eqn:Hcore.
  - unfold core_phase, handle_model.
    destruct (handle_model_loop _ s1) as [s2|] eqn:Hh; [|done].
    apply handle_model_loop_clock in Hh.
    intros [= <-]. rewrite <- Hh, <- K1, <- K2, <- K3, <- K4.
    unfold ticks, dram_phase, icnt_phase. simpl.
    destruct (negb (Z.land (_cycle_mask s1) DRAM_MASK =? 0)); simpl;
      destruct (negb (Z.land (_cycle_mask s1) ICNT_MASK =? 0)); simpl; done.
  - intros [= <-]. rewrite <- K1, <- K2, <- K3, <- K4.
    unfold ticks, dram_phase, icnt_phase. simpl.
    destruct (negb (Z.land (_cycle_mask s1) DRAM_MASK =? 0)); simpl;
      destruct (negb (Z.land (_cycle_mask s1) ICNT_MASK =? 0)); simpl; done.
Qed.

Lemma registered_clock (models : list Model) :
  ∀ s : t,
    _core_period (registered models s) = _core_period s ∧
    _icnt_period (registered models s) = _icnt_period s ∧
    _dram_period (registered models s) = _dram_period s ∧
    _core_time (registered models s) = _core_time s ∧
    _dram_time (registered models s) = _dram_time s ∧
    _icnt_time (registered models s) = _icnt_time s ∧
    _core_cycles (registered models s) = _core_cycles s.
Proof.
  unfold registered. induction models as [|model models IH]; intros s; simpl.
  - done.
  - apply (IH (register_model model s)).
Qed.

Lemma registered_world (models : list Model) :
  ∀ s : t,
    world (registered models s) = world s ∧
    _n_cores (registered models s) = _n_cores s ∧
    _n_memories (registered models s) = _n_memories s.
Proof.
  unfold registered. induction models as [|model models IH]; intros s; simpl.
  - done.
  - apply (IH (register_model model s)).
Qed.

(** The state [cycle] returns is reached by iterations of its loop. *)
Lemma cycle_iterations steps :
  ∀ s s' : t,
    cycle steps s = Some s' →
    ∃ n, (n ≤ steps)%nat ∧ iterations n s = Some s'.
Proof.
  induction steps as [|steps IH]; intros s s' Hrun; simpl in Hrun.
  - destruct (running s); [done|]. exists 0%nat. by split.
  - destruct (running s) eqn:Hr; [|exists 0%nat; split; [lia|done]].
    destruct (cycle_step s) as [s1|] eqn:Hstep; [|done].
    destruct (IH _ _ Hrun) as (n & Hn & Hit). exists (S n).
    split; [lia|]. simpl. by rewrite Hr, Hstep.
Qed.

(** X18.  The scheduler reads [_core_cycles] and [_core_time] through pointers:
    at every iteration of the loop, and when [cycle] returns, they agree,
    the core's time being the number of its cycles times its period,
    [1000000 / core_freq], in [uint64_t] arithmetic. *)
Theorem core_time_counts_core_cycles (core_freq icnt_freq dram_freq : Z)
    (num_cores dram_channels : nat) (w : World) (models : list Model)
    (s0 : t) :
  Simulator core_freq icnt_freq dram_freq num_cores dram_channels w = Some s0 →
  (∀ n s,
     iterations n (registered models s0) = Some s →
     _core_time s = wrap64 (_core_cycles s * (1000000 / core_freq))) ∧
  (∀ steps s,
     cycle steps (registered models s0) = Some s →
     _core_time s = wrap64 (_core_cycles s * (1000000 / core_freq))).
Proof.
  intros Hnew. unfold Simulator in Hnew.
  destruct (_ || _); [done|]. injection Hnew as <-.
  assert (Hinv : ∀ n (a b : t),
            _core_time a = wrap64 (_core_cycles a * _core_period a) →
            iterations n a = Some b →
            _core_time b = wrap64 (_core_cycles b * _core_period b) ∧
            _core_period b = _core_period a).
  { intros k. induction k as [|k IH]; intros a b Ha Hrun;
      simpl in Hrun.
    - by injection Hrun as <-.
    - destruct (running a); [|done].
      destruct (cycle_step a) as [a1|] eqn:Hstep; [|done].
      pose proof (cycle_step_clock _ _ Hstep)
        as (P1 & _ & _ & T1 & _ & _ & _ & C1).
      pose proof (set_cycle_mask_times a) as (M1 & _ & _ & T2 & _).
      simpl in M1, T2. rewrite M1 in C1. rewrite T2 in T1.
      destruct (IH a1 b) as [E1 E2]; [|done|split; [done|congruence]].
      rewrite T1, C1, P1.
      destruct (bool_decide (_core_time a ≤ minimum_time a)); [|done].
      rewrite Ha. unfold wrap64.
      rewrite Zplus_mod_idemp_l, Zmult_mod_idemp_l. f_equal. lia. }
  set (s0 := mk _ _ _ _ _ _ _ _ _ _ _ _) in *.
  pose proof (registered_clock models s0) as (R1 & _ & _ & R2 & _ & _ & R3).
  assert (Hall : ∀ n s,
            iterations n (registered models s0) = Some s →
            _core_time s = wrap64 (_core_cycles s * (1000000 / core_freq))).
  { intros n s Hrun.
    destruct (Hinv n (registered models s0) s) as [E1 E2]; [|done|].
    - by rewrite R1, R2, R3.
    - by rewrite E1, E2, R1. }
  split; [exact Hall|].
  intros steps s Hrun. apply cycle_iterations in Hrun as (n & _ & Hrun).
  by eapply Hall.
Qed.

(** The clock after one more iteration, while the times stay within
    [uint64_t]: simulated time has moved on, no domain is more than one of
    its periods ahead of it, and every time is a multiple of its period. *)
Lemma clock_step (k : Z) (a a1 : t) :
  cycle_step a = Some a1 →
  1 ≤ _core_period a ≤ 1000000 → 1 ≤ _dram_period a ≤ 1000000 →
  1 ≤ _icnt_period a ≤ 1000000 →
  0 ≤ k → (k + 1) * 1000000 < 2 ^ 64 →
  0 ≤ minimum_time a →
  _core_time a ≤ k * 1000000 → _dram_time a ≤ k * 1000000 →
  _icnt_time a ≤ k * 1000000 →
  _core_time a ≤ minimum_time a + _core_period a →
  _dram_time a ≤ minimum_time a + _dram_period a →
  _icnt_time a ≤ minimum_time a + _icnt_period a →
  (_core_period a | _core_time a) → (_dram_period a | _dram_time a) →
  (_icnt_period a | _icnt_time a) →
  minimum_time a + 1 ≤ minimum_time a1 ∧
  _core_time a1 ≤ (k + 1) * 1000000 ∧ _dram_time a1 ≤ (k + 1) * 1000000 ∧
  _icnt_time a1 ≤ (k + 1) * 1000000 ∧
  _core_time a1 ≤ minimum_time a1 + _core_period a ∧
  _dram_time a1 ≤ minimum_time a1 + _dram_period a ∧
  _icnt_time a1 ≤ minimum_time a1 + _icnt_period a ∧
  (_core_period a | _core_time a1) ∧ (_dram_period a | _dram_time a1) ∧
  (_icnt_period a | _icnt_time a1).
Proof.
  intros Hstep Pc Pd Pi Hk Hfit Hnow Bc Bd Bi Sc Sd Si Dc Dd Di.
  pose proof (cycle_step_clock _ _ Hstep)
    as (_ & _ & _ & Tc & Td & Ti & _ & _).
  pose proof (set_cycle_mask_times a) as (_ & _ & _ & Ec & Ed & Ei).
  simpl in Ec, Ed, Ei. rewrite Ec in Tc. rewrite Ed in Td. rewrite Ei in Ti.
  clear Ec Ed Ei Hstep.
  assert (Hlow : 0 ≤ _core_time a ∧ 0 ≤ _dram_time a ∧ 0 ≤ _icnt_time a)
    by (unfold minimum_time, MIN3 in Hnow; lia).
  rewrite !SimpleDramProofs.wrap64_small in * by lia.
  assert (Hdc : (_core_period a | _core_time a + _core_period a))
    by (apply Z.divide_add_r; [done|apply Z.divide_refl]).
  assert (Hdd : (_dram_period a | _dram_time a + _dram_period a))
    by (apply Z.divide_add_r; [done|apply Z.divide_refl]).
  assert (Hdi : (_icnt_period a | _icnt_time a + _icnt_period a))
    by (apply Z.divide_add_r; [done|apply Z.divide_refl]).
  unfold minimum_time in *. rewrite Tc, Td, Ti. unfold MIN3 in *.
  repeat case_bool_decide; repeat split; try done; lia.
Qed.

(** X19.  The three clock domains stay together.  With frequencies from 1 to
    1000000 MHz, and while the times stay within [uint64_t], after [n]
    iterations of the loop the simulated time (the least of the three
    times) has advanced at every iteration, no domain is more than one of
    its own periods ahead of it, and the time of every domain is a whole
    number of its periods. *)
Theorem clock_domains_stay_together (core_freq icnt_freq dram_freq : Z)
    (num_cores dram_channels : nat) (w : World) (models : list Model)
    (n : nat) (s0 s : t) :
  Simulator core_freq icnt_freq dram_freq num_cores dram_channels w = Some s0 →
  0 < core_freq ≤ 1000000 → 0 < icnt_freq ≤ 1000000 →
  0 < dram_freq ≤ 1000000 →
  (Z.of_nat n + 1) * 1000000 < 2 ^ 64 →
  iterations n (registered models s0) = Some s →
  Z.of_nat n ≤ minimum_time s ∧
  _core_time s ≤ minimum_time s + _core_period s ∧
  _dram_time s ≤ minimum_time s + _dram_period s ∧
  _icnt_time s ≤ minimum_time s + _icnt_period s ∧
  (_core_period s | _core_time s) ∧ (_dram_period s | _dram_time s) ∧
  (_icnt_period s | _icnt_time s).
Proof.
  intros Hnew Fc Fi Fd Hfit Hrun. unfold Simulator in Hnew.
  destruct (_ || _); [done|]. injection Hnew as <-.
  set (s0 := mk _ _ _ _ _ _ _ _ _ _ _ _) in *.
  pose proof (registered_clock models s0)
    as (R1 & R2 & R3 & R4 & R5 & R6 & _).
  assert (Hper : ∀ f, 0 < f ≤ 1000000 → 1 ≤ 1000000 / f ≤ 1000000).
  { intros f Hf. split.
    - apply Z.div_le_lower_bound; lia.
    - apply Z.div_le_upper_bound; nia. }
  assert (Hinv : ∀ j (k : Z) (a b : t),
            iterations j a = Some b →
            1 ≤ _core_period a ≤ 1000000 → 1 ≤ _dram_period a ≤ 1000000 →
            1 ≤ _icnt_period a ≤ 1000000 →
            0 ≤ k → (k + Z.of_nat j + 1) * 1000000 < 2 ^ 64 →
            k ≤ minimum_time a →
            _core_time a ≤ k * 1000000 → _dram_time a ≤ k * 1000000 →
            _icnt_time a ≤ k * 1000000 →
            _core_time a ≤ minimum_time a + _core_period a →
            _dram_time a ≤ minimum_time a + _dram_period a →
            _icnt_time a ≤ minimum_time a + _icnt_period a →
            (_core_period a | _core_time a) →
            (_dram_period a | _dram_time a) →
            (_icnt_period a | _icnt_time a) →
            k + Z.of_nat j ≤ minimum_time b ∧
            _core_time b ≤ minimum_time b + _core_period b ∧
            _dram_time b ≤ minimum_time b + _dram_period b ∧
            _icnt_time b ≤ minimum_time b + _icnt_period b ∧
            (_core_period b | _core_time b) ∧
            (_dram_period b | _dram_time b) ∧
            (_icnt_period b | _icnt_time b)).
  { clear Hrun Hfit. intros j.
    induction j as [|j IH];
      intros k a b Hrun Pc Pd Pi Hk Hfit Hnow Bc Bd Bi Sc Sd Si Dc Dd Di;
      simpl in Hrun.
    - injection Hrun as <-. repeat split; try done. lia.
    - destruct (running a); [|done].
      destruct (cycle_step a) as [a1|] eqn:Hstep; [|done].
      pose proof (cycle_step_clock _ _ Hstep) as (P1 & P2 & P3 & _).
      destruct (clock_step k a a1 Hstep)
        as (N1 & B1 & B2 & B3 & S1 & S2 & S3 & D1 & D2 & D3);
        try done; try lia.
      rewrite <- P1, <- P2, <- P3 in *.
      destruct (IH (k + 1) a1 b Hrun) as (E1 & E2); try done; try lia.
      split; [lia|done]. }
  destruct (Hinv n 0 (registered models s0) s Hrun)
    as (E1 & E2); rewrite ?R1, ?R2, ?R3, ?R4, ?R5, ?R6; simpl;
    try (apply Hper; lia); try lia; try done.
  - unfold minimum_time. rewrite R4, R5, R6. simpl. unfold MIN3. lia.
  - unfold minimum_time. rewrite R4, R5, R6. simpl. unfold MIN3.
    destruct (Hper core_freq); lia.
  - unfold minimum_time. rewrite R4, R5, R6. simpl. unfold MIN3.
    destruct (Hper dram_freq); lia.
  - unfold minimum_time. rewrite R4, R5, R6. simpl. unfold MIN3.
    destruct (Hper icnt_freq); lia.
  - apply Z.divide_0_r.
  - apply Z.divide_0_r.
  - apply Z.divide_0_r.
Qed.


(** X20.  A period that truncates to zero.  The periods are integer quotients:
    above 1000000 MHz the core's period is 0, so the core's time never
    leaves 0.  Memory and interconnect tick in the first iteration and never
    again: in every later iteration the core alone ticks, and simulated
    time stands still. *)
Theorem zero_core_period_starves (core_freq icnt_freq dram_freq : Z)
    (num_cores dram_channels : nat) (w : World) (models : list Model)
    (n : nat) (s0 s : t) :
  Simulator core_freq icnt_freq dram_freq num_cores dram_channels w = Some s0 →
  1000000 < core_freq → 0 < icnt_freq ≤ 1000000 → 0 < dram_freq ≤ 1000000 →
  iterations (S n) (registered models s0) = Some s →
  _core_period s = 0 ∧ minimum_time s = 0 ∧
  _dram_time s = 1000000 / dram_freq ∧ _icnt_time s = 1000000 / icnt_freq ∧
  _core_cycles s = wrap64 (Z.of_nat (S n)) ∧
  ticks CORE_MASK s = true ∧
  (n ≠ 0%nat → ticks DRAM_MASK s = false ∧ ticks ICNT_MASK s = false).
Proof.
  intros Hnew Fc Fi Fd Hrun. unfold Simulator in Hnew.
  destruct (_ || _); [done|]. injection Hnew as <-.
  set (s0 := mk _ _ _ _ _ _ _ _ _ _ _ _) in *.
  pose proof (registered_clock models s0)
    as (R1 & R2 & R3 & R4 & R5 & R6 & R7).
  assert (Hper : ∀ f, 0 < f ≤ 1000000 → 1 ≤ 1000000 / f).
  { intros f Hf. apply Z.div_le_lower_bound; lia. }
  assert (Hzero : 1000000 / core_freq = 0) by (apply Z.div_small; lia).
  pose proof (Hper _ Fd) as Pd. pose proof (Hper _ Fi) as Pi.
  set (pd := 1000000 / dram_freq) in *. set (pi := 1000000 / icnt_freq) in *.
  assert (Hstep : ∀ a a1 : t,
            cycle_step a = Some a1 →
            _core_period a = 0 → _dram_period a = pd → _icnt_period a = pi →
            _core_time a = 0 →
            (_dram_time a = 0 ∧ _icnt_time a = 0) ∨
            (_dram_time a = pd ∧ _icnt_time a = pi) →
            _core_period a1 = 0 ∧ _dram_period a1 = pd ∧
            _icnt_period a1 = pi ∧ _core_time a1 = 0 ∧
            _dram_time a1 = pd ∧ _icnt_time a1 = pi ∧
            _core_cycles a1 = wrap64 (_core_cycles a + 1) ∧
            ticks CORE_MASK a1 = true ∧
            (_dram_time a = pd → ticks DRAM_MASK a1 = false ∧
                                 ticks ICNT_MASK a1 = false)).
  { intros a a1 Hs Pc Pd' Pi' Tc Tdi.
    pose proof (cycle_step_clock _ _ Hs)
      as (P1 & P2 & P3 & T1 & T2 & T3 & M & C).
    pose proof (set_cycle_mask_times a) as (M1 & M2 & M3 & E1 & E2 & E3).
    simpl in M1, M2, M3, E1, E2, E3.
    assert (Hm : ∀ mask, ticks mask a1 = ticks mask (set_cycle_mask a))
      by (intros mask; unfold ticks; by rewrite M).
    rewrite !Hm, P1, P2, P3, T1, T2, T3, C, M1, M2, M3, E1, E2, E3.
    rewrite Pc, Pd', Pi', Tc. unfold minimum_time, MIN3. rewrite Tc.
    assert (Hpd : wrap64 (0 + pd) = pd).
    { apply SimpleDramProofs.wrap64_small. subst pd. split; [lia|].
      apply Z.le_lt_trans with 1000000; [|done].
      apply Z.div_le_upper_bound; nia. }
    assert (Hpi : wrap64 (0 + pi) = pi).
    { apply SimpleDramProofs.wrap64_small. subst pi. split; [lia|].
      apply Z.le_lt_trans with 1000000; [|done].
      apply Z.div_le_upper_bound; nia. }
    change (wrap64 (0 + 0)) with 0.
    destruct Tdi as [[-> ->]|[-> ->]];
      repeat case_bool_decide; try lia; rewrite ?Hpd, ?Hpi;
      repeat split; try done; lia. }
  assert (Hinv : ∀ j (a b : t),
            iterations (S j) a = Some b →
            _core_period a = 0 → _dram_period a = pd → _icnt_period a = pi →
            _core_time a = 0 →
            (_dram_time a = 0 ∧ _icnt_time a = 0) ∨
            (_dram_time a = pd ∧ _icnt_time a = pi) →
            _core_period b = 0 ∧ _core_time b = 0 ∧
            _dram_time b = pd ∧ _icnt_time b = pi ∧
            _core_cycles b = wrap64 (_core_cycles a + Z.of_nat (S j)) ∧
            ticks CORE_MASK b = true ∧
            (j ≠ 0%nat ∨ _dram_time a = pd →
             ticks DRAM_MASK b = false ∧ ticks ICNT_MASK b = false)).
  { clear Hrun. intros j. induction j as [|j IH]; intros a b Hrun Pc Pd' Pi' Tc Tdi.
    - simpl in Hrun. destruct (running a); [|done].
      destruct (cycle_step a) as [a1|] eqn:Hs; [|done]. injection Hrun as <-.
      destruct (Hstep a a1 Hs) as (Q1 & Q2 & Q3 & Q4 & Q5 & Q6 & Q7 & Q8 & Q9);
        try done.
      do 6 (split; [done|]). intros [?|Hd]; [done|]. by apply Q9.
    - change (iterations (S (S j)) a)
        with (if running a then
                match cycle_step a with
                | Some s' => iterations (S j) s'
                | None => None
                end
              else None) in Hrun.
      destruct (running a); [|done].
      destruct (cycle_step a) as [a1|] eqn:Hs; [|done].
      destruct (Hstep a a1 Hs) as (Q1 & Q2 & Q3 & Q4 & Q5 & Q6 & Q7 & Q8 & Q9);
        try done.
      destruct (IH a1 b Hrun) as (E1 & E2 & E3 & E4 & E5 & E6 & E7);
        try done; [by right|].
      do 4 (split; [done|]). split; [|split; [done|]].
      + rewrite E5, Q7. unfold wrap64. rewrite Zplus_mod_idemp_l.
        f_equal. lia.
      + intros _. apply E7. by right. }
  destruct (Hinv n (registered models s0) s Hrun)
    as (E1 & E2 & E3 & E4 & E5 & E6 & E7);
    rewrite ?R1, ?R2, ?R3, ?R4, ?R5, ?R6; try done; [by left|].
  rewrite R7 in E5. simpl in E5.
  split; [done|]. split; [|do 4 (split; [done|])].
  - unfold minimum_time, MIN3. rewrite E2, E3, E4. lia.
  - intros Hn. apply E7. by left.
Qed.

End Clock.

Section Launch.
Context `{Components} `{!Masks} `{!StdHeap} `{!StdHeapLaws}.

Lemma handle_model_loop_order fuel :
  ∀ s s',
    is_heap (_models s) → handle_model_loop fuel s = Some s' →
    ∃ launched inits,
      _models s ≡ₚ launched ++ _models s' ∧
      StronglySorted Trace.by_request_time launched ∧
      Forall2 (λ m m', initialize_model m = Some m') launched inits ∧
      s' = with_world (with_models s (_models s')) (schedule_all s inits).
Proof.
  assert (Hstay : ∀ s : t,
            ∃ launched inits,
              _models s ≡ₚ launched ++ _models s ∧
              StronglySorted Trace.by_request_time launched ∧
              Forall2 (λ m m', initialize_model m = Some m') launched inits ∧
              s = with_world (with_models s (_models s)) (schedule_all s inits)).
  { intros s. exists [], []. split; [done|]. split; [constructor|].
    split; [constructor|by destruct s]. }
  induction fuel as [|fuel IH]; intros s s' Hheap Hrun; simpl in Hrun.
  - destruct (_models s) as [|front rest] eqn:Hm.
    + injection Hrun as <-. rewrite <- Hm. apply Hstay.
    + destruct (get_request_time front <=? _core_time s); [done|].
      injection Hrun as <-. rewrite <- Hm. apply Hstay.
  - destruct (_models s) as [|front rest] eqn:Hm.
    + injection Hrun as <-. rewrite <- Hm. apply Hstay.
    + destruct (get_request_time front <=? _core_time s);
        [|injection Hrun as <-; rewrite <- Hm; apply Hstay].
      destruct (pop_heap_spec front rest Hheap)
        as (l' & back & Hpop & Hheap' & Hperm).
      rewrite Hpop, removelast_last in Hrun.
      destruct (initialize_model front) as [launch_model|] eqn:Hinit; [|done].
      apply IH in Hrun as (launched & inits & P1 & P2 & P3 & P4); [|done].
      simpl in P1.
      exists (front :: launched), (launch_model :: inits).
      split; [by rewrite <- Hperm, P1|]. split; [|split; [by constructor|]].
      * constructor; [done|]. apply Forall_forall. intros m Hin.
        apply (heap_front_min (front :: rest) front Hheap eq_refl).
        right. rewrite <- Hperm, P1. apply elem_of_app. by left.
      * rewrite P4. by destruct s.
Qed.

(** X21.  The models [handle_model] launches in one call are handed to the
    scheduler in the order of their request times, the earliest first. *)
Theorem models_launched_in_request_order (s s' : t) :
  is_heap (_models s) →
  handle_model s = Some s' →
  ∃ launched inits,
    _models s ≡ₚ launched ++ _models s' ∧
    StronglySorted Trace.by_request_time launched ∧
    Forall2 (λ m m', initialize_model m = Some m') launched inits ∧
    world s' = schedule_all s inits.
Proof.
  intros Hheap Hrun. unfold handle_model in Hrun.
  destruct (handle_model_loop_order _ _ _ Hheap Hrun)
    as (launched & inits & P1 & P2 & P3 & P4).
  exists launched, inits. split; [done|]. split; [done|]. split; [done|].
  by rewrite P4.
Qed.

(** X22.  An exception of [initialize_model] leaves [handle_model]: the call
    returns exactly when every model that is due initialises.  A model that
    is not yet due is not initialised, so whether it would initialise does
    not matter. *)
Theorem handle_model_returns_iff (s : t) :
  is_heap (_models s) →
  is_Some (handle_model s) ↔
  ∀ m, m ∈ _models s → get_request_time m ≤ _core_time s →
       is_Some (initialize_model m).
Proof.
  intros Hheap. split.
  - intros [s' Hrun] m Hin Hdue. unfold handle_model in Hrun.
    destruct (handle_model_loop_spec _ _ _ Hheap Hrun)
      as (launched & inits & P1 & _ & P3 & _ & P5 & _).
    rewrite P1 in Hin. apply elem_of_app in Hin as [Hin|Hin].
    + apply list_elem_of_lookup in Hin as [i Hi].
      destruct (Forall2_lookup_l _ _ _ _ _ P5 Hi) as (m' & _ & ->).
      by eexists.
    + eapply Forall_forall in P3; [|exact Hin]. lia.
  - intros Hinit. by apply handle_model_loop_returns.
Qed.

End Launch.

Section Heap.
Context `{Components} `{!Masks} `{!StdHeap} `{!MasksDistinct} `{!StdHeapLaws}.

Lemma registered_heap (models : list Model) :
  ∀ s : t,
    is_heap (_models s) →
    is_heap (_models (registered models s)) ∧
    _models (registered models s) ≡ₚ _models s ++ models.
Proof.
  unfold registered. induction models as [|model models IH]; intros s Hheap;
    simpl.
  - by rewrite app_nil_r.
  - destruct (register_model_heap model s Hheap) as [Hh Hp].
    destruct (IH _ Hh) as [Hh' Hp']. split; [done|].
    by rewrite Hp', Hp, <- app_assoc.
Qed.

(** One iteration and the arrival heap. *)
Lemma cycle_step_heap (a a1 : t) :
  cycle_step a = Some a1 →
  is_heap (_models a) →
  is_heap (_models a1) ∧ _models a1 ⊆+ _models a ∧
  (Forall (λ m, _core_time a < get_request_time m) (_models a) ∨
   _core_time a ≤ minimum_time a →
   Forall (λ m, _core_time a1 < get_request_time m) (_models a1)).
Proof.
  intros Hstep Hheap.
  pose proof (cycle_step_clock _ _ Hstep) as (_ & _ & _ & T1 & _).
  pose proof (set_cycle_mask_times a) as (M1 & _ & _ & E1 & _).
  pose proof (set_cycle_mask_keeps a) as (_ & _ & _ & _ & K & _).
  simpl in M1, E1. unfold cycle_step in Hstep.
  set (s1 := set_cycle_mask a) in *.
  assert (Hrest : ∀ s2 : t,
            Some (let s := if ticks DRAM_MASK s2 then dram_phase s2 else s2 in
                  if ticks ICNT_MASK s then icnt_phase s else s) = Some a1 →
            _models a1 = _models s2).
  { intros s2 [= <-]. unfold dram_phase, icnt_phase.
    destruct (ticks DRAM_MASK s2); simpl;
      match goal with |- context [ticks ICNT_MASK ?x] =>
        destruct (ticks ICNT_MASK x) end; done. }
  rewrite M1 in Hstep. rewrite T1, E1. case_bool_decide as Hdue.
  - unfold core_phase, handle_model in Hstep.
    destruct (handle_model_loop _ s1) as [sh|] eqn:Hh; [|done].
    apply Hrest in Hstep. simpl in Hstep.
    rewrite <- K in Hheap.
    destruct (handle_model_loop_spec _ _ _ Hheap Hh)
      as (launched & inits & P1 & _ & P3 & P4 & _).
    rewrite Hstep. split; [done|]. split.
    + rewrite <- K, P1. by apply submseteq_inserts_l.
    + intros _. by rewrite E1 in P3.
  - apply Hrest in Hstep. rewrite Hstep, K. split; [done|]. split; [done|].
    intros [Hall|?]; done.
Qed.

(** X23.  The arrival heap during the run.  At every iteration of the loop
    [_models] is a heap of models that were registered, so the front is the
    model due first; and once the loop has made an iteration, every model
    still in the heap has a request time later than [_core_time]: a model is
    launched at the first tick of the core whose time has reached its
    request time. *)
Theorem arrival_heap_invariant (core_freq icnt_freq dram_freq : Z)
    (num_cores dram_channels : nat) (w : World) (models : list Model)
    (n : nat) (s0 s : t) :
  Simulator core_freq icnt_freq dram_freq num_cores dram_channels w = Some s0 →
  iterations n (registered models s0) = Some s →
  is_heap (_models s) ∧ _models s ⊆+ models ∧
  (n ≠ 0%nat → Forall (λ m, _core_time s < get_request_time m) (_models s)).
Proof.
  intros Hnew Hrun. unfold Simulator in Hnew.
  destruct (_ || _); [done|]. injection Hnew as <-.
  set (s0 := mk _ _ _ _ _ _ _ _ _ _ _ _) in *.
  assert (Hheap0 : is_heap (_models s0)) by (intros i p c _ Hp; done).
  destruct (registered_heap models s0 Hheap0) as [Hheap Hperm].
  pose proof (registered_clock models s0) as (_ & _ & _ & R4 & R5 & R6 & _).
  simpl in Hperm, R4, R5, R6.
  assert (Hinv : ∀ j (a b : t),
            iterations j a = Some b → is_heap (_models a) →
            is_heap (_models b) ∧ _models b ⊆+ _models a ∧
            ((j ≠ 0%nat ∧ _core_time a ≤ minimum_time a) ∨
             Forall (λ m, _core_time a < get_request_time m) (_models a) →
             Forall (λ m, _core_time b < get_request_time m) (_models b))).
  { clear Hrun Hheap. intros j.
    induction j as [|j IH]; intros a b Hrun Hheap; simpl in Hrun.
    - injection Hrun as <-. split; [done|]. split; [done|].
      by intros [[? _]|?].
    - destruct (running a); [|done].
      destruct (cycle_step a) as [a1|] eqn:Hstep; [|done].
      destruct (cycle_step_heap _ _ Hstep Hheap) as (J1 & J2 & J3).
      destruct (IH _ _ Hrun J1) as (I1 & I2 & I3).
      split; [done|]. split; [by etrans|].
      intros Hor. apply I3. right. apply J3.
      destruct Hor as [[_ ?]|?]; [by right|by left]. }
  destruct (Hinv n _ _ Hrun Hheap) as (I1 & I2 & I3).
  split; [done|]. split; [by rewrite I2, Hperm|].
  intros Hn. apply I3. left. split; [done|].
  unfold minimum_time. rewrite R4, R5, R6. done.
Qed.

End Heap.

(** An example: one core at 1000 MHz, interconnect and memory at 500 MHz,
    and two models, due at 500 ps and at 3000 ps. *)
Lemma core_time_counts_core_cycles_witness :
  ∃ s0 s,
    @Simulator (Trace.recording Trace.example_oracle) 1000 500 500 1 1 []
      = Some s0 ∧
    @cycle _ Trace.example_masks Trace.sorting_heap 5
      (@registered (Trace.recording Trace.example_oracle) Trace.sorting_heap
         [(3000, false); (500, false)] s0) = Some s ∧
    _core_cycles s = 3 ∧
    _core_time s = wrap64 (_core_cycles s * (1000000 / 1000)).
Proof.
  eexists _, _. split; [reflexivity|]. split; [vm_compute; reflexivity|].
  split; [reflexivity|].
  eapply (proj2 (@core_time_counts_core_cycles
                   (Trace.recording Trace.example_oracle)
                   Trace.example_masks Trace.sorting_heap
                   example_masks_distinct 1000 500 500 1 1 []
                   [(3000, false); (500, false)] _ eq_refl) 5%nat).
  vm_compute. reflexivity.
Defined.

Lemma clock_domains_stay_together_witness :
  ∃ s0 s,
    @Simulator (Trace.recording Trace.example_oracle) 1000 500 500 1 1 []
      = Some s0 ∧
    @iterations _ Trace.example_masks Trace.sorting_heap 2
      (@registered (Trace.recording Trace.example_oracle) Trace.sorting_heap [(3000, false); (500, false)] s0)
      = Some s ∧
    (_core_time s, _dram_time s, _icnt_time s) = (2000, 2000, 2000) ∧
    Z.of_nat 2 ≤ minimum_time s ∧
    _core_time s ≤ minimum_time s + _core_period s ∧
    _dram_time s ≤ minimum_time s + _dram_period s ∧
    _icnt_time s ≤ minimum_time s + _icnt_period s ∧
    (_core_period s | _core_time s) ∧ (_dram_period s | _dram_time s) ∧
    (_icnt_period s | _icnt_time s).
Proof.
  eexists _, _. split; [reflexivity|]. split; [vm_compute; reflexivity|].
  split; [reflexivity|].
  eapply (@clock_domains_stay_together (Trace.recording Trace.example_oracle)
            Trace.example_masks
            Trace.sorting_heap example_masks_distinct 1000 500 500 1 1 []
            [(3000, false); (500, false)] 2).
  - reflexivity.
  - lia.
  - lia.
  - lia.
  - vm_compute. reflexivity.
  - vm_compute. reflexivity.
Defined.

Lemma zero_core_period_starves_witness :
  ∃ s0 s,
    @Simulator (Trace.recording Trace.example_oracle) 2000000 500 500 1 1 []
      = Some s0 ∧
    @iterations _ Trace.example_masks Trace.sorting_heap 3
      (@registered (Trace.recording Trace.example_oracle) Trace.sorting_heap [(3000, false)] s0) = Some s ∧
    _core_period s = 0 ∧ minimum_time s = 0 ∧
    _dram_time s = 1000000 / 500 ∧ _icnt_time s = 1000000 / 500 ∧
    _core_cycles s = wrap64 (Z.of_nat 3) ∧
    ticks 2 s = true ∧
    (2%nat ≠ 0%nat → ticks 4 s = false ∧ ticks 8 s = false).
Proof.
  eexists _, _. split; [reflexivity|]. split; [vm_compute; reflexivity|].
  eapply (@zero_core_period_starves (Trace.recording Trace.example_oracle)
            Trace.example_masks
            Trace.sorting_heap example_masks_distinct 2000000 500 500 1 1 []
            [(3000, false)] 2).
  - reflexivity.
  - lia.
  - lia.
  - lia.
  - vm_compute. reflexivity.
Defined.

Lemma models_launched_in_request_order_witness :
  ∃ s' launched inits,
    @handle_model _ Trace.sorting_heap
      (@with_core_time (Trace.recording Trace.example_oracle)
         Trace.example_first_tick 3000) = Some s' ∧
    world s' = [Trace.ev_schedule_model (3000, true) 1;
                Trace.ev_schedule_model (3000, true) 1] ∧
    [(500, false); (3000, false)] ≡ₚ launched ++ _models s' ∧
    StronglySorted Trace.by_request_time launched ∧
    Forall2 (λ m m', initialize_model m = Some m') launched inits ∧
    world s' =
      schedule_all
        (@with_core_time (Trace.recording Trace.example_oracle)
           Trace.example_first_tick 3000) inits.
Proof.
  destruct (@models_launched_in_request_order _ Trace.sorting_heap
              sorting_heap_laws
              (@with_core_time (Trace.recording Trace.example_oracle)
                 Trace.example_first_tick 3000)
              _ example_first_tick_heap ltac:(vm_compute; reflexivity))
    as (launched & inits & P).
  eexists _, launched, inits. split; [vm_compute; reflexivity|].
  split; [reflexivity|]. exact P.
Defined.

Lemma handle_model_returns_iff_witness :
  is_Some (@handle_model _ Trace.sorting_heap Trace.example_first_tick) ↔
  ∀ m, m ∈ _models Trace.example_first_tick →
       get_request_time m ≤ _core_time Trace.example_first_tick →
       is_Some (@initialize_model (Trace.recording Trace.example_oracle) m).
Proof.
  exact (@handle_model_returns_iff _ Trace.sorting_heap sorting_heap_laws
           Trace.example_first_tick example_first_tick_heap).
Defined.

Lemma arrival_heap_invariant_witness :
  ∃ s0 s,
    @Simulator (Trace.recording Trace.example_oracle) 1000 500 500 1 1 []
      = Some s0 ∧
    @iterations _ Trace.example_masks Trace.sorting_heap 2
      (@registered (Trace.recording Trace.example_oracle) Trace.sorting_heap
         [(3000, false); (500, false)] s0) = Some s ∧
    _models s = [(3000, false)] ∧
    is_heap (_models s) ∧ _models s ⊆+ [(3000, false); (500, false)] ∧
    (2%nat ≠ 0%nat →
     Forall (λ m, _core_time s < get_request_time m) (_models s)).
Proof.
  eexists _, _. split; [reflexivity|]. split; [vm_compute; reflexivity|].
  split; [reflexivity|].
  eapply (@arrival_heap_invariant (Trace.recording Trace.example_oracle)
            Trace.example_masks Trace.sorting_heap example_masks_distinct
            sorting_heap_laws 1000 500 500 1 1 []
            [(3000, false); (500, false)] 2).
  - reflexivity.
  - vm_compute. reflexivity.
Defined.

End LoopProofs.

(** ** The ticks of the components *)
Module TickProofs.
Import Common Simulator Trace Loop Ticks.

Section Ticks.
Context (o : oracle) (masks : Masks).
Context (heap : @StdHeap (recording o)).

Local Existing Instance masks.
Local Existing Instance heap.

Abbreviation sim := (@Simulator.t (recording o)).

Lemma ticks_in_app l1 l2 : ticks_in (l1 ++ l2) = ticks_in l1 ++ ticks_in l2.
Proof. apply List.filter_app. Qed.

Lemma launches_in_app l1 l2 :
  launches_in (l1 ++ l2) = launches_in l1 ++ launches_in l2.
Proof. apply List.filter_app. Qed.

Lemma flat_map_singleton {A B} (f : A → B) (l : list A) :
  flat_map (λ x, [f x]) l = f <$> l.
Proof. induction l as [|x l IH]; simpl; [done|by rewrite IH]. Qed.

Lemma flat_map_nil {A B} (l : list A) : flat_map (λ _, @nil B) l = [].
Proof. by induction l. Qed.

(** A loop whose body appends its calls to the store. *)
Lemma loop_ticks (step : list event → nat → list event)
    (mark : nat → list event) (side : event → bool) :
  (∀ w c, ∃ l, step w c = w ++ l ∧ ticks_in l = mark c ∧
               launches_in l = [] ∧ forallb side l = true) →
  ∀ cs w,
    ∃ l, fold_left step cs w = w ++ l ∧ ticks_in l = flat_map mark cs ∧
         launches_in l = [] ∧ forallb side l = true.
Proof.
  intros Hstep cs. induction cs as [|c cs IH]; intros w; simpl.
  - exists []. by rewrite app_nil_r.
  - destruct (Hstep w c) as (l1 & -> & M1 & L1 & S1).
    destruct (IH (w ++ l1)) as (l2 & -> & M2 & L2 & S2).
    exists (l1 ++ l2). rewrite app_assoc. split; [done|].
    by rewrite ticks_in_app, M1, M2, launches_in_app, L1, L2, forallb_app,
      S1, S2.
Qed.

Lemma core_step_ticks clk (w : list event) (c : nat) :
  ∃ l, @core_step (recording o) clk w c = w ++ l ∧
       ticks_in l = [ev_core_cycle c] ∧ launches_in l = [] ∧
       forallb on_compute_side l = true.
Proof.
  unfold core_step. simpl. repeat case_match; subst.
  all: rewrite <- ?app_assoc; simpl; eexists;
    (split; [first [reflexivity | symmetry; apply app_nil_r]|]).
  all: repeat split; reflexivity.
Qed.

Lemma icnt_core_step_ticks (num_cores : nat) (w : list event) (c : nat) :
  ∃ l, @icnt_core_step (recording o) num_cores w c = w ++ l ∧
       ticks_in l = [] ∧ launches_in l = [] ∧
       forallb on_memory_side l = true.
Proof.
  unfold icnt_core_step. simpl. repeat case_match; subst.
  all: rewrite <- ?app_assoc; simpl; eexists;
    (split; [first [reflexivity | symmetry; apply app_nil_r]|]).
  all: repeat split; reflexivity.
Qed.

Lemma icnt_mem_step_ticks (num_cores : nat) (w : list event) (m : nat) :
  ∃ l, @icnt_mem_step (recording o) num_cores w m = w ++ l ∧
       ticks_in l = [] ∧ launches_in l = [] ∧
       forallb on_memory_side l = true.
Proof.
  unfold icnt_mem_step. simpl. repeat case_match; subst.
  all: rewrite <- ?app_assoc; simpl; eexists;
    (split; [first [reflexivity | symmetry; apply app_nil_r]|]).
  all: repeat split; reflexivity.
Qed.

(** [handle_model] makes one call for every model it takes from
    [_models]: it hands the model over, initialised, with priority 1. *)
Lemma handle_model_loop_ticks fuel :
  ∀ s s' : sim,
    handle_model_loop fuel s = Some s' →
    (∃ l, world s' = world s ++ l ∧ ticks_in l = [] ∧ launches_in l = l ∧
          forallb on_compute_side l = true ∧
          Forall (λ e, ∃ time, e = ev_schedule_model (time, true) 1) l) ∧
    _n_cores s' = _n_cores s ∧ _n_memories s' = _n_memories s ∧
    _cycle_mask s' = _cycle_mask s.
Proof.
  induction fuel as [|fuel IH]; intros s s' Hrun; simpl in Hrun.
  - destruct (_models s) as [|front rest];
      [|destruct (front.1 <=? _core_time s); [done|]];
      injection Hrun as <-; (split; [|done]);
      exists []; by rewrite app_nil_r.
  - destruct (_models s) as [|front rest];
      [|destruct (front.1 <=? _core_time s)].
    1,3: injection Hrun as <-; (split; [|done]);
      exists []; by rewrite app_nil_r.
    apply IH in Hrun as [(l & E & Hl & Hs & Hc & Hf) F]. simpl in *.
    split; [|done].
    exists (ev_schedule_model (_core_time s, true) 1 :: l).
    rewrite E, <- app_assoc. simpl. rewrite Hs. repeat split; try done.
    constructor; [by eexists|done].
Qed.

(** On a heap, the calls of [handle_model] are as many as the models it
    takes from [_models]. *)
Lemma handle_model_loop_launches (laws : @StdHeapLaws (recording o) heap)
    fuel :
  ∀ s s' : sim,
    is_heap (_models s) → handle_model_loop fuel s = Some s' →
    is_heap (_models s') ∧
    ∃ l, world s' = world s ++ l ∧
         (length l + length (_models s') = length (_models s))%nat.
Proof.
  induction fuel as [|fuel IH]; intros s s' Hheap Hrun; simpl in Hrun.
  - destruct (_models s) as [|front rest] eqn:Hm;
      [|destruct (front.1 <=? _core_time s); [done|]];
      injection Hrun as <-; rewrite Hm; (split; [done|]);
      exists []; by rewrite app_nil_r.
  - destruct (_models s) as [|front rest] eqn:Hm;
      [|destruct (front.1 <=? _core_time s)].
    1,3: injection Hrun as <-; rewrite Hm; (split; [done|]);
      exists []; by rewrite app_nil_r.
    destruct (pop_heap_spec front rest Hheap)
      as (l' & back & Hpop & Hheap' & Hperm).
    rewrite Hpop, removelast_last in Hrun.
    apply IH in Hrun as [Hh (l & E & Hlen)]; [|done]. simpl in *.
    split; [done|].
    exists (ev_schedule_model (_core_time s, true) 1 :: l).
    rewrite E, <- app_assoc. split; [done|].
    simpl. rewrite Hperm in Hlen. lia.
Qed.

(** The calls of one iteration of the loop, block by block: the launches,
    the calls for the cores, the tick of the memory and the calls of the
    interconnect cycle. *)
Lemma cycle_step_calls (s s' : sim) :
  cycle_step s = Some s' →
  ∃ (sh : sim) l0 l1 li,
    (if ticks CORE_MASK (set_cycle_mask s)
     then handle_model (set_cycle_mask s) = Some sh
     else sh = set_cycle_mask s ∧ l1 = []) ∧
    world sh = world s ++ l0 ∧ _models s' = _models sh ∧
    world s' =
      world s ++ (l0 ++ l1) ++
      (if ticks DRAM_MASK (set_cycle_mask s) then [ev_dram_cycle] else []) ++
      li ∧
    (ticks_in l0 = [] ∧ launches_in l0 = l0 ∧
     forallb on_compute_side l0 = true ∧
     Forall (λ e, ∃ time, e = ev_schedule_model (time, true) 1) l0) ∧
    (ticks_in l1 =
       (if ticks CORE_MASK (set_cycle_mask s)
        then ev_core_cycle <$> seq 0 (_n_cores s) else []) ∧
     launches_in l1 = [] ∧ forallb on_compute_side l1 = true) ∧
    (if ticks ICNT_MASK (set_cycle_mask s)
     then ticks_in li = [ev_icnt_cycle] ∧ forallb on_memory_side li = true
     else li = []) ∧
    launches_in li = [] ∧
    _n_cores s' = _n_cores s.
Proof.
  unfold cycle_step.
  destruct (TraceProofs.set_cycle_mask_frame o masks s) as (Hw & Hc & Hm).
  set (s1 := set_cycle_mask s) in *. rewrite <- Hw, <- Hc.
  clearbody s1. clear Hw Hc Hm s.
  (* the core cycle *)
  assert (Hcore :
    ∀ s2, (if ticks CORE_MASK s1 then core_phase s1 else Some s1) = Some s2 →
      ∃ (sh : sim) l0 l1,
        (if ticks CORE_MASK s1 then handle_model s1 = Some sh
         else sh = s1 ∧ l1 = []) ∧
        world sh = world s1 ++ l0 ∧ _models s2 = _models sh ∧
        world s2 = world s1 ++ l0 ++ l1 ∧
        (ticks_in l0 = [] ∧ launches_in l0 = l0 ∧
         forallb on_compute_side l0 = true ∧
         Forall (λ e, ∃ time, e = ev_schedule_model (time, true) 1) l0) ∧
        (ticks_in l1 =
           (if ticks CORE_MASK s1
            then ev_core_cycle <$> seq 0 (_n_cores s1) else []) ∧
         launches_in l1 = [] ∧ forallb on_compute_side l1 = true) ∧
        _n_cores s2 = _n_cores s1 ∧ _n_memories s2 = _n_memories s1 ∧
        _cycle_mask s2 = _cycle_mask s1).
  { intros s2. destruct (ticks CORE_MASK s1).
    - unfold core_phase, handle_model.
      destruct (handle_model_loop _ s1) as [sh|] eqn:Hh; [|done].
      apply handle_model_loop_ticks in Hh
        as [(l0 & E0 & T0) (F1 & F2 & F3)].
      intros [= <-]. simpl. rewrite F1, F2, F3.
      destruct (loop_ticks (@core_step (recording o) (the_clock sh))
                  (λ c, [ev_core_cycle c]) on_compute_side
                  (core_step_ticks (the_clock sh))
                  (seq 0 (_n_cores s1)) (world sh))
        as (l1 & E1 & T1 & L1 & S1).
      exists sh, l0, l1. rewrite E1, E0, <- app_assoc.
      rewrite flat_map_singleton in T1. done.
    - intros [= <-]. exists s1, [], []. by rewrite !app_nil_r. }
  destruct (if ticks CORE_MASK s1 then core_phase s1 else Some s1)
    as [s2|]; [|done].
  destruct (Hcore s2 eq_refl)
    as (sh & l0 & l1 & Q1 & Q2 & Q3 & E2 & Q5 & Q6 & C2 & M2 & K2).
  clear Hcore. intros [= <-]. exists sh, l0, l1.
  (* the DRAM cycle *)
  set (s3 := if ticks DRAM_MASK s2 then dram_phase s2 else s2).
  assert (P3 :
    world s3 =
      world s1 ++ (l0 ++ l1) ++
      (if ticks DRAM_MASK s1 then [ev_dram_cycle] else []) ∧
    _models s3 = _models sh ∧
    _n_cores s3 = _n_cores s1 ∧ _n_memories s3 = _n_memories s1 ∧
    _cycle_mask s3 = _cycle_mask s1).
  { subst s3. rewrite (TraceProofs.ticks_frame o DRAM_MASK s2 s1 K2).
    destruct (ticks DRAM_MASK s1); simpl.
    - by rewrite E2, <- !app_assoc.
    - by rewrite E2, !app_nil_r. }
  destruct P3 as (E3 & Q3' & C3 & M3 & K3). clearbody s3.
  (* the interconnect cycle *)
  rewrite (TraceProofs.ticks_frame o ICNT_MASK s3 s1 K3).
  destruct (ticks ICNT_MASK s1); simpl.
  - unfold icnt_phase. simpl.
    destruct (loop_ticks (@icnt_core_step (recording o) (_n_cores s3))
                (λ _, []) on_memory_side
                (icnt_core_step_ticks (_n_cores s3))
                (seq 0 (_n_cores s3)) (world s3))
      as (l3 & -> & T3 & L3 & S3).
    destruct (loop_ticks (@icnt_mem_step (recording o) (_n_cores s3))
                (λ _, []) on_memory_side
                (icnt_mem_step_ticks (_n_cores s3))
                (seq 0 (_n_memories s3)) (world s3 ++ l3))
      as (l4 & -> & T4 & L4 & S4).
    exists (l3 ++ l4 ++ [ev_icnt_cycle]).
    rewrite !ticks_in_app, T3, T4, !flat_map_nil.
    rewrite !launches_in_app, L3, L4, !forallb_app, S3, S4.
    rewrite E3, <- !app_assoc. done.
  - exists []. rewrite app_nil_r. done.
Qed.

End Ticks.

Section Counts.
Context (o : oracle) (masks : Masks).
Context (heap : @StdHeap (recording o)).
Context (distinct : @MasksDistinct masks).
Context (laws : @StdHeapLaws (recording o) heap).

Local Existing Instance masks.
Local Existing Instance heap.

(** X24.  Every component is ticked once in an iteration in which its domain
    ticks, and is not touched in any other.  The calls of one iteration are
    those of the core domain, the tick of the memory, and those of the
    interconnect domain, in this order.  The first are none when the core
    domain does not tick; when it does they are calls on the scheduler and
    on the compute side of the cores, with one tick for every core, in the
    order of the cores.  The memory is ticked exactly when its domain
    ticks.  The last are none when the interconnect domain does not tick;
    when it does they are calls on the memory ports of the cores, on the
    interconnect and on the memory (its [push] and [pop]), with the one
    tick of the interconnect. *)
Theorem each_domain_ticks_once (s s' : @Simulator.t (recording o)) :
  cycle_step s = Some s' →
  ∃ lc li,
    world s' =
      world s ++ lc ++
      (if ticks DRAM_MASK (set_cycle_mask s) then [ev_dram_cycle] else []) ++
      li ∧
    (if ticks CORE_MASK (set_cycle_mask s)
     then ticks_in lc = ev_core_cycle <$> seq 0 (_n_cores s) ∧
          forallb on_compute_side lc = true
     else lc = []) ∧
    (if ticks ICNT_MASK (set_cycle_mask s)
     then ticks_in li = [ev_icnt_cycle] ∧ forallb on_memory_side li = true
     else li = []).
Proof.
  intros Hstep.
  destruct (cycle_step_calls o masks heap s s' Hstep)
    as (sh & l0 & l1 & li & Q1 & Q2 & _ & E & (T0 & _ & S0 & _)
        & (T1 & _ & S1) & Qi & _).
  destruct (TraceProofs.set_cycle_mask_frame o masks s) as (Hw & _).
  exists (l0 ++ l1), li. split; [done|]. split; [|done].
  destruct (ticks CORE_MASK (set_cycle_mask s)).
  - by rewrite ticks_in_app, T0, T1, forallb_app, S0, S1.
  - destruct Q1 as [-> ->]. rewrite Hw in Q2.
    rewrite <- (app_nil_r (world s)) in Q2 at 1.
    apply app_inv_head in Q2. by subst l0.
Qed.

Lemma calls_of_app e l1 l2 :
  calls_of e (l1 ++ l2) = (calls_of e l1 + calls_of e l2)%nat.
Proof. unfold calls_of. by rewrite List.filter_app, length_app. Qed.

Lemma calls_of_ticks_in e l :
  is_tick e = true → calls_of e l = calls_of e (ticks_in l).
Proof.
  intros He. unfold calls_of, ticks_in.
  induction l as [|x l IH]; simpl; [done|].
  destruct (is_tick x) eqn:Hx; simpl.
  - destruct (bool_decide (x = e)); simpl; by rewrite IH.
  - rewrite bool_decide_eq_false_2; [done|]. intros ->. congruence.
Qed.

Lemma calls_of_core_cycles (c n : nat) :
  calls_of (ev_core_cycle c) (ev_core_cycle <$> seq 0 n)
    = if decide (c < n)%nat then 1%nat else 0%nat.
Proof.
  induction n as [|n IH]; [done|].
  rewrite seq_S, fmap_app, calls_of_app, IH. simpl.
  unfold calls_of. simpl.
  destruct (decide (c = n)) as [->|Hne].
  - rewrite bool_decide_eq_true_2 by done.
    rewrite decide_False by lia. by rewrite decide_True by lia.
  - rewrite bool_decide_eq_false_2 by (intros [= ?]; lia). simpl.
    destruct (decide (c < n)%nat).
    + by rewrite decide_True by lia.
    + by rewrite decide_False by lia.
Qed.

Lemma calls_of_other_ticks (e : event) (n : nat) :
  (∀ c, e ≠ ev_core_cycle c) →
  calls_of e (ev_core_cycle <$> seq 0 n) = 0%nat.
Proof.
  intros He. unfold calls_of. induction (seq 0 n) as [|c l IH]; simpl; [done|].
  by rewrite bool_decide_eq_false_2.
Qed.

Lemma calls_of_tick_block (bc bd bi : bool) (n : nat) :
  let block :=
    (if bc then ev_core_cycle <$> seq 0 n else []) ++
    (if bd then [ev_dram_cycle] else []) ++
    (if bi then [ev_icnt_cycle] else []) in
  calls_of ev_dram_cycle block = (if bd then 1%nat else 0%nat) ∧
  calls_of ev_icnt_cycle block = (if bi then 1%nat else 0%nat) ∧
  ∀ c, calls_of (ev_core_cycle c) block
       = if bc then if decide (c < n)%nat then 1%nat else 0%nat else 0%nat.
Proof.
  simpl. rewrite !calls_of_app. split; [|split].
  - replace (calls_of ev_dram_cycle
               (if bc then ev_core_cycle <$> seq 0 n else [])) with 0%nat
      by (destruct bc; [by rewrite calls_of_other_ticks|done]).
    by destruct bd, bi.
  - replace (calls_of ev_icnt_cycle
               (if bc then ev_core_cycle <$> seq 0 n else [])) with 0%nat
      by (destruct bc; [by rewrite calls_of_other_ticks|done]).
    by destruct bd, bi.
  - intros c. rewrite !calls_of_app.
    replace (calls_of (ev_core_cycle c) (if bd then [ev_dram_cycle] else []))
      with 0%nat by (by destruct bd).
    replace (calls_of (ev_core_cycle c) (if bi then [ev_icnt_cycle] else []))
      with 0%nat by (by destruct bi).
    rewrite !Nat.add_0_r. destruct bc; [|done].
    apply calls_of_core_cycles.
Qed.

(** The ticks of one iteration, counted. *)
Lemma cycle_step_counts (s s' : @Simulator.t (recording o)) (e : event) :
  cycle_step s = Some s' → is_tick e = true →
  ∃ l,
    world s' = world s ++ l ∧
    calls_of e l =
      calls_of e
        ((if ticks CORE_MASK (set_cycle_mask s)
          then ev_core_cycle <$> seq 0 (_n_cores s) else []) ++
         (if ticks DRAM_MASK (set_cycle_mask s) then [ev_dram_cycle] else []) ++
         (if ticks ICNT_MASK (set_cycle_mask s) then [ev_icnt_cycle] else [])).
Proof.
  intros Hstep He.
  destruct (cycle_step_calls o masks heap s s' Hstep)
    as (sh & l0 & l1 & li & _ & _ & _ & E & (T0 & _) & (T1 & _) & Qi & _).
  eexists. split; [exact E|].
  rewrite (calls_of_ticks_in e _ He), !ticks_in_app, T0, T1. simpl.
  f_equal. f_equal.
  destruct (ticks DRAM_MASK (set_cycle_mask s)); simpl;
    destruct (ticks ICNT_MASK (set_cycle_mask s)); simpl.
  - by destruct Qi as [-> _].
  - by rewrite Qi.
  - by destruct Qi as [-> _].
  - by rewrite Qi.
Qed.


(** X25.  Every model is launched once.  From a simulator constructed over fresh
    components, with any models registered, at every iteration of the loop
    the models handed to the scheduler so far and the models still in
    [_models] are as many as the models registered: no model is lost and
    none is launched twice.  Every launch hands over an initialised model
    with priority 1. *)
Theorem every_model_launched_once (core_freq icnt_freq dram_freq : Z)
    (num_cores dram_channels : nat) (models : list (@Model (recording o)))
    (n : nat)
    (s0 s : @Simulator.t (recording o)) :
  @Simulator (recording o) core_freq icnt_freq dram_freq num_cores
    dram_channels [] = Some s0 →
  iterations n (registered models s0) = Some s →
  (length (launches_in (world s)) + length (_models s) = length models)%nat ∧
  Forall (λ e, ∃ time, e = ev_schedule_model (time, true) 1)
    (launches_in (world s)).
Proof.
  intros Hnew Hrun. unfold Simulator in Hnew.
  destruct (_ || _); [done|]. injection Hnew as <-.
  set (s0 := mk _ _ _ _ _ _ _ _ _ _ _ _) in *.
  assert (Hheap0 : is_heap (_models s0)) by (intros i p c _ Hp; done).
  destruct (LoopProofs.registered_heap models s0 Hheap0) as [Hheap Hperm].
  destruct (LoopProofs.registered_world models s0) as (Hw & _).
  simpl in Hperm, Hw.
  assert (Hinv : ∀ j (a b : @Simulator.t (recording o)),
            iterations j a = Some b → is_heap (_models a) →
            Forall (λ e, ∃ time, e = ev_schedule_model (time, true) 1)
              (launches_in (world a)) →
            is_heap (_models b) ∧
            (length (launches_in (world b)) + length (_models b)
             = length (launches_in (world a)) + length (_models a))%nat ∧
            Forall (λ e, ∃ time, e = ev_schedule_model (time, true) 1)
              (launches_in (world b))).
  { clear Hrun Hheap Hperm Hw. intros j.
    induction j as [|j IH]; intros a b Hrun Hheap Hall; simpl in Hrun.
    - by injection Hrun as <-.
    - destruct (running a); [|done].
      destruct (cycle_step a) as [a1|] eqn:Hstep; [|done].
      destruct (cycle_step_calls o masks heap a a1 Hstep)
        as (sh & l0 & l1 & li & Q1 & Q2 & Q3 & E & (_ & L0 & _ & F0)
            & (_ & L1 & _) & _ & Li & _).
      destruct (TraceProofs.set_cycle_mask_frame o masks a) as (Hw & _).
      pose proof (LoopProofs.set_cycle_mask_keeps a)
        as (_ & _ & _ & _ & Hm & _).
      assert (Hl : launches_in (world a1) = launches_in (world a) ++ l0).
      { rewrite E, !launches_in_app, L0, L1, Li.
        destruct (ticks DRAM_MASK (set_cycle_mask a)); simpl;
          by rewrite !app_nil_r. }
      assert (Hsh : is_heap (_models sh) ∧
                    (length l0 + length (_models sh)
                     = length (_models a))%nat).
      { destruct (ticks CORE_MASK (set_cycle_mask a)).
        - unfold handle_model in Q1. rewrite <- Hm in Hheap.
          destruct (handle_model_loop_launches o heap laws _ _ _
                      Hheap Q1) as [Hh (l & El & Hlen)].
          rewrite Hw, Q2 in El. apply app_inv_head in El. subst l.
          split; [done|]. by rewrite <- Hm.
        - destruct Q1 as [-> _]. rewrite Hw in Q2.
          rewrite <- (app_nil_r (world a)) in Q2 at 1.
          apply app_inv_head in Q2. subst l0. by rewrite Hm. }
      destruct Hsh as [Hh Hlen]. rewrite <- Q3 in Hh, Hlen.
      destruct (IH a1 b Hrun Hh) as (I1 & I2 & I3).
      + rewrite Hl. apply Forall_app. by split.
      + split; [done|]. split; [|done].
        rewrite I2, Hl, length_app. lia. }
  destruct (Hinv n _ _ Hrun Hheap) as (_ & I2 & I3).
  - rewrite Hw. constructor.
  - split; [|done]. rewrite I2, Hw, Hperm. done.
Qed.

(** X26.  Every component has been ticked as often as its time says.  From a
    simulator constructed over fresh components, at every iteration of the
    loop the time of the memory is the number of the calls of its [cycle()]
    times its period, the time of the interconnect likewise, and every core
    has been ticked [_core_cycles] times (all in [uint64_t] arithmetic);
    no core beyond [num_cores] has been ticked. *)
Theorem components_ticked_by_the_clock (core_freq icnt_freq dram_freq : Z)
    (num_cores dram_channels : nat) (models : list (@Model (recording o)))
    (n : nat)
    (s0 s : @Simulator.t (recording o)) :
  @Simulator (recording o) core_freq icnt_freq dram_freq num_cores
    dram_channels [] = Some s0 →
  iterations n (registered models s0) = Some s →
  _dram_time s =
    wrap64 (Z.of_nat (calls_of ev_dram_cycle (world s))
            * (1000000 / dram_freq)) ∧
  _icnt_time s =
    wrap64 (Z.of_nat (calls_of ev_icnt_cycle (world s))
            * (1000000 / icnt_freq)) ∧
  ∀ c,
    if decide (c < num_cores)%nat
    then _core_cycles s = wrap64 (Z.of_nat (calls_of (ev_core_cycle c) (world s)))
    else calls_of (ev_core_cycle c) (world s) = 0%nat.
Proof.
  intros Hnew Hrun. unfold Simulator in Hnew.
  destruct (_ || _); [done|]. injection Hnew as <-.
  set (s0 := mk _ _ _ _ _ _ _ _ _ _ _ _) in *.
  destruct (LoopProofs.registered_world models s0) as (Hw & Hn & _).
  pose proof (LoopProofs.registered_clock models s0)
    as (_ & R2 & R3 & _ & R5 & R6 & R7).
  simpl in Hw, Hn, R2, R3, R5, R6, R7.
  set (inv := λ a : @Simulator.t (recording o),
         _dram_time a =
           wrap64 (Z.of_nat (calls_of ev_dram_cycle (world a))
                   * _dram_period a) ∧
         _icnt_time a =
           wrap64 (Z.of_nat (calls_of ev_icnt_cycle (world a))
                   * _icnt_period a) ∧
         ∀ c,
           if decide (c < _n_cores a)%nat
           then _core_cycles a =
                  wrap64 (Z.of_nat (calls_of (ev_core_cycle c) (world a)))
           else calls_of (ev_core_cycle c) (world a) = 0%nat).
  assert (Hinv : ∀ j (a b : @Simulator.t (recording o)),
            iterations j a = Some b → inv a →
            inv b ∧ _dram_period b = _dram_period a ∧
            _icnt_period b = _icnt_period a ∧ _n_cores b = _n_cores a).
  { clear Hrun. intros j.
    induction j as [|j IH]; intros a b Hrun Ha; simpl in Hrun.
    - by injection Hrun as <-.
    - destruct (running a); [|done].
      destruct (cycle_step a) as [a1|] eqn:Hstep; [|done].
      pose proof (LoopProofs.cycle_step_clock _ _ Hstep)
        as (_ & P2 & P3 & _ & T2 & T3 & _ & C1).
      pose proof (@LoopProofs.set_cycle_mask_times _ _ distinct a)
        as (M1 & M2 & M3 & _ & E2 & E3).
      simpl in M1, M2, M3, E2, E3.
      destruct (cycle_step_calls o masks heap a a1 Hstep)
        as (_ & _ & _ & _ & _ & _ & _ & _ & _ & _ & _ & _ & N1).
      assert (Ha1 : inv a1).
      { destruct Ha as (I1 & I2 & I3). unfold inv.
        rewrite P2, P3, N1, T2, T3, E2, E3, C1.
        destruct (cycle_step_counts a a1 ev_dram_cycle Hstep eq_refl)
          as (l & El & Cd).
        destruct (cycle_step_counts a a1 ev_icnt_cycle Hstep eq_refl)
          as (l' & El' & Ci).
        rewrite El in El'. apply app_inv_head in El'. subst l'.
        destruct (calls_of_tick_block (ticks CORE_MASK (set_cycle_mask a))
                    (ticks DRAM_MASK (set_cycle_mask a))
                    (ticks ICNT_MASK (set_cycle_mask a)) (_n_cores a))
          as (Bd & Bi & Bc).
        simpl in Bd, Bi, Bc. rewrite Bd in Cd. rewrite Bi in Ci.
        rewrite El, !calls_of_app, Cd, Ci, M1, M2, M3. split; [|split].
        - destruct (bool_decide (_dram_time a ≤ minimum_time a));
            [|by rewrite Nat.add_0_r].
          rewrite I1. unfold wrap64. rewrite Zplus_mod_idemp_l. f_equal. lia.
        - destruct (bool_decide (_icnt_time a ≤ minimum_time a));
            [|by rewrite Nat.add_0_r].
          rewrite I2. unfold wrap64. rewrite Zplus_mod_idemp_l. f_equal. lia.
        - intros c. specialize (I3 c).
          destruct (cycle_step_counts a a1 (ev_core_cycle c) Hstep eq_refl)
            as (l' & El' & Cc).
          rewrite El in El'. apply app_inv_head in El'. subst l'.
          rewrite calls_of_app, Cc, Bc, M1.
          destruct (bool_decide (_core_time a ≤ minimum_time a)).
          + destruct (decide (c < _n_cores a)%nat).
            * rewrite I3. unfold wrap64. rewrite Zplus_mod_idemp_l.
              f_equal. lia.
            * by rewrite I3.
          + by rewrite Nat.add_0_r. }
      destruct (IH a1 b Hrun Ha1) as (J1 & J2 & J3 & J4).
      split; [done|]. rewrite J2, J3, J4, P2, P3, N1. done. }
  destruct (Hinv n _ _ Hrun) as ((I1 & I2 & I3) & J2 & J3 & J4).
  - unfold inv. rewrite Hw, Hn, R2, R3, R5, R6, R7. simpl.
    split; [done|]. split; [done|]. intros c.
    by destruct (decide (c < num_cores)%nat).
  - rewrite J2, R3 in I1. rewrite J3, R2 in I2. rewrite J4, Hn in I3.
    done.
Qed.

End Counts.

Lemma each_domain_ticks_once_witness :
  ∃ s' lc li,
    @cycle_step _ example_masks sorting_heap example_simulator = Some s' ∧
    world s' = world example_simulator ++ lc ++ [ev_dram_cycle] ++ li ∧
    (ticks_in lc = [ev_core_cycle 0] ∧ forallb on_compute_side lc = true) ∧
    (ticks_in li = [ev_icnt_cycle] ∧ forallb on_memory_side li = true).
Proof.
  destruct (each_domain_ticks_once example_oracle example_masks sorting_heap
              example_simulator _ ltac:(vm_compute; reflexivity))
    as (lc & li & P).
  eexists _, lc, li. split; [vm_compute; reflexivity|]. exact P.
Defined.

Lemma every_model_launched_once_witness :
  ∃ s0 s,
    @Simulator (recording example_oracle) 1000 500 500 1 1 [] = Some s0 ∧
    @iterations _ example_masks sorting_heap 3
      (@registered (recording example_oracle) sorting_heap
         [(3000, false); (500, false)] s0) = Some s ∧
    _models s = [] ∧
    (length (launches_in (world s)) + length (_models s)
     = length [(3000, false); (500, false)])%nat ∧
    Forall (λ e, ∃ time, e = ev_schedule_model (time, true) 1)
      (launches_in (world s)).
Proof.
  eexists _, _. split; [reflexivity|]. split; [vm_compute; reflexivity|].
  split; [reflexivity|].
  eapply (every_model_launched_once example_oracle example_masks sorting_heap
            (@SimulatorProofs.sorting_heap_laws (recording example_oracle))
            1000 500 500 1 1 [(3000, false); (500, false)] 3).
  - reflexivity.
  - vm_compute. reflexivity.
Defined.

Lemma components_ticked_by_the_clock_witness :
  ∃ s0 s,
    @Simulator (recording example_oracle) 1000 500 500 1 1 [] = Some s0 ∧
    @iterations _ example_masks sorting_heap 3
      (@registered (recording example_oracle) sorting_heap
         [(3000, false); (500, false)] s0) = Some s ∧
    (calls_of ev_dram_cycle (world s), calls_of ev_icnt_cycle (world s),
     calls_of (ev_core_cycle 0) (world s)) = (2%nat, 2%nat, 3%nat) ∧
    _dram_time s =
      wrap64 (Z.of_nat (calls_of ev_dram_cycle (world s)) * (1000000 / 500)) ∧
    _icnt_time s =
      wrap64 (Z.of_nat (calls_of ev_icnt_cycle (world s)) * (1000000 / 500)) ∧
    ∀ c,
      if decide (c < 1)%nat
      then _core_cycles s
           = wrap64 (Z.of_nat (calls_of (ev_core_cycle c) (world s)))
      else calls_of (ev_core_cycle c) (world s) = 0%nat.
Proof.
  eexists _, _. split; [reflexivity|]. split; [vm_compute; reflexivity|].
  split; [reflexivity|].
  eapply (components_ticked_by_the_clock example_oracle example_masks
            sorting_heap SimulatorProofs.example_masks_distinct
            1000 500 500 1 1 [(3000, false); (500, false)] 3).
  - reflexivity.
  - vm_compute. reflexivity.
Defined.

End TickProofs.
